(** * Crossword CSP solver ([crossword/generate.py])

    A shallow embedding of [CrosswordCreator]: the domain store, node and
    arc consistency ([enforce_node_consistency], [revise], [ac3]), the
    search heuristics ([select_unassigned_variable], [order_domain_values])
    and the backtracking search ([consistent], [backtrack], [solve]).

    Conventions of the embedding.
    - A Python [set] is a list in the set's iteration order; [remove]
      deletes the element and keeps the order of the others.
    - A Python [dict] is an association list in insertion order.
    - A Python [list] used as a stack ([arcs]) is kept with its top (the
      Python list's last element) at the head.
    - Exceptions and the fuel of the two unbounded loops are results of
      type [outcome]; the fuel that [ac3] and [backtrack] are run with is
      shown to be enough. *)

From Stdlib Require Import List String Ascii Bool Arith ZArith Lia.
From Stdlib Require Import Permutation Sorted.
Import ListNotations.

Local Open Scope list_scope.

(* ------------------------------------------------------------------ *)
(** * Results of a call *)

Inductive exn : Type :=
| IndexError    (* a string indexed past its end *)
| KeyError      (* a dict looked up at a missing key *)
| TypeError     (* an overlap entry that is None unpacked as a pair *)
| NameError     (* a local read before it was bound *)
| NotAVariable. (* the grid model applied to something that is no Variable *)

Inductive outcome (A : Type) : Type :=
| Ret (a : A)
| Raise (e : exn)
| OutOfFuel.

Arguments Ret {A} a.
Arguments Raise {A} e.
Arguments OutOfFuel {A}.

Definition bind {A B : Type} (m : outcome A) (f : A -> outcome B) : outcome B :=
  match m with
  | Ret a => f a
  | Raise e => Raise e
  | OutOfFuel => OutOfFuel
  end.

Notation "x <- m ;; k" := (bind m (fun x => k))
  (at level 61, m at next level, right associativity).
Notation "' p <- m ;; k" := (bind m (fun x => match x with p => k end))
  (at level 61, p pattern, m at next level, right associativity).

(* ------------------------------------------------------------------ *)
(** * The grid model *)

Inductive Direction : Type := ACROSS | DOWN.

(** A crossword slot ([Variable] in the source): start row [i], start column
    [j], direction and length; equality is structural. *)
Record variable : Type := mkVariable {
  var_i : nat;
  var_j : nat;
  var_direction : Direction;
  var_length : nat
}.

Definition Direction_eqb (a b : Direction) : bool :=
  match a, b with
  | ACROSS, ACROSS | DOWN, DOWN => true
  | _, _ => false
  end.

Definition variable_eqb (x y : variable) : bool :=
  (var_i x =? var_i y) && (var_j x =? var_j y)
  && Direction_eqb (var_direction x) (var_direction y)
  && (var_length x =? var_length y).

(** The crossword the solver is given: the set of Variables (in its
    iteration order), the vocabulary, and the table [overlaps], where
    [overlaps x y = Some (i, j)] says that character [i] of [x]'s word is
    character [j] of [y]'s word, and [None] that there is no such entry. *)
Record Crossword : Type := mkCrossword {
  variables : list variable;
  words : list string;
  overlaps : variable -> variable -> option (nat * nat)
}.

Definition is_some {A : Type} (o : option A) : bool :=
  match o with Some _ => true | None => false end.

(** Modelled from the spec: [Crossword.neighbors] is not part of the sources
    at hand.  "Neighbors of a Variable = all Variables sharing an edge with
    it", an edge being a pair of distinct Variables with a recorded overlap. *)
Definition neighbors (c : Crossword) (var : variable) : list variable :=
  filter (fun v => negb (variable_eqb v var) && is_some (overlaps c v var))
         (variables c).

(** The grid model's own invariants (spec, data model): an overlap belongs
    to an unordered pair of distinct Variables, so that no Variable overlaps
    itself and [(i, j)] for the pair [(x, y)] is [(j, i)] for [(y, x)]. *)
Record WfCrossword (c : Crossword) : Prop := {
  overlaps_irrefl : forall x, overlaps c x x = None;
  overlaps_sym : forall x y i j,
      overlaps c x y = Some (i, j) -> overlaps c y x = Some (j, i)
}.

(* ------------------------------------------------------------------ *)
(** * Sets of words and dicts keyed by Variables *)

Definition word_in (w : string) (s : list string) : bool :=
  existsb (String.eqb w) s.

(** [s.remove(word)] *)
Definition set_remove (word : string) (s : list string) : list string :=
  filter (fun w => negb (String.eqb w word)) s.

Section Dict.
Context {V : Type}.

Definition dict := list (variable * V).

Definition keys (d : dict) : list variable := map fst d.

(** [d[k]], [None] standing for the KeyError *)
Fixpoint dict_get (d : dict) (k : variable) : option V :=
  match d with
  | [] => None
  | (k', v) :: rest => if variable_eqb k' k then Some v else dict_get rest k
  end.

(** [k in d] *)
Definition dict_mem (d : dict) (k : variable) : bool :=
  existsb (fun k' => variable_eqb k' k) (keys d).

(** [d.update({k: v})]: overwrite in place, or append a new entry *)
Fixpoint dict_update (d : dict) (k : variable) (v : V) : dict :=
  match d with
  | [] => [(k, v)]
  | (k', v') :: rest =>
      if variable_eqb k' k then (k', v) :: rest
      else (k', v') :: dict_update rest k v
  end.

(** [d.pop(k)], after [k in d] has been established *)
Definition dict_pop (d : dict) (k : variable) : dict :=
  filter (fun kv => negb (variable_eqb (fst kv) k)) d.

(** The value stored under [k] replaced by [f] of it (the in-place
    mutation of the object [d[k]]). *)
Definition dict_modify (d : dict) (k : variable) (f : V -> V) : dict :=
  map (fun kv => if variable_eqb (fst kv) k then (fst kv, f (snd kv)) else kv) d.
End Dict.

Arguments dict V : clear implicits.

(** [self.domains]: Variable -> set of words *)
Definition Domains := dict (list string).
(** an assignment: Variable -> word *)
Definition Assignment := dict string.

(** [CrosswordCreator.__init__]: every Variable starts with a copy of the
    whole vocabulary. *)
Definition init_domains (c : Crossword) : Domains :=
  map (fun var => (var, words c)) (variables c).

(* ------------------------------------------------------------------ *)
(** * Node consistency *)

(** The words of [s] that the first loop puts on [removelist]. *)
Definition wrong_length (var : variable) (s : list string) : list string :=
  filter (fun word => negb (var_length var =? String.length word)) s.

Definition enforce_node_consistency (d : Domains) : Domains :=
  map (fun kv =>
         let var := fst kv in
         let removelist := wrong_length var (snd kv) in
         (var, fold_left (fun s word => set_remove word s) removelist (snd kv)))
      d.

(* ------------------------------------------------------------------ *)
(** * Arc consistency *)

(** The inner loop of [revise]: is there a [yword] with
    [xword[i] == yword[j]]?  Indexing past the end of either raises. *)
Fixpoint has_support (i j : nat) (xword : string) (ywords : list string)
  : outcome bool :=
  match ywords with
  | [] => Ret false
  | yword :: rest =>
      match String.get i xword, String.get j yword with
      | Some a, Some b =>
          if Ascii.eqb a b then Ret true else has_support i j xword rest
      | _, _ => Raise IndexError
      end
  end.

(** The outer loop of [revise]: [removelist] and the [revision] flag after
    the words [xwords] have been looked at. *)
Fixpoint revise_scan (i j : nat) (xwords ywords : list string)
         (removelist : list string) (revision : bool)
  : outcome (list string * bool) :=
  match xwords with
  | [] => Ret (removelist, revision)
  | xword :: rest =>
      ac <- has_support i j xword ywords ;;
      if ac then revise_scan i j rest ywords removelist revision
      else revise_scan i j rest ywords (removelist ++ [xword]) true
  end.

Definition revise (c : Crossword) (d : Domains) (x y : variable)
  : outcome (bool * Domains) :=
  match overlaps c x y with
  | None => Ret (false, d)
  | Some (i, j) =>
      match dict_get d x with
      | None => Raise KeyError
      | Some xwords =>
          match (match xwords with
                 | [] => Some []      (* the inner loop never reads domains[y] *)
                 | _ => dict_get d y
                 end) with
          | None => Raise KeyError
          | Some ywords =>
              ' (removelist, revision) <- revise_scan i j xwords ywords [] false ;;
              Ret (revision,
                   fold_left (fun d' word => dict_modify d' x (set_remove word))
                             removelist d)
          end
      end
  end.

Definition arc : Type := (variable * variable)%type.

(** The initial list of arcs, in the order [ac3] appends them. *)
Definition all_arcs (c : Crossword) (d : Domains) : list arc :=
  flat_map (fun var =>
              map (fun neighbor => (var, neighbor))
                  (filter (fun neighbor => negb (variable_eqb var neighbor))
                          (neighbors c var)))
           (keys d).

(** [for z in neighbors(x): if z != y: arcs.append((z, x))], on the stack [q] *)
Definition push_arcs (c : Crossword) (x y : variable) (q : list arc) : list arc :=
  fold_left (fun q' z => if negb (variable_eqb z y) then (z, x) :: q' else q')
            (neighbors c x) q.

(** The [while arcs:] loop; [arcs] is the stack, top first. *)
Fixpoint ac3_loop (c : Crossword) (fuel : nat) (arcs : list arc) (d : Domains)
  : outcome (bool * Domains) :=
  match arcs with
  | [] => Ret (true, d)
  | (x, y) :: rest =>
      match fuel with
      | O => OutOfFuel
      | S fuel' =>
          ' (revised, d') <- revise c d x y ;;
          if (revised : bool) then
            match dict_get d' x with
            | None => Raise KeyError
            | Some [] => Ret (false, d')
            | Some _ => ac3_loop c fuel' (push_arcs c x y rest) d'
            end
          else ac3_loop c fuel' rest d'
      end
  end.

(** Number of words in the whole store. *)
Definition total_size (d : Domains) : nat :=
  fold_right (fun kv n => List.length (snd kv) + n) 0 d.

(** A bound on the number of iterations of the loop: every revision removes
    a word and pushes at most one arc per Variable. *)
Definition ac3_fuel (c : Crossword) (d : Domains) (arcs : list arc) : nat :=
  total_size d * S (List.length (variables c)) + List.length arcs.

(** [ac3(arcs)]; [arcs] is [None] or the list passed, in Python order. *)
Definition ac3 (c : Crossword) (d : Domains) (arcs : option (list arc))
  : outcome (bool * Domains) :=
  let stack :=
    match arcs with
    | None | Some [] => rev (all_arcs c d)
    | Some l => rev l
    end in
  ac3_loop c (ac3_fuel c d stack) stack d.

(* ------------------------------------------------------------------ *)
(** * The search heuristics *)

Definition assignment_complete (d : Domains) (a : Assignment) : bool :=
  forallb (fun var => dict_mem a var) (keys d).

Fixpoint check_neighbors (c : Crossword) (a : Assignment) (var : variable)
         (word : string) (ns : list variable) : outcome bool :=
  match ns with
  | [] => Ret true
  | neighbor :: rest =>
      match dict_get a neighbor with
      | None => check_neighbors c a var word rest
      | Some nword =>
          match overlaps c var neighbor with
          | None => Raise TypeError
          | Some (i, j) =>
              match String.get i word, String.get j nword with
              | Some p, Some q =>
                  if Ascii.eqb p q then check_neighbors c a var word rest
                  else Ret false
              | _, _ => Raise IndexError
              end
          end
      end
  end.

(** The loop of [consistent] over the keys [todo] still to visit; [seen] is
    the list [words] of the source. *)
Fixpoint consistent_scan (c : Crossword) (a : Assignment)
         (todo : list variable) (seen : list string) : outcome bool :=
  match todo with
  | [] => Ret true
  | var :: rest =>
      match dict_get a var with
      | None => Raise KeyError
      | Some word =>
          if negb (var_length var =? String.length word) || word_in word seen
          then Ret false
          else
            ok <- check_neighbors c a var word (neighbors c var) ;;
            if (ok : bool) then consistent_scan c a rest (seen ++ [word])
            else Ret false
      end
  end.

Definition consistent (c : Crossword) (a : Assignment) : outcome bool :=
  consistent_scan c a (keys a) [].

(** [value in assignment]: a word compared with the Variables that are the
    dict's keys; a str is never equal to one. *)
Definition word_is_key (value : string) (a : Assignment) : bool :=
  existsb (fun _ : variable => false) (keys a).

Fixpoint count_neighbors (d : Domains) (value : string) (ns : list variable)
         (counter : Z) : outcome Z :=
  match ns with
  | [] => Ret counter
  | neighbor :: rest =>
      match dict_get d neighbor with
      | None => Raise KeyError
      | Some s =>
          count_neighbors d value rest
            (if word_in value s then (counter + 1)%Z else counter)
      end
  end.

(** The loop building [reslist]; [counter] is [None] while the local is
    unbound. *)
Fixpoint lcv_scan (c : Crossword) (d : Domains) (var : variable)
         (a : Assignment) (values : list string) (counter : option Z)
         (reslist : list (string * Z)) : outcome (list (string * Z)) :=
  match values with
  | [] => Ret reslist
  | value :: rest =>
      counter' <- (if negb (word_is_key value a)
                   then n <- count_neighbors d value (neighbors c var) 0%Z ;;
                        Ret (Some n)
                   else Ret counter) ;;
      match counter' with
      | None => Raise NameError
      | Some n => lcv_scan c d var a rest counter' (reslist ++ [(value, n)])
      end
  end.

(** [sorted(l, key=...)]: a stable sort, here by insertion. *)
Fixpoint insert_by {A : Type} (key : A -> Z) (x : A) (l : list A) : list A :=
  match l with
  | [] => [x]
  | y :: l' => if (key x <=? key y)%Z then x :: l else y :: insert_by key x l'
  end.

Definition sorted {A : Type} (key : A -> Z) (l : list A) : list A :=
  fold_right (insert_by key) [] l.

Definition order_domain_values (c : Crossword) (d : Domains) (var : variable)
           (a : Assignment) : outcome (list string) :=
  match dict_get d var with
  | None => Raise KeyError
  | Some values =>
      reslist <- lcv_scan c d var a values None [] ;;
      Ret (map fst (sorted snd reslist))
  end.

(** What [select_unassigned_variable] can hand back: a Variable, or the
    integer its list [minvalues] starts with. *)
Inductive selection : Type :=
| Selected (var : variable)
| Placeholder (n : Z).

(** [minvalues] is never empty: its first entry and the others. *)
Definition minvalues_t : Type := ((selection * Z) * list (selection * Z))%type.

Definition count_values (s : list string) : Z :=
  fold_left (fun count _ => (count + 1)%Z) s 0%Z.

(** The first loop, over the keys [todo] of [self.domains] still to visit. *)
Fixpoint select_scan (d : Domains) (a : Assignment) (todo : list variable)
         (minvalues : minvalues_t) : outcome minvalues_t :=
  match todo with
  | [] => Ret minvalues
  | var :: rest =>
      if dict_mem a var then select_scan d a rest minvalues
      else
        match dict_get d var with
        | None => Raise KeyError
        | Some s =>
            let count := count_values s in
            if (count <? snd (fst minvalues))%Z
            then select_scan d a rest ((Selected var, count), [])
            else if (count =? snd (fst minvalues))%Z
            then select_scan d a rest
                   (fst minvalues, snd minvalues ++ [(Selected var, count)])
            else select_scan d a rest minvalues
        end
  end.

Definition degree (c : Crossword) (s : selection) : outcome Z :=
  match s with
  | Selected var =>
      Ret (fold_left (fun n _ => (n + 1)%Z) (neighbors c var) 0%Z)
  | Placeholder _ => Raise NotAVariable
  end.

(** The second loop: [best] is [minvalues[0]]. *)
Fixpoint degree_scan (c : Crossword) (todo : list selection)
         (best : selection * Z) : outcome (selection * Z) :=
  match todo with
  | [] => Ret best
  | s :: rest =>
      n <- degree c s ;;
      if (n >? snd best)%Z then degree_scan c rest (s, n)
      else degree_scan c rest best
  end.

Definition select_unassigned_variable (c : Crossword) (d : Domains)
           (a : Assignment) : outcome selection :=
  minvalues <- select_scan d a (keys d) ((Placeholder 99999, 99999%Z), []) ;;
  match snd minvalues with
  | [] => Ret (fst (fst minvalues))
  | more =>
      best <- degree_scan c (map fst (fst minvalues :: more))
                          (fst (fst minvalues), 0%Z) ;;
      Ret (fst best)
  end.

(* ------------------------------------------------------------------ *)
(** * Backtracking search *)

(** What the search does, in order: a call of [backtrack], an
    [assignment.update({var: value})], an [assignment.pop(var)].  The list
    of events is a record kept beside the program's state; the program does
    not read it. *)
Inductive event : Type :=
| Enter
| Assign (var : variable) (value : string)
| Unassign (var : variable).

Definition is_empty {A : Type} (l : list A) : bool :=
  match l with [] => true | _ => false end.

(** The result of a call: whether an assignment is returned (it is the dict
    the call was given, in its final state), that final state, and the events
    of the call. *)
Definition search_result : Type := (bool * Assignment * list event)%type.

(** The [for value in ...] loop of [backtrack]; [rec] is the recursive call.
    [if result:] holds when the call returned the dict and the dict is not
    empty. *)
Fixpoint try_values (c : Crossword) (rec : Assignment -> outcome search_result)
         (var : variable) (values : list string) (a : Assignment)
  : outcome search_result :=
  match values with
  | [] => Ret (false, a, [])
  | value :: rest =>
      let a1 := dict_update a var value in
      ok <- consistent c a1 ;;
      ' (found, a2, evs) <-
          (if (ok : bool) then
             ' (found, a2, evs) <- rec a1 ;;
             Ret (found && negb (is_empty a2), a2, evs)
           else Ret (false, a1, [])) ;;
      if (found : bool) then Ret (true, a2, Assign var value :: evs)
      else
        if dict_mem a2 var then
          ' (r, a3, evs') <- try_values c rec var rest (dict_pop a2 var) ;;
          Ret (r, a3, Assign var value :: evs ++ Unassign var :: evs')
        else Raise KeyError
  end.

Fixpoint backtrack (c : Crossword) (d : Domains) (fuel : nat) (a : Assignment)
  : outcome search_result :=
  match fuel with
  | O => OutOfFuel
  | S fuel' =>
      if assignment_complete d a then Ret (true, a, [Enter])
      else
        sel <- select_unassigned_variable c d a ;;
        match sel with
        | Placeholder _ => Raise KeyError   (* self.domains[99999] *)
        | Selected var =>
            values <- order_domain_values c d var a ;;
            ' (r, a', evs) <- try_values c (backtrack c d fuel') var values a ;;
            Ret (r, a', Enter :: evs)
        end
  end.

(** One more than the number of Variables: the depth of the recursion. *)
Definition backtrack_fuel (d : Domains) : nat := S (List.length d).

(** [solve()]: the assignment returned or [None], and the events of the
    search. *)
Definition solve (c : Crossword) : outcome (option Assignment * list event) :=
  let d := enforce_node_consistency (init_domains c) in
  ' (_, d') <- ac3 c d None ;;
  ' (found, a, evs) <- backtrack c d' (backtrack_fuel d') [] ;;
  Ret (if (found : bool) then Some a else None, evs).

(* ------------------------------------------------------------------ *)
(** * The letter grid *)

(** The cell of letter [k] of a Variable, as [letter_grid] computes it: [k]
    rows down or [k] columns across from the start. *)
Definition cell (var : variable) (k : nat) : nat * nat :=
  (var_i var + match var_direction var with DOWN => k | ACROSS => 0 end,
   var_j var + match var_direction var with ACROSS => k | DOWN => 0 end).

(** A list of rows; a cell holds a letter or [None]. *)
Definition grid : Type := list (list (option ascii)).

(** [[[None for _ in range(width)] for _ in range(height)]] *)
Definition blank_grid (height width : nat) : grid :=
  repeat (repeat None width) height.

(** [l[n] = x] for [n] inside [l] *)
Fixpoint list_set {A : Type} (l : list A) (n : nat) (x : A) : list A :=
  match l, n with
  | [], _ => []
  | _ :: t, O => x :: t
  | h :: t, S n' => h :: list_set t n' x
  end.

(** [letters[i][j] = ch]: either index past the end raises. *)
Definition grid_set (letters : grid) (i j : nat) (ch : ascii) : outcome grid :=
  match nth_error letters i with
  | None => Raise IndexError
  | Some row =>
      if j <? List.length row
      then Ret (list_set letters i (list_set row j (Some ch)))
      else Raise IndexError
  end.

(** [for k in range(len(word)): letters[i][j] = word[k]], over the indices
    [ks] still to visit. *)
Fixpoint write_word (var : variable) (word : string) (ks : list nat)
         (letters : grid) : outcome grid :=
  match ks with
  | [] => Ret letters
  | k :: rest =>
      match String.get k word with
      | None => Raise IndexError
      | Some ch =>
          letters' <- grid_set letters (fst (cell var k)) (snd (cell var k)) ch ;;
          write_word var word rest letters'
      end
  end.

(** [for variable, word in assignment.items(): ...] *)
Fixpoint write_words (items : Assignment) (letters : grid) : outcome grid :=
  match items with
  | [] => Ret letters
  | (var, word) :: rest =>
      letters' <- write_word var word (seq 0 (String.length word)) letters ;;
      write_words rest letters'
  end.

(** [letter_grid(assignment)], for a crossword of the given height and
    width. *)
Definition letter_grid (height width : nat) (assignment : Assignment)
  : outcome grid :=
  write_words assignment (blank_grid height width).

(* ------------------------------------------------------------------ *)
(** * Vocabulary of the properties *)

(** [w[i] == v[j]] holds (both positions exist and carry the same letter). *)
Definition agree_b (i j : nat) (w v : string) : bool :=
  match String.get i w, String.get j v with
  | Some a, Some b => Ascii.eqb a b
  | _, _ => false
  end.

Definition support_b (i j : nat) (w : string) (ys : list string) : bool :=
  existsb (agree_b i j w) ys.

Definition unsupported (i j : nat) (ys xs : list string) : list string :=
  filter (fun w => negb (support_b i j w ys)) xs.

(** The words [revise] reads for [y]: none when [x]'s domain is empty. *)
Definition ywords_read (d : Domains) (y : variable) (xs : list string)
  : option (list string) :=
  match xs with
  | [] => Some []
  | _ => dict_get d y
  end.

(** [w[i] = v[j]], as a proposition. *)
Definition agree (i j : nat) (w v : string) : Prop :=
  exists ch, String.get i w = Some ch /\ String.get j v = Some ch.

(** Every word of every domain has its Variable's length. *)
Definition length_ok (d : Domains) : Prop :=
  Forall (fun kv => Forall (fun w => String.length w = var_length (fst kv)) (snd kv)) d.

(** [d'] is [d] with words removed: same keys in the same order, and every
    domain of [d'] holds words of the one in [d] only, and no more of them. *)
Definition shrinks (d' d : Domains) : Prop :=
  Forall2 (fun kv' kv =>
             fst kv' = fst kv
             /\ incl (snd kv') (snd kv)
             /\ List.length (snd kv') <= List.length (snd kv)) d' d.

(** A complete assignment for the store [d]: it gives every Variable of [d]
    a word of its domain, and the words of two Variables of [d] with a
    recorded overlap carry the same letter at the overlap.  (The letters are
    compared as [String.get] returns them, so that two positions past the
    end also count as equal: the weakest reading of the constraint.) *)
Definition solution (c : Crossword) (d : Domains) (a : Assignment) : Prop :=
  (forall x s, dict_get d x = Some s ->
               exists w, dict_get a x = Some w /\ In w s)
  /\ (forall x y i j wx wy,
        In x (keys d) -> In y (keys d) ->
        overlaps c x y = Some (i, j) ->
        dict_get a x = Some wx -> dict_get a y = Some wy ->
        String.get i wx = String.get j wy).

(** The arc [(x, y)] is consistent in [d]: [revise] finds a support for every
    word of [x]'s domain (and raises nothing on the way). *)
Definition arc_ok (c : Crossword) (d : Domains) (x y : variable) : Prop :=
  match overlaps c x y with
  | None => True
  | Some (i, j) =>
      exists xs ys,
        dict_get d x = Some xs /\ ywords_read d y xs = Some ys
        /\ Forall (fun w => has_support i j w ys = Ret true) xs
  end.

(** Number of words in the domain of [v]. *)
Definition dom_size (d : Domains) (v : variable) : Z :=
  match dict_get d v with
  | Some s => Z.of_nat (List.length s)
  | None => 0%Z
  end.

(** Number of neighbors of [v] in the constraint graph. *)
Definition degree_of (c : Crossword) (v : variable) : Z :=
  Z.of_nat (List.length (neighbors c v)).

(** An entry of [minvalues], given the Variables [seen] so far and the
    smallest count [c0]. *)
Definition entry_ok (d : Domains) (a : Assignment) (seen : list variable)
           (c0 : Z) (e : selection * Z) : Prop :=
  snd e = c0
  /\ match fst e with
     | Selected v => In v seen /\ dict_mem a v = false /\ dom_size d v = c0
     | Placeholder n => n = 99999%Z /\ c0 = 99999%Z
     end.

(** The invariant of the first loop. *)
Definition mrv_inv (d : Domains) (a : Assignment) (seen : list variable)
           (mv : minvalues_t) : Prop :=
  (forall e, In e (fst mv :: snd mv) -> entry_ok d a seen (snd (fst mv)) e)
  /\ (forall u, In u seen -> dict_mem a u = false ->
                (snd (fst mv) <= dom_size d u)%Z
                /\ (dom_size d u = snd (fst mv) ->
                    In (Selected u) (map fst (fst mv :: snd mv))))
  /\ (snd (fst mv) <= 99999)%Z.

Definition in_domain (d : Domains) (value : string) (n : variable) : bool :=
  match dict_get d n with
  | Some s => word_in value s
  | None => false
  end.

(** The score the code sorts by: the number of neighbors of [var], assigned
    or not, whose domain holds [value]. *)
Definition lcv_score (c : Crossword) (d : Domains) (var : variable)
           (value : string) : Z :=
  Z.of_nat (List.length (filter (in_domain d value) (neighbors c var))).

(** The score as the specification words it: only the neighbors that are
    not in the assignment count. *)
Definition lcv_score_unassigned (c : Crossword) (d : Domains) (a : Assignment)
           (var : variable) (value : string) : Z :=
  Z.of_nat (List.length
              (filter (fun n => negb (dict_mem a n) && in_domain d value n)
                      (neighbors c var))).

(** The invariants of a valid assignment (spec, data model). *)
Record valid_assignment (c : Crossword) (a : Assignment) : Prop := {
  va_length : forall v w, dict_get a v = Some w -> String.length w = var_length v;
  va_distinct : forall v1 v2 w1 w2,
      v1 <> v2 -> dict_get a v1 = Some w1 -> dict_get a v2 = Some w2 -> w1 <> w2;
  va_overlap : forall x y i j wx wy,
      overlaps c x y = Some (i, j) ->
      dict_get a x = Some wx -> dict_get a y = Some wy -> agree i j wx wy
}.

(** One event applied to the assignment, with the operation the code uses for
    it, provided the event is a move on a stack of entries: an [Assign] must
    bind a key that is not yet bound (so that [update] adds one entry), an
    [Unassign] must name the key of the last entry, bound nowhere else (so
    that [pop] removes exactly that entry). *)
Definition apply_event (a : Assignment) (e : event) : option Assignment :=
  match e with
  | Enter => Some a
  | Assign var value =>
      if dict_mem a var then None else Some (dict_update a var value)
  | Unassign var =>
      match rev a with
      | (k, _) :: before =>
          if variable_eqb k var && negb (dict_mem (rev before) var)
          then Some (dict_pop a var) else None
      | [] => None
      end
  end.

Fixpoint replay (a : Assignment) (evs : list event) : option Assignment :=
  match evs with
  | [] => Some a
  | e :: rest =>
      match apply_event a e with
      | Some a1 => replay a1 rest
      | None => None
      end
  end.

(** What a call of the search on the assignment [a] guarantees. *)
Definition search_ok (c : Crossword) (d : Domains) (a : Assignment)
           (r : outcome search_result) : Prop :=
  match r with
  | Ret (found, a', evs) =>
      replay a evs = Some a'
      /\ incl (keys a') (keys a ++ keys d)
      /\ (found = false -> a' = a)
      /\ (found = true ->
          incl (keys a) (keys a')
          /\ assignment_complete d a' = true
          /\ (consistent c a = Ret true -> consistent c a' = Ret true))
  | _ => True
  end.

(** Number of Variables of the store that the assignment leaves out. *)
Definition unassigned (d : Domains) (a : Assignment) : nat :=
  List.length (filter (fun v => negb (dict_mem a v)) (keys d)).

(** The positions of an overlap are positions of the two slots (spec, data
    model). *)
Definition overlaps_in_range (c : Crossword) : Prop :=
  forall x y i j,
    overlaps c x y = Some (i, j) -> i < var_length x /\ j < var_length y.

(** The call returns a value: it neither raises nor runs out of fuel. *)
Definition returns {A : Type} (m : outcome A) : Prop := exists r, m = Ret r.

(** Every domain has fewer words than the 99999 that
    [select_unassigned_variable] starts from. *)
Definition small_domains (d : Domains) : Prop :=
  forall v s, dict_get d v = Some s -> (Z.of_nat (List.length s) < 99999)%Z.

(** Every assigned word has the length of its Variable. *)
Definition fits (a : Assignment) : Prop :=
  forall v w, dict_get a v = Some w -> String.length w = var_length v.

(** A solution of the crossword: every Variable has a word of the
    vocabulary, and the assignment is valid. *)
Definition crossword_solution (c : Crossword) (s : Assignment) : Prop :=
  (forall v, In v (variables c) ->
             exists w, dict_get s v = Some w /\ In w (words c))
  /\ valid_assignment c s.

(** [s] binds every key of [a] to the word [a] binds it to. *)
Definition extends (s a : Assignment) : Prop :=
  forall v w, dict_get a v = Some w -> dict_get s v = Some w.

(** The entries [ext] bind Variables that [a] leaves out to words of their
    domains. *)
Definition from_domains (d : Domains) (a ext : Assignment) : Prop :=
  forall v w, In (v, w) ext ->
              dict_mem a v = false
              /\ exists ws, dict_get d v = Some ws /\ In w ws.

(** What a successful call of the search on [a] returns: [a] with entries
    appended, for new keys and with words of the domains. *)
Definition search_grows (d : Domains) (a : Assignment)
           (r : outcome search_result) : Prop :=
  match r with
  | Ret (true, a', _) =>
      exists ext, a' = a ++ ext /\ from_domains d a ext
                  /\ (NoDup (keys a) -> NoDup (keys a'))
  | _ => True
  end.

(** [g[i][j]], [None] when a row or a column is missing. *)
Definition grid_get (g : grid) (i j : nat) : option (option ascii) :=
  match nth_error g i with
  | Some row => nth_error row j
  | None => None
  end.

Definition cell_eqb (p q : nat * nat) : bool :=
  (fst p =? fst q) && (snd p =? snd q).

(** The letters that the word of one Variable puts on the cell [(i, j)], for
    the indices [ks], in order. *)
Definition word_letters_at (var : variable) (word : string) (ks : list nat)
           (i j : nat) : list ascii :=
  flat_map (fun k =>
              if cell_eqb (cell var k) (i, j)
              then match String.get k word with Some ch => [ch] | None => [] end
              else []) ks.

(** The letters that the assignment puts on the cell [(i, j)], in the order
    of its entries. *)
Definition letters_at (a : Assignment) (i j : nat) : list ascii :=
  flat_map (fun kv =>
              word_letters_at (fst kv) (snd kv)
                              (seq 0 (String.length (snd kv))) i j) a.

(** What a cell holds after the letters [l] were written over [prev]. *)
Definition last_written (prev : option ascii) (l : list ascii) : option ascii :=
  fold_left (fun _ ch => Some ch) l prev.

(** A grid of [height] rows of [width] cells. *)
Definition shaped (height width : nat) (g : grid) : Prop :=
  List.length g = height /\ Forall (fun row => List.length row = width) g.

(** Every letter of every word has its cell inside the grid. *)
Definition inside (height width : nat) (a : Assignment) : Prop :=
  forall var word k,
    In (var, word) a -> k < String.length word ->
    fst (cell var k) < height /\ snd (cell var k) < width.

(** Two words that meet on a cell have the same letter there. *)
Definition agree_on_cells (a : Assignment) : Prop :=
  forall x wx y wy kx ky chx chy,
    In (x, wx) a -> In (y, wy) a ->
    String.get kx wx = Some chx -> String.get ky wy = Some chy ->
    cell x kx = cell y ky -> chx = chy.

(** The overlap table records every cell that two Variables of the crossword
    share (spec, data model): when letter [kx] of [x] and letter [ky] of [y]
    have the same cell, the overlap of [x] and [y] is [(kx, ky)]. *)
Definition records_shared_cells (c : Crossword) : Prop :=
  forall x y kx ky,
    In x (variables c) -> In y (variables c) -> x <> y ->
    kx < var_length x -> ky < var_length y ->
    cell x kx = cell y ky ->
    overlaps c x y = Some (kx, ky).

(* ------------------------------------------------------------------ *)
(** * Fixtures *)

(** A grid model given by a finite table of overlaps. *)
Definition overlap_table : Type := list (variable * variable * (nat * nat)).

Fixpoint table_get (t : overlap_table) (x y : variable) : option (nat * nat) :=
  match t with
  | [] => None
  | (x', y', ij) :: rest =>
      if variable_eqb x' x && variable_eqb y' y then Some ij
      else table_get rest x y
  end.

Definition crossword_of (vars : list variable) (ws : list string)
           (t : overlap_table) : Crossword :=
  mkCrossword vars ws (table_get t).

Definition pair_eqb (p q : option (nat * nat)) : bool :=
  match p, q with
  | Some (a, b), Some (a', b') => (a =? a') && (b =? b')
  | None, None => true
  | _, _ => false
  end.

(** The table relates distinct Variables only and holds every overlap in
    both directions. *)
Definition table_wf (t : overlap_table) : bool :=
  forallb (fun e =>
             match e with
             | (x, y, (i, j)) =>
                 negb (variable_eqb x y) && pair_eqb (table_get t y x) (Some (j, i))
             end) t.

(** Scenario A: two slots of length 3 that cross at the last letter of the
    first and the first letter of the second. *)
Definition slot_across : variable := mkVariable 0 0 ACROSS 3.
Definition slot_down : variable := mkVariable 0 2 DOWN 3.
Definition crossing : overlap_table :=
  [ (slot_across, slot_down, (2, 0)); (slot_down, slot_across, (0, 2)) ].
Definition scenario_A (ws : list string) : Crossword :=
  crossword_of [slot_across; slot_down] ws crossing.

(** Scenario B: one isolated slot of length 4. *)
Definition slot_four : variable := mkVariable 0 0 ACROSS 4.
Definition scenario_B (ws : list string) : Crossword :=
  crossword_of [slot_four] ws [].

(** One slot across, crossed by three slots down. *)
Definition top : variable := mkVariable 0 0 ACROSS 3.
Definition down0 : variable := mkVariable 0 0 DOWN 3.
Definition down1 : variable := mkVariable 0 1 DOWN 3.
Definition down2 : variable := mkVariable 0 2 DOWN 3.
Definition comb_table : overlap_table :=
  [ (top, down0, (0, 0)); (down0, top, (0, 0));
    (top, down1, (1, 0)); (down1, top, (0, 1));
    (top, down2, (2, 0)); (down2, top, (0, 2)) ].
Definition comb : Crossword :=
  crossword_of [top; down0; down1; down2]
               ["AAA"; "BBB"; "ABC"; "ADE"; "BCD"]%string comb_table.
Definition comb_domains : Domains :=
  [ (top, ["AAA"; "BBB"]%string);
    (down0, ["ABC"; "AAA"]%string);
    (down1, ["ADE"; "AAA"]%string);
    (down2, ["BBB"; "BCD"]%string) ].
Definition comb_assignment : Assignment :=
  [ (down0, "ABC"%string); (down1, "ADE"%string) ].

(** Two slots of length 3 that share their first cell. *)
Definition corner (ws : list string) : Crossword :=
  crossword_of [top; down0] ws [ (top, down0, (0, 0)); (down0, top, (0, 0)) ].

(** A vocabulary of 100000 words of length 5: all the words over ten
    letters. *)
Definition ten_letters : list ascii :=
  ["A"; "B"; "C"; "D"; "E"; "F"; "G"; "H"; "I"; "J"]%char.

Fixpoint all_words (n : nat) : list string :=
  match n with
  | O => [EmptyString]
  | S n' => flat_map (fun ch => map (String ch) (all_words n')) ten_letters
  end.

Definition slot_five : variable := mkVariable 0 0 ACROSS 5.
Definition big_vocabulary : Crossword :=
  crossword_of [slot_five] (all_words 5) [].

(** The positions in the table are positions of the two slots. *)
Definition table_in_range (t : overlap_table) : bool :=
  forallb (fun e =>
             match e with
             | (x, y, (i, j)) => (i <? var_length x) && (j <? var_length y)
             end) t.

(* ------------------------------------------------------------------ *)
(** * Basic facts *)

Lemma Direction_eqb_eq a b : Direction_eqb a b = true <-> a = b.
Proof. destruct a, b; simpl; split; intro H; congruence. Qed.

Lemma variable_eqb_eq x y : variable_eqb x y = true <-> x = y.
Proof.
  unfold variable_eqb. destruct x as [xi xj xd xl], y as [yi yj yd yl]; simpl.
  rewrite !andb_true_iff, !Nat.eqb_eq, Direction_eqb_eq.
  split.
  - intros [[[-> ->] ->] ->]. reflexivity.
  - intro H. injection H as -> -> -> ->. auto.
Qed.

Lemma variable_eqb_refl x : variable_eqb x x = true.
Proof. apply variable_eqb_eq. reflexivity. Qed.

Lemma variable_eqb_neq x y : variable_eqb x y = false <-> x <> y.
Proof.
  rewrite <- variable_eqb_eq. destruct (variable_eqb x y); split; congruence.
Qed.

Lemma variable_eq_dec (x y : variable) : {x = y} + {x <> y}.
Proof.
  destruct (variable_eqb x y) eqn:E.
  - left. apply variable_eqb_eq. exact E.
  - right. apply variable_eqb_neq. exact E.
Defined.

Ltac eqb_case x y :=
  let E := fresh "E" in
  destruct (variable_eqb x y) eqn:E;
  [apply variable_eqb_eq in E | apply variable_eqb_neq in E].

Lemma word_in_In w s : word_in w s = true <-> In w s.
Proof.
  unfold word_in. rewrite existsb_exists. split.
  - intros [v [Hv E]]. apply String.eqb_eq in E. subst. exact Hv.
  - intro H. exists w. split; [exact H | apply String.eqb_refl].
Qed.

Lemma fold_set_remove removelist s :
  fold_left (fun s' word => set_remove word s') removelist s
  = filter (fun w => negb (word_in w removelist)) s.
Proof.
  revert s. induction removelist as [|r rl IH]; intro s; simpl.
  - induction s as [|w s IHs]; simpl; [reflexivity | now rewrite <- IHs].
  - rewrite IH. unfold set_remove.
    induction s as [|w s IHs]; simpl; [reflexivity|].
    rewrite (String.eqb_sym w r).
    destruct (String.eqb r w); simpl.
    + exact IHs.
    + destruct (word_in w rl); simpl; [exact IHs | now rewrite IHs].
Qed.

Section DictFacts.
Context {V : Type}.
Implicit Types (d : dict V) (k x : variable).

Lemma dict_mem_In d k : dict_mem d k = true <-> In k (keys d).
Proof.
  unfold dict_mem. rewrite existsb_exists. split.
  - intros [k' [H E]]. apply variable_eqb_eq in E. now subst.
  - intro H. exists k. split; [exact H | apply variable_eqb_refl].
Qed.

Lemma dict_get_Some_In d k v : dict_get d k = Some v -> In k (keys d).
Proof.
  induction d as [|[k' v'] d IH]; simpl; [discriminate|].
  eqb_case k' k; [left; assumption | right; auto].
Qed.

Lemma dict_get_In d k : In k (keys d) -> exists v, dict_get d k = Some v.
Proof.
  induction d as [|[k' v'] d IH]; simpl; [contradiction|].
  intros [-> | H].
  - rewrite variable_eqb_refl. eauto.
  - destruct (variable_eqb k' k); eauto.
Qed.

Lemma dict_get_None d k : dict_get d k = None <-> ~ In k (keys d).
Proof.
  split.
  - intros H Hin. destruct (dict_get_In _ _ Hin) as [v Hv]. congruence.
  - intro H. destruct (dict_get d k) eqn:E; [|reflexivity].
    exfalso. eauto using dict_get_Some_In.
Qed.

Lemma dict_get_modify d x (f : V -> V) k :
  dict_get (dict_modify d x f) k
  = if variable_eqb k x then option_map f (dict_get d k) else dict_get d k.
Proof.
  induction d as [|[k' v'] d IH]; simpl.
  - now destruct (variable_eqb k x).
  - eqb_case k x.
    + subst k. destruct (variable_eqb k' x) eqn:E; simpl; rewrite E.
      * reflexivity.
      * exact IH.
    + destruct (variable_eqb k' x) eqn:E1; simpl.
      * apply variable_eqb_eq in E1. subst k'.
        assert (E2 : variable_eqb x k = false)
          by (apply variable_eqb_neq; congruence).
        rewrite E2. exact IH.
      * destruct (variable_eqb k' k); [reflexivity | exact IH].
Qed.

Lemma dict_modify_ext d x (f g : V -> V) :
  (forall v, f v = g v) -> dict_modify d x f = dict_modify d x g.
Proof.
  intro H. unfold dict_modify. apply map_ext. intros [k v]; simpl.
  now rewrite H.
Qed.

Lemma dict_modify_id d x : dict_modify d x (fun v => v) = d.
Proof.
  unfold dict_modify. rewrite <- (map_id d) at 2. apply map_ext.
  intros [k v]; simpl. now destruct (variable_eqb k x).
Qed.

Lemma dict_modify_modify d x (f g : V -> V) :
  dict_modify (dict_modify d x f) x g = dict_modify d x (fun v => g (f v)).
Proof.
  unfold dict_modify. rewrite map_map. apply map_ext. intros [k v]; simpl.
  destruct (variable_eqb k x) eqn:E; simpl; now rewrite E.
Qed.

Lemma keys_update_fresh d k (v : V) :
  dict_mem d k = false -> dict_update d k v = d ++ [(k, v)].
Proof.
  unfold dict_mem. induction d as [|[k' v'] d IH]; simpl; [reflexivity|].
  destruct (variable_eqb k' k); simpl; [discriminate|].
  intro H. now rewrite IH.
Qed.

Lemma dict_pop_update_fresh d k (v : V) :
  dict_mem d k = false -> dict_pop (dict_update d k v) k = d.
Proof.
  intro H. rewrite keys_update_fresh by exact H.
  unfold dict_pop. rewrite filter_app. simpl. rewrite variable_eqb_refl. simpl.
  rewrite app_nil_r. unfold dict_mem in H.
  induction d as [|[k' v'] d IH]; simpl in *; [reflexivity|].
  destruct (variable_eqb k' k); simpl in *; [discriminate|].
  now rewrite IH.
Qed.

End DictFacts.

(* ------------------------------------------------------------------ *)
(** * Facts about [revise] *)

Lemma has_support_Ret i j w ys b :
  has_support i j w ys = Ret b -> b = support_b i j w ys.
Proof.
  induction ys as [|v ys IH]; simpl.
  - intros [= <-]. reflexivity.
  - unfold agree_b.
    destruct (String.get i w) as [p|]; [|discriminate].
    destruct (String.get j v) as [q|]; [|discriminate].
    destruct (Ascii.eqb p q); simpl.
    + intros [= <-]. reflexivity.
    + exact IH.
Qed.

Lemma revise_scan_Ret i j xs ys rl rv rl' rv' :
  revise_scan i j xs ys rl rv = Ret (rl', rv') ->
  rl' = rl ++ unsupported i j ys xs
  /\ rv' = rv || negb (is_empty (unsupported i j ys xs))
  /\ Forall (fun w => has_support i j w ys = Ret (support_b i j w ys)) xs.
Proof.
  revert rl rv. induction xs as [|w xs IH]; intros rl rv; simpl.
  - intros [= <- <-]. rewrite app_nil_r, orb_false_r. auto.
  - destruct (has_support i j w ys) as [b| |] eqn:E; simpl; try discriminate.
    pose proof (has_support_Ret _ _ _ _ _ E) as Hb. subst b.
    unfold unsupported in *. simpl.
    destruct (support_b i j w ys) eqn:S; simpl; intro H; apply IH in H.
    + destruct H as (-> & -> & HF).
      repeat split; auto. constructor; [congruence | exact HF].
    + destruct H as (-> & -> & HF). rewrite <- app_assoc. simpl.
      rewrite orb_true_r.
      repeat split; auto. constructor; [congruence | exact HF].
Qed.

Lemma fold_dict_remove (d : Domains) x removelist :
  fold_left (fun d' word => dict_modify d' x (set_remove word)) removelist d
  = dict_modify d x (fun s => filter (fun w => negb (word_in w removelist)) s).
Proof.
  rewrite (dict_modify_ext d x _
             (fun s => fold_left (fun s' word => set_remove word s') removelist s))
    by (intro; symmetry; apply fold_set_remove).
  revert d. induction removelist as [|r rl IH]; intro d; simpl.
  - symmetry. apply dict_modify_id.
  - rewrite IH. apply dict_modify_modify.
Qed.

Lemma revise_Ret c d x y b d' :
  revise c d x y = Ret (b, d') ->
  match overlaps c x y with
  | None => b = false /\ d' = d
  | Some (i, j) =>
      exists xs ys,
        dict_get d x = Some xs /\ ywords_read d y xs = Some ys
        /\ Forall (fun w => has_support i j w ys = Ret (support_b i j w ys)) xs
        /\ b = negb (is_empty (unsupported i j ys xs))
        /\ d' = dict_modify d x
                  (fun s => filter (fun w => negb (word_in w (unsupported i j ys xs))) s)
  end.
Proof.
  unfold revise. destruct (overlaps c x y) as [[i j]|].
  - destruct (dict_get d x) as [xs|] eqn:Ex; [|discriminate].
    fold (ywords_read d y xs).
    destruct (ywords_read d y xs) as [ys|] eqn:Ey; [|discriminate].
    destruct (revise_scan i j xs ys [] false) as [[rl rv]| |] eqn:Es;
      simpl; try discriminate.
    intros [= <- <-].
    apply revise_scan_Ret in Es. destruct Es as (-> & -> & HF). simpl.
    exists xs, ys. repeat split; auto. apply fold_dict_remove.
  - intros [= <- <-]. auto.
Qed.

Lemma revise_scan_total i j xs ys rl rv :
  Forall (fun w => has_support i j w ys = Ret (support_b i j w ys)) xs ->
  revise_scan i j xs ys rl rv
  = Ret (rl ++ unsupported i j ys xs,
         rv || negb (is_empty (unsupported i j ys xs))).
Proof.
  intro HF. revert rl rv.
  induction HF as [|w xs Hw HF IH]; intros rl rv; simpl.
  - now rewrite app_nil_r, orb_false_r.
  - rewrite Hw. unfold unsupported in *. simpl.
    destruct (support_b i j w ys); simpl.
    + apply IH.
    + rewrite IH, <- app_assoc, orb_true_r. reflexivity.
Qed.

Lemma revise_total c d x y i j xs ys :
  overlaps c x y = Some (i, j) ->
  dict_get d x = Some xs ->
  ywords_read d y xs = Some ys ->
  Forall (fun w => has_support i j w ys = Ret (support_b i j w ys)) xs ->
  revise c d x y
  = Ret (negb (is_empty (unsupported i j ys xs)),
         dict_modify d x
           (fun s => filter (fun w => negb (word_in w (unsupported i j ys xs))) s)).
Proof.
  intros Ho Hx Hy HF. unfold revise. rewrite Ho, Hx.
  fold (ywords_read d y xs). rewrite Hy.
  rewrite (revise_scan_total _ _ _ _ _ _ HF). simpl.
  now rewrite fold_dict_remove.
Qed.

Lemma string_get_Some i s :
  i < String.length s -> exists a, String.get i s = Some a.
Proof.
  revert i. induction s as [|a s IH]; intros i H; simpl in *; [lia|].
  destruct i as [|i]; [eauto|]. apply IH. lia.
Qed.

Lemma has_support_in_range i j w ys :
  i < String.length w ->
  Forall (fun v => j < String.length v) ys ->
  has_support i j w ys = Ret (support_b i j w ys).
Proof.
  intros Hi HF. induction HF as [|v ys Hv HF IH]; simpl; [reflexivity|].
  unfold agree_b.
  destruct (string_get_Some _ _ Hi) as [p ->].
  destruct (string_get_Some _ _ Hv) as [q ->].
  destruct (Ascii.eqb p q); simpl; [reflexivity | exact IH].
Qed.

(** Filtering out the unsupported words keeps the supported ones. *)
Lemma filter_not_unsupported i j ys xs :
  filter (fun w => negb (word_in w (unsupported i j ys xs))) xs
  = filter (fun w => support_b i j w ys) xs.
Proof.
  apply filter_ext_in. intros w Hw.
  destruct (support_b i j w ys) eqn:S.
  - destruct (word_in w (unsupported i j ys xs)) eqn:W; [|reflexivity].
    apply word_in_In in W. apply filter_In in W. destruct W as [_ W].
    rewrite S in W. discriminate.
  - assert (W : word_in w (unsupported i j ys xs) = true).
    { apply word_in_In. apply filter_In. split; [exact Hw | now rewrite S]. }
    now rewrite W.
Qed.

Lemma is_empty_unsupported i j ys xs :
  negb (is_empty (unsupported i j ys xs))
  = negb (forallb (fun w => support_b i j w ys) xs).
Proof.
  unfold unsupported. induction xs as [|w xs IH]; simpl; [reflexivity|].
  destruct (support_b i j w ys); simpl; [exact IH | reflexivity].
Qed.

Lemma agree_b_agree i j w v : agree_b i j w v = true <-> agree i j w v.
Proof.
  unfold agree_b, agree. split.
  - destruct (String.get i w) as [p|]; [|discriminate].
    destruct (String.get j v) as [q|]; [|discriminate].
    intro E. apply Ascii.eqb_eq in E. subst. eauto.
  - intros [ch [-> ->]]. apply Ascii.eqb_refl.
Qed.

Lemma agree_b_swap i j w v : agree_b i j w v = agree_b j i v w.
Proof.
  unfold agree_b.
  destruct (String.get i w), (String.get j v); try reflexivity.
  apply Ascii.eqb_sym.
Qed.

Lemma support_b_spec i j w ys :
  support_b i j w ys = true <-> exists v, In v ys /\ agree i j w v.
Proof.
  unfold support_b. rewrite existsb_exists.
  split; intros [v [H1 H2]]; exists v; split; auto; now apply agree_b_agree.
Qed.

(* ------------------------------------------------------------------ *)
(** * The length invariant of the domain store *)

Lemma shrinks_refl d : shrinks d d.
Proof.
  induction d as [|kv d IH]; constructor; auto.
  split; [reflexivity | split; [apply incl_refl | apply Nat.le_refl]].
Qed.

Lemma shrinks_trans d1 d2 d3 : shrinks d1 d2 -> shrinks d2 d3 -> shrinks d1 d3.
Proof.
  intro H. revert d3.
  induction H as [|a b l1 l2 (Hk & Hi & Hn) H IH]; intros d3 H3.
  - inversion H3. constructor.
  - inversion H3 as [|b' c' l2' l3 (Hk' & Hi' & Hn') H3']; subst. constructor.
    + split; [congruence|]. split; [eapply incl_tran; eassumption | lia].
    + apply IH. exact H3'.
Qed.

Lemma shrinks_keys d' d : shrinks d' d -> keys d' = keys d.
Proof.
  induction 1 as [|a b l1 l2 (Hk & _) _ IH]; simpl; [reflexivity | congruence].
Qed.

Lemma shrinks_length_ok d' d : shrinks d' d -> length_ok d -> length_ok d'.
Proof.
  unfold length_ok. induction 1 as [|a b l1 l2 (Hk & Hi & _) _ IH]; intro H.
  - constructor.
  - inversion H as [|? ? Hb Hl]; subst. constructor; auto.
    rewrite Forall_forall in *. intros w Hw. rewrite Hk. auto.
Qed.

Lemma shrinks_modify_filter d x (p : string -> bool) :
  shrinks (dict_modify d x (fun s => filter p s)) d.
Proof.
  induction d as [|[k s] d IH]; simpl; constructor; auto.
  destruct (variable_eqb k x); simpl; repeat split;
    auto using incl_refl, incl_filter, filter_length_le.
Qed.

Lemma enforce_node_consistency_length_ok d :
  length_ok (enforce_node_consistency d).
Proof.
  unfold length_ok, enforce_node_consistency. rewrite Forall_map.
  apply Forall_forall. intros [var s] _. simpl.
  rewrite fold_set_remove. apply Forall_forall. intros w Hw.
  apply filter_In in Hw. destruct Hw as [Hin Hw].
  destruct (Nat.eq_dec (var_length var) (String.length w)) as [E|E]; [auto|].
  exfalso. apply negb_true_iff in Hw.
  assert (In w (wrong_length var s)).
  { apply filter_In. split; [exact Hin|]. apply negb_true_iff.
    now apply Nat.eqb_neq. }
  apply word_in_In in H. congruence.
Qed.

Lemma enforce_node_consistency_shrinks d :
  shrinks (enforce_node_consistency d) d.
Proof.
  unfold enforce_node_consistency.
  induction d as [|[k s] d IH]; simpl; constructor; auto.
  simpl. rewrite fold_set_remove.
  repeat split; auto using incl_filter, filter_length_le.
Qed.

Lemma revise_shrinks c d x y b d' :
  revise c d x y = Ret (b, d') -> shrinks d' d.
Proof.
  intro H. apply revise_Ret in H. destruct (overlaps c x y) as [[i j]|].
  - destruct H as (xs & ys & _ & _ & _ & _ & ->). apply shrinks_modify_filter.
  - destruct H as [_ ->]. apply shrinks_refl.
Qed.

Lemma ac3_loop_shrinks c fuel arcs d b d' :
  ac3_loop c fuel arcs d = Ret (b, d') -> shrinks d' d.
Proof.
  revert arcs d. induction fuel as [|fuel IH]; intros arcs d;
    destruct arcs as [|[x y] rest]; simpl;
    try (intros [= <- <-]; apply shrinks_refl); try discriminate.
  destruct (revise c d x y) as [[revised d1]| |] eqn:R; simpl; try discriminate.
  apply revise_shrinks in R.
  destruct revised.
  - destruct (dict_get d1 x) as [[|w s]|]; try discriminate.
    + intros [= <- <-]. exact R.
    + intro H. apply IH in H. eapply shrinks_trans; eassumption.
  - intro H. apply IH in H. eapply shrinks_trans; eassumption.
Qed.

Lemma ac3_shrinks c d arcs b d' :
  ac3 c d arcs = Ret (b, d') -> shrinks d' d.
Proof. unfold ac3. apply ac3_loop_shrinks. Qed.

(* ------------------------------------------------------------------ *)
(** * [ac3] terminates *)

Lemma filter_all_true {A : Type} (l : list A) : filter (fun _ => true) l = l.
Proof. induction l as [|a l IH]; simpl; congruence. Qed.

Lemma revise_unrevised c d x y d' : revise c d x y = Ret (false, d') -> d' = d.
Proof.
  intro H. apply revise_Ret in H. destruct (overlaps c x y) as [[i j]|].
  - destruct H as (xs & ys & _ & _ & _ & Hb & ->).
    destruct (unsupported i j ys xs); [|discriminate]. simpl.
    rewrite (dict_modify_ext d x _ (fun s => s)) by apply filter_all_true.
    apply dict_modify_id.
  - now destruct H.
Qed.

Lemma filter_length_lt {A : Type} (p : A -> bool) (l : list A) (a : A) :
  In a l -> p a = false -> List.length (filter p l) < List.length l.
Proof.
  induction l as [|b l IH]; simpl; [contradiction|].
  intros [-> | Hin] Hp.
  - rewrite Hp. pose proof (filter_length_le p l). lia.
  - specialize (IH Hin Hp). destruct (p b); simpl; lia.
Qed.

Lemma total_size_modify_le (d : Domains) x (p : string -> bool) :
  total_size (dict_modify d x (fun s => filter p s)) <= total_size d.
Proof.
  induction d as [|[k s] d IH]; simpl; [lia|].
  destruct (variable_eqb k x); simpl; [|lia].
  pose proof (filter_length_le p s). lia.
Qed.

Lemma total_size_modify_lt (d : Domains) x (p : string -> bool) xs w :
  dict_get d x = Some xs -> In w xs -> p w = false ->
  total_size (dict_modify d x (fun s => filter p s)) < total_size d.
Proof.
  induction d as [|[k s] d IH]; simpl; [discriminate|].
  destruct (variable_eqb k x); simpl.
  - intros [= ->] Hin Hp.
    pose proof (filter_length_lt p xs w Hin Hp).
    pose proof (total_size_modify_le d x p). fold Domains in *. lia.
  - intros Hg Hin Hp. specialize (IH Hg Hin Hp). lia.
Qed.

Lemma revise_revised_size c d x y d' :
  revise c d x y = Ret (true, d') -> total_size d' < total_size d.
Proof.
  intro H. apply revise_Ret in H. destruct (overlaps c x y) as [[i j]|].
  - destruct H as (xs & ys & Hx & _ & _ & Hb & ->).
    destruct (unsupported i j ys xs) as [|w bad] eqn:U; [discriminate|].
    assert (Hw : In w xs).
    { assert (In w (unsupported i j ys xs)) by (rewrite U; now left).
      apply filter_In in H. tauto. }
    apply (total_size_modify_lt d x _ xs w Hx Hw).
    apply negb_false_iff, word_in_In. now left.
  - destruct H. discriminate.
Qed.

Lemma has_support_fuel_free i j w ys : has_support i j w ys <> OutOfFuel.
Proof.
  induction ys as [|v ys IH]; simpl; [discriminate|].
  destruct (String.get i w); [|discriminate].
  destruct (String.get j v) as [q|]; [|discriminate].
  destruct (Ascii.eqb a q); [discriminate | exact IH].
Qed.

Lemma revise_scan_fuel_free i j xs ys rl rv :
  revise_scan i j xs ys rl rv <> OutOfFuel.
Proof.
  revert rl rv. induction xs as [|w xs IH]; intros rl rv; simpl; [discriminate|].
  destruct (has_support i j w ys) as [[|]| |] eqn:E; simpl;
    try apply IH; try discriminate.
  now apply has_support_fuel_free in E.
Qed.

Lemma revise_fuel_free c d x y : revise c d x y <> OutOfFuel.
Proof.
  unfold revise. destruct (overlaps c x y) as [[i j]|]; [|discriminate].
  destruct (dict_get d x) as [xs|]; [|discriminate].
  destruct (match xs with [] => Some [] | _ => dict_get d y end) as [ys|];
    [|discriminate].
  destruct (revise_scan i j xs ys [] false) as [[rl rv]| |] eqn:E; simpl;
    try discriminate.
  now apply revise_scan_fuel_free in E.
Qed.

Lemma neighbors_length c x : List.length (neighbors c x) <= List.length (variables c).
Proof. unfold neighbors. apply filter_length_le. Qed.

Lemma push_arcs_length c x y q :
  List.length (push_arcs c x y q) <= List.length (neighbors c x) + List.length q.
Proof.
  unfold push_arcs. generalize (neighbors c x) as ns. intro ns. revert q.
  induction ns as [|z ns IH]; intro q; simpl; [lia|].
  destruct (negb (variable_eqb z y)); simpl.
  - specialize (IH ((z, x) :: q)). simpl in IH. lia.
  - specialize (IH q). lia.
Qed.

Lemma ac3_loop_terminates c fuel arcs d :
  ac3_fuel c d arcs <= fuel -> ac3_loop c fuel arcs d <> OutOfFuel.
Proof.
  unfold ac3_fuel. revert arcs d.
  induction fuel as [|fuel IH]; intros arcs d Hf;
    destruct arcs as [|[x y] rest]; try (simpl; discriminate).
  - cbn [List.length] in Hf. lia.
  - cbn [List.length] in Hf. cbn [ac3_loop].
    destruct (revise c d x y) as [[revised d1]| |] eqn:R; simpl; try discriminate.
    destruct revised.
    + apply revise_revised_size in R.
      destruct (dict_get d1 x) as [[|w s]|]; try discriminate.
      apply IH.
      pose proof (push_arcs_length c x y rest).
      pose proof (neighbors_length c x). nia.
    + apply revise_unrevised in R. subst d1. apply IH. lia.
    + now apply revise_fuel_free in R.
Qed.

Lemma ac3_terminates c d arcs : ac3 c d arcs <> OutOfFuel.
Proof. unfold ac3. apply ac3_loop_terminates. apply Nat.le_refl. Qed.

(* ------------------------------------------------------------------ *)
(** * [ac3] loses no solution *)

Lemma has_support_false i j w ys :
  has_support i j w ys = Ret false ->
  forall v, In v ys -> String.get i w <> String.get j v.
Proof.
  induction ys as [|v0 ys IH]; simpl; [contradiction|].
  destruct (String.get i w) as [p|] eqn:Ep; [|discriminate].
  destruct (String.get j v0) as [q|] eqn:Eq; [|discriminate].
  destruct (Ascii.eqb p q) eqn:E; [discriminate|].
  intros H v [<- | Hin].
  - rewrite Eq. intros [= ->]. rewrite Ascii.eqb_refl in E. discriminate.
  - now apply IH.
Qed.

Lemma revise_solution c d x y b d' a :
  revise c d x y = Ret (b, d') -> solution c d a -> solution c d' a.
Proof.
  intros H [Hdom Hov]. pose proof (revise_shrinks _ _ _ _ _ _ H) as Hs.
  apply revise_Ret in H. destruct (overlaps c x y) as [[i j]|] eqn:Ho.
  - destruct H as (xs & ys & Hx & Hy & HF & _ & ->). split.
    + intros z s. rewrite dict_get_modify. eqb_case z x.
      * subst z. rewrite Hx. simpl. intros [= <-].
        destruct (Hdom _ _ Hx) as (w & Hw & Hin). exists w. split; [exact Hw|].
        apply filter_In. split; [exact Hin|].
        apply negb_true_iff. destruct (word_in w (unsupported i j ys xs)) eqn:W;
          [|reflexivity].
        exfalso. apply word_in_In, filter_In in W. destruct W as [_ W].
        apply negb_true_iff in W.
        rewrite Forall_forall in HF. specialize (HF _ Hin). rewrite W in HF.
        destruct xs as [|x0 xs0]; [contradiction|]. simpl in Hy.
        destruct (Hdom _ _ Hy) as (v & Hv & Hvin).
        apply (has_support_false _ _ _ _ HF v Hvin).
        apply (Hov x y); eauto using dict_get_Some_In.
      * apply Hdom.
    + rewrite (shrinks_keys _ _ Hs). exact Hov.
  - destruct H as [_ ->]. now split.
Qed.

Lemma ac3_loop_sound c fuel arcs d b d' a :
  ac3_loop c fuel arcs d = Ret (b, d') -> solution c d a ->
  b = true /\ solution c d' a.
Proof.
  revert arcs d. induction fuel as [|fuel IH]; intros arcs d;
    destruct arcs as [|[x y] rest]; simpl;
    try (intros [= <- <-]; now auto); try discriminate.
  destruct (revise c d x y) as [[revised d1]| |] eqn:R; simpl; try discriminate.
  intros H Hsol. pose proof (revise_solution _ _ _ _ _ _ _ R Hsol) as Hsol1.
  destruct revised.
  - destruct (dict_get d1 x) as [[|w s]|] eqn:G; try discriminate.
    + exfalso. destruct Hsol1 as [Hdom _].
      destruct (Hdom _ _ G) as (w & _ & []).
    + eapply IH; eassumption.
  - eapply IH; eassumption.
Qed.

Lemma ac3_sound c d arcs d' a :
  ac3 c d arcs = Ret (false, d') -> ~ solution c d a.
Proof.
  unfold ac3. intros H Hsol.
  destruct (ac3_loop_sound _ _ _ _ _ _ _ H Hsol) as [E _]. discriminate.
Qed.

(* ------------------------------------------------------------------ *)
(** * The fixed point of [ac3] *)

Lemma unsupported_nil i j ys xs :
  Forall (fun w => has_support i j w ys = Ret true) xs ->
  unsupported i j ys xs = [].
Proof.
  unfold unsupported. induction 1 as [|w xs Hw _ IH]; simpl; [reflexivity|].
  apply has_support_Ret in Hw. now rewrite <- Hw.
Qed.

Lemma arc_ok_revise c d x y : arc_ok c d x y -> revise c d x y = Ret (false, d).
Proof.
  unfold arc_ok. destruct (overlaps c x y) as [[i j]|] eqn:Ho.
  - intros (xs & ys & Hx & Hy & HF).
    assert (HF' : Forall (fun w => has_support i j w ys = Ret (support_b i j w ys)) xs).
    { eapply Forall_impl; [|exact HF]. simpl. intros w Hw.
      rewrite Hw. f_equal. now apply has_support_Ret. }
    rewrite (revise_total _ _ _ _ _ _ _ _ Ho Hx Hy HF').
    rewrite (unsupported_nil _ _ _ _ HF). simpl.
    rewrite (dict_modify_ext d x _ (fun s => s)) by apply filter_all_true.
    now rewrite dict_modify_id.
  - intros _. unfold revise. now rewrite Ho.
Qed.

Lemma revise_arc_ok c d x y d' : revise c d x y = Ret (false, d') -> arc_ok c d x y.
Proof.
  intro H. apply revise_Ret in H. unfold arc_ok.
  destruct (overlaps c x y) as [[i j]|]; [|exact I].
  destruct H as (xs & ys & Hx & Hy & HF & Hb & _).
  exists xs, ys. repeat split; auto.
  symmetry in Hb. apply negb_false_iff in Hb. unfold unsupported in Hb.
  rewrite Forall_forall in *. intros w Hw. rewrite (HF w Hw). f_equal.
  destruct (support_b i j w ys) eqn:S; [reflexivity|].
  assert (Hin : In w (filter (fun w => negb (support_b i j w ys)) xs))
    by (apply filter_In; split; [exact Hw | now rewrite S]).
  destruct (filter (fun w0 => negb (support_b i j w0 ys)) xs);
    [contradiction | discriminate].
Qed.

(** A run of the loop over consistent arcs changes nothing. *)
Lemma ac3_loop_fixed c fuel arcs d :
  Forall (fun a => arc_ok c d (fst a) (snd a)) arcs ->
  List.length arcs <= fuel ->
  ac3_loop c fuel arcs d = Ret (true, d).
Proof.
  intro HF. revert fuel. induction HF as [|[x y] rest Hxy _ IH]; intros fuel Hl.
  - destruct fuel; reflexivity.
  - destruct fuel as [|fuel]; simpl in Hl; [lia|]. simpl in Hxy |- *.
    rewrite (arc_ok_revise _ _ _ _ Hxy). simpl. apply IH. lia.
Qed.

Lemma in_neighbors c x y :
  In y (neighbors c x)
  <-> In y (variables c) /\ y <> x /\ overlaps c y x <> None.
Proof.
  unfold neighbors. rewrite filter_In, andb_true_iff, negb_true_iff.
  rewrite variable_eqb_neq. unfold is_some.
  destruct (overlaps c y x); intuition congruence.
Qed.

Lemma in_all_arcs c d x y :
  In (x, y) (all_arcs c d)
  <-> In x (keys d) /\ In y (neighbors c x) /\ x <> y.
Proof.
  unfold all_arcs. rewrite in_flat_map. split.
  - intros (v & Hv & H). apply in_map_iff in H.
    destruct H as (n & [= -> ->] & Hn). apply filter_In in Hn.
    destruct Hn as [Hn Hne]. apply negb_true_iff, variable_eqb_neq in Hne. auto.
  - intros (Hx & Hy & Hne). exists x. split; [exact Hx|].
    apply in_map. apply filter_In. split; [exact Hy|].
    now apply negb_true_iff, variable_eqb_neq.
Qed.

Lemma fold_push_incl (x y : variable) ns (q : list arc) :
  incl q (fold_left (fun q' z => if negb (variable_eqb z y) then (z, x) :: q' else q')
                    ns q).
Proof.
  revert q. induction ns as [|z ns IH]; intro q; simpl; [apply incl_refl|].
  destruct (negb (variable_eqb z y)).
  - eapply incl_tran; [|apply IH]. apply incl_tl, incl_refl.
  - apply IH.
Qed.

Lemma push_arcs_incl c x y q : incl q (push_arcs c x y q).
Proof. apply fold_push_incl. Qed.

Lemma fold_push_new (x y : variable) ns (q : list arc) z :
  In z ns -> z <> y ->
  In (z, x) (fold_left (fun q' z => if negb (variable_eqb z y) then (z, x) :: q' else q')
                       ns q).
Proof.
  revert q. induction ns as [|z' ns IH]; intros q; simpl; [contradiction|].
  intros [-> | Hin] Hne.
  - assert (E : variable_eqb z y = false) by now apply variable_eqb_neq.
    rewrite E. simpl. apply fold_push_incl. now left.
  - now apply IH.
Qed.

Lemma push_arcs_new c x y q z :
  In z (neighbors c x) -> z <> y -> In (z, x) (push_arcs c x y q).
Proof. apply fold_push_new. Qed.

Lemma has_support_filter i j v xs (keep : string -> bool) :
  has_support i j v xs = Ret true ->
  (forall w, In w xs -> agree_b i j v w = true -> keep w = true) ->
  has_support i j v (filter keep xs) = Ret true.
Proof.
  induction xs as [|w xs IH]; simpl; [discriminate|].
  intros H Hk.
  destruct (String.get i v) as [p|] eqn:Ep; [|discriminate].
  destruct (String.get j w) as [q|] eqn:Eq; [|discriminate].
  destruct (Ascii.eqb p q) eqn:E.
  - assert (K : keep w = true).
    { apply Hk; [now left|]. unfold agree_b. now rewrite Ep, Eq. }
    rewrite K. simpl. now rewrite Ep, Eq, E.
  - assert (IH' : has_support i j v (filter keep xs) = Ret true)
      by (apply IH; auto).
    destruct (keep w); simpl; [|exact IH'].
    now rewrite Ep, Eq, E.
Qed.

Lemma arc_ok_same c d d1 a b :
  dict_get d1 a = dict_get d a -> dict_get d1 b = dict_get d b ->
  arc_ok c d a b -> arc_ok c d1 a b.
Proof.
  unfold arc_ok, ywords_read. intros Ha Hb.
  destruct (overlaps c a b) as [[i j]|]; [|auto].
  intros (xs & ys & Hx & Hy & HF). exists xs, ys.
  rewrite Ha. repeat split; auto. destruct xs; congruence.
Qed.

Lemma all_arcs_keys c d d1 : keys d1 = keys d -> all_arcs c d1 = all_arcs c d.
Proof. unfold all_arcs. now intros ->. Qed.

Section Ac3FixedPoint.
Variable c : Crossword.
Hypothesis Hwf : WfCrossword c.

(** What one revision that removed a word keeps of the loop invariant:
    every arc is on the stack or consistent. *)
Lemma revised_step d x y d1 rest :
  incl (keys d) (variables c) ->
  revise c d x y = Ret (true, d1) ->
  forall a b,
    In (a, b) (all_arcs c d) ->
    In (a, b) ((x, y) :: rest) \/ arc_ok c d a b ->
    In (a, b) (push_arcs c x y rest) \/ arc_ok c d1 a b.
Proof.
  intros Hk R a b Hab Hinv.
  apply revise_Ret in R.
  destruct (overlaps c x y) as [[i j]|] eqn:Ho; [|destruct R; discriminate].
  destruct R as (xs & ys & Hx & Hy & HF & _ & ->).
  assert (Hxy : x <> y).
  { intros ->. rewrite (overlaps_irrefl c Hwf) in Ho. discriminate. }
  set (d1 := dict_modify d x
               (fun s => filter (fun w => negb (word_in w (unsupported i j ys xs))) s)).
  assert (G1 : dict_get d1 x = Some (filter (fun w => support_b i j w ys) xs)).
  { unfold d1. rewrite dict_get_modify, variable_eqb_refl, Hx. simpl.
    now rewrite filter_not_unsupported. }
  assert (G2 : forall z, z <> x -> dict_get d1 z = dict_get d z).
  { intros z Hz. unfold d1. rewrite dict_get_modify.
    apply variable_eqb_neq in Hz. now rewrite Hz. }
  assert (Hxok : arc_ok c d1 x y).
  { unfold arc_ok. rewrite Ho. eexists.
    exists (match filter (fun w => support_b i j w ys) xs with
            | [] => [] | _ => ys end).
    split; [exact G1|]. split.
    - unfold ywords_read in *. rewrite G2 by congruence.
      destruct xs as [|w0 xs0]; [reflexivity|].
      now destruct (filter _ (w0 :: xs0)).
    - apply Forall_forall. intros w Hw.
      destruct (filter (fun w => support_b i j w ys) xs) eqn:F;
        [contradiction|].
      rewrite <- F in Hw. apply filter_In in Hw.
      destruct Hw as [Hw S]. rewrite Forall_forall in HF.
      rewrite (HF w Hw). now rewrite S. }
  destruct Hinv as [[E | Hin] | Hok].
  - injection E as <- <-. now right.
  - left. now apply push_arcs_incl.
  - apply in_all_arcs in Hab. destruct Hab as (Ha & Hb & Hne).
    apply in_neighbors in Hb. destruct Hb as (Hbv & _ & Hov).
    destruct (variable_eq_dec b x) as [-> | Hbx].
    + destruct (variable_eq_dec a y) as [-> | Hay].
      * (* the arc (y, x): its supports are words that y supports *)
        right. pose proof (overlaps_sym c Hwf _ _ _ _ Ho) as Ho'.
        unfold arc_ok in Hok |- *. rewrite Ho' in *.
        destruct Hok as (ysd & xsr & Hy' & Hx' & HF').
        rewrite (G2 y) by congruence.
        destruct ysd as [|v0 ysd0].
        { exists [], []. repeat split; auto. }
        exists (v0 :: ysd0), (filter (fun w => support_b i j w ys) xs).
        split; [exact Hy'|].
        split; [simpl; exact G1|].
        simpl in Hx'. rewrite Hx in Hx'. injection Hx' as <-.
        apply Forall_forall. intros v Hv.
        rewrite Forall_forall in HF'.
        apply has_support_filter; [now apply HF'|].
        intros w Hw Hag. apply existsb_exists. exists v.
        destruct xs as [|w0 xs0]; [contradiction|]. simpl in Hy.
        rewrite Hy' in Hy. injection Hy as <-.
        split; [exact Hv|]. now rewrite agree_b_swap.
      * left. apply push_arcs_new; [|exact Hay].
        apply in_neighbors. repeat split; auto.
        destruct (overlaps c x a) as [[p q]|] eqn:Hxa; [|congruence].
        rewrite (overlaps_sym c Hwf _ _ _ _ Hxa). discriminate.
    + right. destruct (variable_eq_dec a x) as [-> | Hax].
      * unfold arc_ok in Hok |- *.
        destruct (overlaps c x b) as [[p q]|]; [|exact I].
        destruct Hok as (xs' & ys' & Hx' & Hy' & HF').
        rewrite Hx in Hx'. injection Hx' as <-.
        eexists. exists (match filter (fun w => support_b i j w ys) xs with
                         | [] => [] | _ => ys' end).
        split; [exact G1|]. split.
        -- unfold ywords_read in *. rewrite G2 by exact Hbx.
           destruct xs as [|w0 xs0]; [reflexivity|].
           now destruct (filter _ (w0 :: xs0)).
        -- apply Forall_forall. intros w Hw.
           destruct (filter (fun w => support_b i j w ys) xs) eqn:F;
             [contradiction|].
           rewrite <- F in Hw. apply filter_In in Hw.
           rewrite Forall_forall in HF'. apply HF'. tauto.
      * apply (arc_ok_same c d); auto.
Qed.

Lemma ac3_loop_arc_consistent fuel q d d' :
  incl (keys d) (variables c) ->
  ac3_loop c fuel q d = Ret (true, d') ->
  (forall a b, In (a, b) (all_arcs c d) -> In (a, b) q \/ arc_ok c d a b) ->
  forall a b, In (a, b) (all_arcs c d) -> arc_ok c d' a b.
Proof.
  revert q d. induction fuel as [|fuel IH]; intros q d Hk;
    destruct q as [|[x y] rest]; simpl; try discriminate.
  - intros [= <-] Hinv a b Hab. destruct (Hinv a b Hab) as [[]|]; auto.
  - intros [= <-] Hinv a b Hab. destruct (Hinv a b Hab) as [[]|]; auto.
  - destruct (revise c d x y) as [[revised d1]| |] eqn:R; simpl;
      try discriminate.
    pose proof (shrinks_keys _ _ (revise_shrinks _ _ _ _ _ _ R)) as Hkeys.
    destruct revised.
    + destruct (dict_get d1 x) as [[|w s]|]; try discriminate.
      intros H Hinv a b Hab.
      rewrite <- (all_arcs_keys c d d1 Hkeys) in Hab.
      apply (IH _ _ ltac:(now rewrite Hkeys) H); [|exact Hab].
      intros a' b' Hab'. rewrite (all_arcs_keys c d d1 Hkeys) in Hab'.
      eapply revised_step; eauto.
    + pose proof (revise_arc_ok _ _ _ _ _ R) as Hxy.
      apply revise_unrevised in R. subst d1.
      intros H Hinv. apply (IH _ _ Hk H).
      intros a b Hab. destruct (Hinv a b Hab) as [[E | Hin] | Hok]; auto.
      injection E as <- <-. now right.
Qed.

Lemma ac3_idempotent d d' :
  incl (keys d) (variables c) ->
  ac3 c d None = Ret (true, d') ->
  ac3 c d' None = Ret (true, d').
Proof.
  intros Hk H.
  pose proof (shrinks_keys _ _ (ac3_shrinks _ _ _ _ _ H)) as Hkeys.
  unfold ac3 in *.
  rewrite (all_arcs_keys c d d' Hkeys).
  apply ac3_loop_fixed.
  - apply Forall_forall. intros [a b] Hab. simpl. apply in_rev in Hab.
    eapply ac3_loop_arc_consistent; eauto.
    intros a' b' Hab'. left. now apply in_rev in Hab'.
  - unfold ac3_fuel. apply Nat.le_add_l.
Qed.
End Ac3FixedPoint.

(* ------------------------------------------------------------------ *)
(** * Facts about [select_unassigned_variable] *)

Lemma fold_count {A : Type} (l : list A) (z : Z) :
  fold_left (fun n _ => (n + 1)%Z) l z = (z + Z.of_nat (List.length l))%Z.
Proof.
  revert z. induction l as [|x l IH]; intro z; simpl List.length; simpl fold_left.
  - lia.
  - rewrite IH. lia.
Qed.

Lemma count_values_length s : count_values s = Z.of_nat (List.length s).
Proof. unfold count_values. rewrite fold_count. lia. Qed.

Lemma degree_Selected c v : degree c (Selected v) = Ret (degree_of c v).
Proof. unfold degree, degree_of. rewrite fold_count. f_equal. Qed.

Lemma entry_ok_seen d a seen seen' c0 e :
  incl seen seen' -> entry_ok d a seen c0 e -> entry_ok d a seen' c0 e.
Proof.
  unfold entry_ok. intros Hi [H1 H2]. split; [exact H1|].
  destruct (fst e); intuition.
Qed.

Lemma mrv_inv_skip d a seen mv var :
  dict_mem a var = true -> mrv_inv d a seen mv -> mrv_inv d a (seen ++ [var]) mv.
Proof.
  intros Hm (H1 & H2 & H3). split; [|split]; auto.
  - intros e He. eapply entry_ok_seen; [|apply H1, He].
    apply incl_appl, incl_refl.
  - intros u Hu Hun.
    apply in_app_or in Hu as [Hu | [<- | []]]; [now apply H2 | congruence].
Qed.

Lemma mrv_inv_step d a seen mv var s :
  dict_mem a var = false -> dict_get d var = Some s ->
  mrv_inv d a seen mv ->
  let count := count_values s in
  mrv_inv d a (seen ++ [var])
    (if (count <? snd (fst mv))%Z then ((Selected var, count), [])
     else if (count =? snd (fst mv))%Z
          then (fst mv, snd mv ++ [(Selected var, count)])
          else mv).
Proof.
  intros Hm Hg (H1 & H2 & H3) count.
  assert (Hc : dom_size d var = count).
  { unfold dom_size, count. now rewrite Hg, count_values_length. }
  assert (Hseen : incl seen (seen ++ [var])) by apply incl_appl, incl_refl.
  assert (Hvar : In var (seen ++ [var])) by (apply in_or_app; right; now left).
  destruct (Z.ltb_spec count (snd (fst mv))) as [Hlt | Hge].
  - split; [|split]; simpl.
    + intros e [<- | []]. split; simpl; auto.
    + intros u Hu Hun. apply in_app_or in Hu as [Hu | [<- | []]].
      * destruct (H2 u Hu Hun). split; lia.
      * split; [lia | auto].
    + lia.
  - destruct (Z.eqb_spec count (snd (fst mv))) as [Heq | Hne].
    + split; [|split]; simpl fst; simpl snd.
      * intros e [<- | He].
        -- eapply entry_ok_seen; [exact Hseen|]. apply H1. now left.
        -- apply in_app_or in He as [He | [<- | []]].
           ++ eapply entry_ok_seen; [exact Hseen|]. apply H1. now right.
           ++ split; simpl; auto. repeat split; auto. lia.
      * intros u Hu Hun. apply in_app_or in Hu as [Hu | [<- | []]].
        -- destruct (H2 u Hu Hun) as [Hle Hin]. split; [exact Hle|].
           intro E. specialize (Hin E).
           simpl in Hin |- *. destruct Hin as [Hin | Hin]; [now left|].
           right. rewrite map_app. apply in_or_app. now left.
        -- split; [lia|]. intros _.
           simpl. right. rewrite map_app. apply in_or_app. right. now left.
      * exact H3.
    + split; [|split].
      * intros e He. eapply entry_ok_seen; [exact Hseen|]. now apply H1.
      * intros u Hu Hun. apply in_app_or in Hu as [Hu | [<- | []]].
        -- now apply H2.
        -- split; [lia|]. intro E. lia.
      * exact H3.
Qed.

Lemma select_scan_inv d a todo seen mv :
  incl todo (keys d) -> mrv_inv d a seen mv ->
  exists mv', select_scan d a todo mv = Ret mv'
              /\ mrv_inv d a (seen ++ todo) mv'.
Proof.
  revert seen mv. induction todo as [|var rest IH]; intros seen mv Hk Hinv.
  - exists mv. rewrite app_nil_r. now split.
  - assert (Hrest : incl rest (keys d)) by (intros z Hz; apply Hk; now right).
    replace (seen ++ var :: rest) with ((seen ++ [var]) ++ rest)
      by (rewrite <- app_assoc; reflexivity).
    simpl. destruct (dict_mem a var) eqn:Hm.
    + apply IH; [exact Hrest|]. now apply mrv_inv_skip.
    + destruct (dict_get_In d var (Hk var (or_introl eq_refl))) as [s Hs].
      rewrite Hs.
      pose proof (mrv_inv_step d a seen mv var s Hm Hs Hinv) as Hstep.
      cbv zeta in Hstep.
      destruct (count_values s <? snd (fst mv))%Z;
        [|destruct (count_values s =? snd (fst mv))%Z];
        apply IH; auto.
Qed.

Lemma mrv_inv_init d a :
  mrv_inv d a [] ((Placeholder 99999, 99999%Z), []).
Proof.
  split; [|split]; simpl; try lia; try contradiction.
  intros e [<- | []]. split; simpl; auto.
Qed.

Lemma degree_scan_sel c todo best best' :
  degree_scan c todo best = Ret best' ->
  fst best' = fst best \/ In (fst best') todo.
Proof.
  revert best. induction todo as [|s rest IH]; intros best; simpl.
  - intros [= <-]. now left.
  - destruct (degree c s) as [n| |]; simpl; try discriminate.
    destruct (n >? snd best)%Z; intro H; apply IH in H; simpl in H;
      destruct H as [H | H]; auto.
Qed.

Lemma degree_scan_max c vs best :
  exists best',
    degree_scan c (map Selected vs) best = Ret best'
    /\ (snd best <= snd best')%Z
    /\ (forall u, In u vs -> (degree_of c u <= snd best')%Z)
    /\ (best' = best
        \/ exists v, In v vs /\ best' = (Selected v, degree_of c v)).
Proof.
  revert best. induction vs as [|v vs IH]; intro best; cbn [map degree_scan].
  - exists best. repeat split; auto; try lia; contradiction.
  - rewrite degree_Selected. cbn [bind].
    destruct (Z.gtb_spec (degree_of c v) (snd best)) as [Hgt | Hle].
    + destruct (IH (Selected v, degree_of c v)) as (b' & E & H1 & H2 & H3).
      simpl in H1. exists b'. split; [exact E|]. split; [lia|]. split.
      * intros u [<- | Hu]; [exact H1 | now apply H2].
      * right. destruct H3 as [-> | (v' & Hv' & ->)].
        -- exists v. split; [now left | reflexivity].
        -- exists v'. split; [now right | reflexivity].
    + destruct (IH best) as (b' & E & H1 & H2 & H3).
      exists b'. split; [exact E|]. split; [exact H1|]. split.
      * intros u [<- | Hu]; [lia | now apply H2].
      * destruct H3 as [-> | (v' & Hv' & ->)]; [now left|].
        right. exists v'. split; [now right | reflexivity].
Qed.

Lemma all_Selected (l : list selection) :
  (forall s, In s l -> exists v, s = Selected v) ->
  exists vs, l = map Selected vs.
Proof.
  induction l as [|s l IH]; intro H.
  - now exists [].
  - destruct (H s (or_introl eq_refl)) as [v ->].
    destruct IH as [vs ->]; [intros; apply H; now right|].
    now exists (v :: vs).
Qed.

Lemma select_scan_assigned d a todo mv :
  (forall v, In v todo -> dict_mem a v = true) ->
  select_scan d a todo mv = Ret mv.
Proof.
  induction todo as [|v rest IH]; intro H; simpl; [reflexivity|].
  rewrite (H v (or_introl eq_refl)). apply IH. intros; apply H; now right.
Qed.

(** A Variable that is returned is a key of the store and unassigned. *)
Lemma select_Selected c d a v :
  select_unassigned_variable c d a = Ret (Selected v) ->
  In v (keys d) /\ dict_mem a v = false.
Proof.
  unfold select_unassigned_variable.
  destruct (select_scan_inv d a (keys d) [] _ (incl_refl _) (mrv_inv_init d a))
    as (mv & -> & H1 & _ & _).
  simpl app in H1. cbn [bind].
  assert (Hin : In (Selected v) (map fst (fst mv :: snd mv)) ->
                In v (keys d) /\ dict_mem a v = false).
  { intro Hin. apply in_map_iff in Hin. destruct Hin as (e & Ee & He).
    destruct (H1 e He) as [_ Hok]. rewrite Ee in Hok. tauto. }
  destruct (snd mv) as [|e more] eqn:Em.
  - intros [= E]. apply Hin. left. exact E.
  - destruct (degree_scan c (map fst (fst mv :: e :: more)) (fst (fst mv), 0%Z))
      as [best| |] eqn:D; simpl; try discriminate.
    intros [= E]. apply degree_scan_sel in D. rewrite E in D. simpl in D.
    apply Hin. simpl. destruct D as [D | [D | D]]; auto.
Qed.

(** Minimum remaining values, then maximum degree: what the function does
    as long as some unassigned Variable has fewer than 99999 words. *)
Lemma select_mrv_degree c d a u :
  In u (keys d) -> dict_mem a u = false -> (dom_size d u < 99999)%Z ->
  exists v,
    select_unassigned_variable c d a = Ret (Selected v)
    /\ In v (keys d) /\ dict_mem a v = false
    /\ (forall u', In u' (keys d) -> dict_mem a u' = false ->
                   (dom_size d v <= dom_size d u')%Z)
    /\ (forall u', In u' (keys d) -> dict_mem a u' = false ->
                   dom_size d u' = dom_size d v ->
                   (degree_of c u' <= degree_of c v)%Z).
Proof.
  intros Hu Hun Hsz.
  unfold select_unassigned_variable.
  destruct (select_scan_inv d a (keys d) [] _ (incl_refl _) (mrv_inv_init d a))
    as (mv & -> & H1 & H2 & _).
  simpl app in H1, H2. cbn [bind].
  set (c0 := snd (fst mv)) in *.
  assert (Hc0 : (c0 < 99999)%Z) by (destruct (H2 u Hu Hun); lia).
  assert (Hsel : forall s, In s (map fst (fst mv :: snd mv)) ->
                 exists v, s = Selected v /\ In v (keys d)
                           /\ dict_mem a v = false /\ dom_size d v = c0).
  { intros s Hs. apply in_map_iff in Hs. destruct Hs as (e & <- & He).
    destruct (H1 e He) as [_ Hok]. destruct (fst e) as [v|n].
    - exists v. tauto.
    - lia. }
  destruct (all_Selected (map fst (fst mv :: snd mv))) as [vs Hvs].
  { intros s Hs. destruct (Hsel s Hs) as (v & -> & _). eauto. }
  assert (Hvs_in : forall v, In v vs ->
                   In v (keys d) /\ dict_mem a v = false /\ dom_size d v = c0).
  { intros v Hv. destruct (Hsel (Selected v)) as (v' & [= <-] & H).
    - rewrite Hvs. now apply in_map.
    - exact H. }
  assert (Htied : forall u', In u' (keys d) -> dict_mem a u' = false ->
                  dom_size d u' = c0 -> In u' vs).
  { intros u' Hu' Hun' E. destruct (H2 u' Hu' Hun') as [_ Hin].
    specialize (Hin E). rewrite Hvs in Hin. apply in_map_iff in Hin.
    destruct Hin as (v' & [= ->] & Hv'). exact Hv'. }
  destruct vs as [|v0 vs']; [discriminate|].
  simpl in Hvs. injection Hvs as Hv0 Hmore.
  destruct (snd mv) as [|e more] eqn:Em.
  - exists v0. rewrite Hv0. split; [reflexivity|].
    destruct (Hvs_in v0 (or_introl eq_refl)) as (K1 & K2 & K3).
    repeat split; auto.
    + intros u' Hu' Hun'. rewrite K3. now apply H2.
    + intros u' Hu' Hun' E. rewrite K3 in E.
      destruct vs'; [|discriminate].
      destruct (Htied u' Hu' Hun' E) as [<- | []]. lia.
  - destruct (degree_scan_max c (v0 :: vs') (Selected v0, 0%Z))
      as (best & D & _ & Hmax & Hbest).
    change (map fst (fst mv :: e :: more)) with (fst (fst mv) :: map fst (e :: more)).
    rewrite Hv0, Hmore.
    change (Selected v0 :: map Selected vs') with (map Selected (v0 :: vs')).
    rewrite D. cbn [bind].
    assert (Hres : exists v, fst best = Selected v /\ In v (v0 :: vs')
                             /\ forall u', In u' (v0 :: vs') ->
                                           (degree_of c u' <= degree_of c v)%Z).
    { destruct Hbest as [-> | (v & Hv & ->)].
      - exists v0. repeat split; [now left|].
        intros u' Hu'. specialize (Hmax u' Hu'). simpl in Hmax.
        unfold degree_of in *. lia.
      - exists v. repeat split; auto. }
    destruct Hres as (v & -> & Hv & Hdeg). exists v.
    destruct (Hvs_in v Hv) as (K1 & K2 & K3).
    repeat split; auto.
    + intros u' Hu' Hun'. rewrite K3. now apply H2.
    + intros u' Hu' Hun' E. rewrite K3 in E. apply Hdeg. now apply Htied.
Qed.

(** With every Variable assigned the first entry of [minvalues] is never
    replaced. *)
Lemma select_complete c d a :
  assignment_complete d a = true ->
  select_unassigned_variable c d a = Ret (Placeholder 99999).
Proof.
  unfold assignment_complete, select_unassigned_variable. intro H.
  rewrite forallb_forall in H.
  now rewrite (select_scan_assigned d a (keys d) _ H).
Qed.

(* ------------------------------------------------------------------ *)
(** * Facts about [order_domain_values] *)

Lemma word_is_key_false value a : word_is_key value a = false.
Proof. unfold word_is_key. induction (keys a); simpl; auto. Qed.

Lemma count_neighbors_Ret d value ns counter :
  incl ns (keys d) ->
  count_neighbors d value ns counter
  = Ret (counter + Z.of_nat (List.length (filter (in_domain d value) ns)))%Z.
Proof.
  revert counter. induction ns as [|n ns IH]; intros counter Hk; simpl.
  - f_equal. lia.
  - destruct (dict_get_In d n (Hk n (or_introl eq_refl))) as [s Hs].
    unfold in_domain at 1. rewrite Hs.
    rewrite IH by (intros z Hz; apply Hk; now right).
    f_equal. destruct (word_in value s); simpl List.length; lia.
Qed.

Lemma lcv_scan_Ret c d var a values counter reslist :
  incl (neighbors c var) (keys d) ->
  lcv_scan c d var a values counter reslist
  = Ret (reslist ++ map (fun value => (value, lcv_score c d var value)) values).
Proof.
  intro Hk. revert counter reslist.
  induction values as [|value rest IH]; intros counter reslist; simpl.
  - now rewrite app_nil_r.
  - rewrite word_is_key_false. simpl.
    rewrite (count_neighbors_Ret d value _ 0%Z Hk). simpl.
    rewrite IH, <- app_assoc. reflexivity.
Qed.

Lemma insert_by_perm {A : Type} (key : A -> Z) x l :
  Permutation (insert_by key x l) (x :: l).
Proof.
  induction l as [|y l IH]; simpl; [reflexivity|].
  destruct (key x <=? key y)%Z; [reflexivity|].
  rewrite IH. apply perm_swap.
Qed.

Lemma sorted_perm {A : Type} (key : A -> Z) l : Permutation (sorted key l) l.
Proof.
  induction l as [|x l IH]; simpl; [reflexivity|].
  rewrite insert_by_perm. now constructor.
Qed.

Lemma insert_by_sorted {A : Type} (key : A -> Z) x l :
  StronglySorted (fun p q => (key p <= key q)%Z) l ->
  StronglySorted (fun p q => (key p <= key q)%Z) (insert_by key x l).
Proof.
  induction 1 as [|y l Hs IH Hy]; simpl.
  - repeat constructor.
  - destruct (Z.leb_spec (key x) (key y)) as [Hle | Hgt].
    + constructor; [now constructor|].
      constructor; [exact Hle|].
      eapply Forall_impl; [|exact Hy]. simpl. intros; lia.
    + constructor; [exact IH|].
      rewrite (Forall_forall). intros z Hz.
      apply (Permutation_in _ (insert_by_perm key x l)) in Hz.
      destruct Hz as [<- | Hz]; [lia|].
      rewrite Forall_forall in Hy. now apply Hy.
Qed.

Lemma sorted_sorted {A : Type} (key : A -> Z) l :
  StronglySorted (fun p q => (key p <= key q)%Z) (sorted key l).
Proof.
  induction l as [|x l IH]; simpl; [constructor | now apply insert_by_sorted].
Qed.

(** The sort is stable: the elements with a given key keep their order. *)
Lemma insert_by_stable {A : Type} (key : A -> Z) (k : Z) x l :
  filter (fun y => (key y =? k)%Z) (insert_by key x l)
  = filter (fun y => (key y =? k)%Z) (x :: l).
Proof.
  induction l as [|y l IH]; [reflexivity|].
  cbn [insert_by]. destruct (Z.leb_spec (key x) (key y)) as [Hle | Hgt];
    [reflexivity|].
  cbn [filter] in *. rewrite IH.
  destruct (Z.eqb_spec (key x) k), (Z.eqb_spec (key y) k); try reflexivity.
  lia.
Qed.

Lemma sorted_stable {A : Type} (key : A -> Z) (k : Z) l :
  filter (fun y => (key y =? k)%Z) (sorted key l)
  = filter (fun y => (key y =? k)%Z) l.
Proof.
  induction l as [|x l IH]; [reflexivity|].
  cbn [sorted fold_right]. fold (sorted key l).
  rewrite insert_by_stable. cbn [filter]. now rewrite IH.
Qed.

Lemma StronglySorted_map_fst {A : Type} (f : A -> Z) (l : list (A * Z)) :
  (forall e, In e l -> snd e = f (fst e)) ->
  StronglySorted (fun p q => (snd p <= snd q)%Z) l ->
  StronglySorted (fun v w => (f v <= f w)%Z) (map fst l).
Proof.
  intros Hf H. induction H as [|e l Hs IH He]; simpl; constructor.
  - apply IH. intros; apply Hf; now right.
  - rewrite Forall_map. rewrite Forall_forall in *. intros e' He'.
    specialize (He e' He').
    rewrite <- (Hf e (or_introl eq_refl)), <- (Hf e' (or_intror He')). exact He.
Qed.

Lemma order_domain_values_Ret c d var a values :
  dict_get d var = Some values ->
  incl (neighbors c var) (keys d) ->
  order_domain_values c d var a
  = Ret (map fst (sorted snd
                    (map (fun value => (value, lcv_score c d var value)) values))).
Proof.
  intros Hv Hk. unfold order_domain_values. rewrite Hv.
  now rewrite (lcv_scan_Ret c d var a values None [] Hk).
Qed.

(* ------------------------------------------------------------------ *)
(** * Facts about [consistent] *)

Lemma check_neighbors_true c a var word ns :
  check_neighbors c a var word ns = Ret true ->
  forall n nword, In n ns -> dict_get a n = Some nword ->
    exists i j, overlaps c var n = Some (i, j) /\ agree i j word nword.
Proof.
  induction ns as [|n0 ns IH]; simpl; [contradiction|].
  intros H n nword [<- | Hin] Hn.
  - rewrite Hn in H. destruct (overlaps c var n0) as [[i j]|]; [|discriminate].
    exists i, j. split; [reflexivity|]. apply agree_b_agree. unfold agree_b.
    destruct (String.get i word) as [p|]; [|discriminate].
    destruct (String.get j nword) as [q|]; [|discriminate].
    destruct (Ascii.eqb p q); [reflexivity | discriminate].
  - apply IH; auto.
    destruct (dict_get a n0) as [nw0|]; [|exact H].
    destruct (overlaps c var n0) as [[i j]|]; [|discriminate].
    destruct (String.get i word) as [p|]; [|discriminate].
    destruct (String.get j nw0) as [q|]; [|discriminate].
    destruct (Ascii.eqb p q); [exact H | discriminate].
Qed.

(** What a [True] of the loop says about each key it visited. *)
Lemma consistent_scan_true c a todo seen :
  consistent_scan c a todo seen = Ret true ->
  forall v, In v todo ->
    exists w, dict_get a v = Some w
              /\ String.length w = var_length v
              /\ ~ In w seen
              /\ check_neighbors c a v w (neighbors c v) = Ret true.
Proof.
  revert seen. induction todo as [|v0 rest IH]; intros seen; simpl;
    [contradiction|].
  destruct (dict_get a v0) as [w0|] eqn:G; [|discriminate].
  destruct (negb (var_length v0 =? String.length w0) || word_in w0 seen) eqn:B;
    [discriminate|].
  apply orb_false_iff in B. destruct B as [B1 B2].
  apply negb_false_iff, Nat.eqb_eq in B1.
  destruct (check_neighbors c a v0 w0 (neighbors c v0)) as [[|]| |] eqn:K;
    simpl; try discriminate.
  intros H v [<- | Hin].
  - exists w0. repeat split; auto.
    intro Hs. apply word_in_In in Hs. congruence.
  - destruct (IH _ H v Hin) as (w & Hw & Hl & Hs & Hc).
    exists w. repeat split; auto.
    intro Hs'. apply Hs. apply in_or_app. now left.
Qed.

Lemma consistent_scan_distinct c a todo seen :
  consistent_scan c a todo seen = Ret true ->
  forall v1 v2 w1 w2,
    In v1 todo -> In v2 todo -> v1 <> v2 ->
    dict_get a v1 = Some w1 -> dict_get a v2 = Some w2 -> w1 <> w2.
Proof.
  revert seen. induction todo as [|v0 rest IH]; intros seen; simpl;
    [contradiction|].
  destruct (dict_get a v0) as [w0|] eqn:G; [|discriminate].
  destruct (negb (var_length v0 =? String.length w0) || word_in w0 seen);
    [discriminate|].
  destruct (check_neighbors c a v0 w0 (neighbors c v0)) as [[|]| |];
    simpl; try discriminate.
  intros H v1 v2 w1 w2 H1 H2 Hne G1 G2.
  assert (Hlater : forall v w, In v rest -> dict_get a v = Some w -> w <> w0).
  { intros v w Hv Gv ->.
    destruct (consistent_scan_true _ _ _ _ H v Hv) as (w' & Gw' & _ & Hs & _).
    rewrite Gv in Gw'. injection Gw' as <-.
    apply Hs. apply in_or_app. right. now left. }
  destruct H1 as [<- | H1], H2 as [<- | H2].
  - congruence.
  - rewrite G in G1. injection G1 as <-. intro E. symmetry in E.
    revert E. now apply (Hlater v2).
  - rewrite G in G2. injection G2 as <-. now apply (Hlater v1).
  - now apply (IH _ H v1 v2).
Qed.

Lemma consistent_valid c a :
  WfCrossword c -> incl (keys a) (variables c) ->
  consistent c a = Ret true -> valid_assignment c a.
Proof.
  intros Hwf Hk H. unfold consistent in H. split.
  - intros v w G.
    destruct (consistent_scan_true _ _ _ _ H v (dict_get_Some_In _ _ _ G))
      as (w' & G' & Hl & _). congruence.
  - intros v1 v2 w1 w2 Hne G1 G2.
    apply (consistent_scan_distinct _ _ _ _ H v1 v2 w1 w2); auto.
    + apply (dict_get_Some_In _ _ _ G1).
    + apply (dict_get_Some_In _ _ _ G2).
  - intros x y i j wx wy Ho Gx Gy.
    destruct (consistent_scan_true _ _ _ _ H x (dict_get_Some_In _ _ _ Gx))
      as (w' & G' & _ & _ & Hc).
    rewrite Gx in G'. injection G' as <-.
    assert (Hn : In y (neighbors c x)).
    { apply in_neighbors. repeat split.
      - apply Hk. eauto using dict_get_Some_In.
      - intros ->. rewrite (overlaps_irrefl c Hwf) in Ho. discriminate.
      - rewrite (overlaps_sym c Hwf _ _ _ _ Ho). discriminate. }
    destruct (check_neighbors_true _ _ _ _ _ Hc y wy Hn Gy) as (i' & j' & Ho' & Ha).
    rewrite Ho in Ho'. injection Ho' as <- <-. exact Ha.
Qed.

(* ------------------------------------------------------------------ *)
(** * Facts about [backtrack] *)

Lemma replay_app a evs1 evs2 a1 :
  replay a evs1 = Some a1 -> replay a (evs1 ++ evs2) = replay a1 evs2.
Proof.
  revert a. induction evs1 as [|e evs1 IH]; intro a; simpl.
  - now intros [= ->].
  - destruct (apply_event a e); [apply IH | discriminate].
Qed.

Lemma apply_Assign a var value :
  dict_mem a var = false ->
  apply_event a (Assign var value) = Some (a ++ [(var, value)]).
Proof.
  intro H. simpl. rewrite H. now rewrite keys_update_fresh.
Qed.

Lemma apply_Unassign a var value :
  dict_mem a var = false ->
  apply_event (a ++ [(var, value)]) (Unassign var) = Some a.
Proof.
  intro H. simpl. rewrite rev_app_distr. simpl.
  rewrite variable_eqb_refl, rev_involutive, H. simpl.
  rewrite <- (keys_update_fresh a var value H).
  now rewrite dict_pop_update_fresh.
Qed.

(** An event that applies changes the assignment by one entry at its end. *)
Lemma apply_event_one_entry s e s' :
  apply_event s e = Some s' ->
  match e with
  | Enter => s' = s
  | Assign var value => dict_mem s var = false /\ s' = s ++ [(var, value)]
  | Unassign var =>
      exists value, dict_mem s' var = false /\ s = s' ++ [(var, value)]
  end.
Proof.
  destruct e as [|var value|var]; simpl.
  - now intros [= <-].
  - destruct (dict_mem s var) eqn:M; [discriminate|].
    intros [= <-]. split; [reflexivity|]. now apply keys_update_fresh.
  - destruct (rev s) as [|[k v] before] eqn:R; [discriminate|].
    destruct (variable_eqb k var) eqn:E; [|discriminate].
    destruct (dict_mem (rev before) var) eqn:M; [discriminate|].
    apply variable_eqb_eq in E. subst k.
    assert (Hs : s = rev before ++ [(var, v)]).
    { rewrite <- (rev_involutive s), R. reflexivity. }
    simpl. intros [= <-]. exists v. rewrite Hs.
    rewrite <- (keys_update_fresh (rev before) var v M).
    rewrite dict_pop_update_fresh by exact M.
    split; [exact M | now apply keys_update_fresh].
Qed.

Lemma dict_mem_app {V : Type} (a b : dict V) k :
  dict_mem (a ++ b) k = dict_mem a k || dict_mem b k.
Proof. unfold dict_mem, keys. now rewrite map_app, existsb_app. Qed.

Section Search.
Variable c : Crossword.
Variable d : Domains.

Lemma try_values_ok rec var values a :
  (forall a1, search_ok c d a1 (rec a1)) ->
  In var (keys d) -> dict_mem a var = false ->
  search_ok c d a (try_values c rec var values a).
Proof.
  intros Hrec Hvar Hfresh.
  induction values as [|value rest IH]; cbn [try_values].
  - simpl. repeat split; auto using incl_appl, incl_refl; discriminate.
  - rewrite (keys_update_fresh a var value Hfresh).
    remember (a ++ [(var, value)]) as a1 eqn:Ea1.
    assert (Hmem1 : dict_mem a1 var = true).
    { subst a1. rewrite dict_mem_app. simpl. unfold dict_mem at 2. simpl.
      rewrite variable_eqb_refl. apply orb_true_r. }
    assert (Hpop : dict_pop a1 var = a).
    { subst a1. rewrite <- (keys_update_fresh a var value Hfresh).
      now apply dict_pop_update_fresh. }
    assert (Hk1 : incl (keys a1) (keys a ++ keys d)).
    { subst a1. unfold keys. rewrite map_app. simpl.
      intros k Hk. apply in_app_or in Hk as [Hk | [<- | []]];
        apply in_or_app; auto. }
    (* the candidate is given up: the entry is popped, the loop goes on *)
    assert (Hnext : forall evs,
               replay a1 evs = Some a1 ->
               search_ok c d a
                 (' (r, a3, evs') <- try_values c rec var rest (dict_pop a1 var) ;;
                  Ret (r, a3, Assign var value :: evs ++ Unassign var :: evs'))).
    { intros evs Hre. rewrite Hpop.
      destruct (try_values c rec var rest a) as [[[r a3] evs']| |];
        cbn [bind search_ok]; auto.
      destruct IH as (I1 & I2 & I3 & I4).
      cbn [replay]. rewrite (apply_Assign a var value Hfresh), <- Ea1.
      rewrite (replay_app _ _ _ _ Hre). cbn [replay].
      rewrite Ea1 at 1. rewrite (apply_Unassign a var value Hfresh). auto. }
    destruct (consistent c a1) as [ok| |] eqn:Hc; cbn [bind]; try exact I.
    destruct ok.
    + specialize (Hrec a1).
      destruct (rec a1) as [[[found a2] evs]| |]; cbn [bind]; try exact I.
      destruct Hrec as (R1 & R2 & R3 & R4).
      destruct found.
      * destruct (R4 eq_refl) as (K1 & K2 & K3).
        assert (Hne : is_empty a2 = false).
        { destruct a2; [|reflexivity].
          apply dict_mem_In in Hmem1. destruct (K1 _ Hmem1). }
        rewrite Hne. cbn [andb negb search_ok replay].
        rewrite (apply_Assign a var value Hfresh), <- Ea1.
        repeat split; auto; try discriminate.
        -- intros k Hk. specialize (R2 k Hk).
           apply in_app_or in R2 as [R2 | R2]; [now apply Hk1|].
           apply in_or_app. now right.
        -- intros k Hk. apply K1. subst a1. unfold keys. rewrite map_app.
           apply in_or_app. now left.
      * cbn [andb]. rewrite (R3 eq_refl) in *. rewrite Hmem1.
        apply Hnext. exact R1.
    + cbn [bind]. rewrite Hmem1. apply (Hnext []). reflexivity.
Qed.

Lemma backtrack_ok fuel a : search_ok c d a (backtrack c d fuel a).
Proof.
  revert a. induction fuel as [|fuel IH]; intro a; cbn [backtrack]; [exact I|].
  destruct (assignment_complete d a) eqn:Hcomp.
  - simpl. repeat split; auto using incl_appl, incl_refl; discriminate.
  - destruct (select_unassigned_variable c d a) as [[var|n]| |] eqn:Hsel;
      simpl; auto.
    apply select_Selected in Hsel. destruct Hsel as [Hvar Hfresh].
    destruct (order_domain_values c d var a) as [values| |]; simpl; auto.
    pose proof (try_values_ok (backtrack c d fuel) var values a IH Hvar Hfresh)
      as Hok.
    destruct (try_values c (backtrack c d fuel) var values a)
      as [[[r a'] evs]| |]; simpl; auto.
Qed.
End Search.

(* ------------------------------------------------------------------ *)
(** * Facts about [solve] *)

Lemma keys_init_domains c : keys (init_domains c) = variables c.
Proof.
  unfold keys, init_domains. rewrite map_map. simpl. apply map_id.
Qed.

Lemma solve_domains_keys c b d' :
  ac3 c (enforce_node_consistency (init_domains c)) None = Ret (b, d') ->
  keys d' = variables c.
Proof.
  intro H. rewrite (shrinks_keys _ _ (ac3_shrinks _ _ _ _ _ H)).
  rewrite (shrinks_keys _ _ (enforce_node_consistency_shrinks _)).
  apply keys_init_domains.
Qed.

Lemma ac3_loop_false c fuel arcs d d' :
  ac3_loop c fuel arcs d = Ret (false, d') ->
  exists x, dict_get d' x = Some [].
Proof.
  revert arcs d. induction fuel as [|fuel IH]; intros arcs d;
    destruct arcs as [|[x y] rest]; simpl; try discriminate.
  destruct (revise c d x y) as [[revised d1]| |]; simpl; try discriminate.
  destruct revised; [|apply IH].
  destruct (dict_get d1 x) as [[|w s]|] eqn:G; try discriminate; [|apply IH].
  intros [= <-]. eauto.
Qed.

Lemma shrinks_empty d' d x :
  shrinks d' d -> dict_get d x = Some [] -> dict_get d' x = Some [].
Proof.
  induction 1 as [|[k1 s1] [k2 s2] l1 l2 (Hk & Hi & _) _ IH]; simpl in *;
    [discriminate|].
  subst k2. destruct (variable_eqb k1 x); [|exact IH].
  intros [= ->]. f_equal. destruct s1 as [|w s1]; [reflexivity|].
  destruct (Hi w (or_introl eq_refl)).
Qed.

(** The search on a store with an empty domain: one call, no candidate. *)
Lemma backtrack_empty_domain c d fuel x :
  dict_get d x = Some [] ->
  backtrack c d (S fuel) [] = Ret (false, [], [Enter]).
Proof.
  intro Hx. cbn [backtrack].
  pose proof (dict_get_Some_In _ _ _ Hx) as Hin.
  assert (Hc : assignment_complete d [] = false).
  { unfold assignment_complete. destruct (forallb _ (keys d)) eqn:F; [|reflexivity].
    rewrite forallb_forall in F. specialize (F x Hin). discriminate. }
  rewrite Hc.
  destruct (select_mrv_degree c d [] x Hin eq_refl) as (v & -> & Hv & _ & Hmin & _).
  { unfold dom_size. rewrite Hx. simpl. lia. }
  cbn [bind].
  specialize (Hmin x Hin eq_refl). unfold dom_size in Hmin. rewrite Hx in Hmin.
  destruct (dict_get_In d v Hv) as [s Hs]. rewrite Hs in Hmin.
  destruct s as [|w s]; [|simpl in Hmin; lia].
  unfold order_domain_values. rewrite Hs. reflexivity.
Qed.

(* ------------------------------------------------------------------ *)
(** * [backtrack] and [solve] terminate *)

Lemma check_neighbors_fuel_free c a var word ns :
  check_neighbors c a var word ns <> OutOfFuel.
Proof.
  induction ns as [|n ns IH]; simpl; [discriminate|].
  destruct (dict_get a n) as [nword|]; [|exact IH].
  destruct (overlaps c var n) as [[i j]|]; [|discriminate].
  destruct (String.get i word); [|discriminate].
  destruct (String.get j nword) as [q|]; [|discriminate].
  destruct (Ascii.eqb a0 q); [exact IH | discriminate].
Qed.

Lemma consistent_fuel_free c a : consistent c a <> OutOfFuel.
Proof.
  unfold consistent. generalize (@nil string) as seen.
  induction (keys a) as [|var rest IH]; intro seen; simpl; [discriminate|].
  destruct (dict_get a var) as [word|]; [|discriminate].
  destruct (negb (var_length var =? String.length word) || word_in word seen);
    [discriminate|].
  destruct (check_neighbors c a var word (neighbors c var)) as [[|]| |] eqn:K;
    simpl; try discriminate; [apply IH|].
  now apply check_neighbors_fuel_free in K.
Qed.

Lemma select_scan_fuel_free d a todo mv : select_scan d a todo mv <> OutOfFuel.
Proof.
  revert mv. induction todo as [|var rest IH]; intro mv; simpl; [discriminate|].
  destruct (dict_mem a var); [apply IH|].
  destruct (dict_get d var) as [s|]; [|discriminate].
  destruct (count_values s <? snd (fst mv))%Z; [apply IH|].
  destruct (count_values s =? snd (fst mv))%Z; apply IH.
Qed.

Lemma degree_scan_fuel_free c todo best : degree_scan c todo best <> OutOfFuel.
Proof.
  revert best. induction todo as [|s rest IH]; intro best; simpl; [discriminate|].
  destruct s as [v|n]; simpl; [|discriminate].
  destruct (_ >? snd best)%Z; apply IH.
Qed.

Lemma select_fuel_free c d a : select_unassigned_variable c d a <> OutOfFuel.
Proof.
  unfold select_unassigned_variable.
  destruct (select_scan d a (keys d) _) as [mv| |] eqn:E; cbn [bind].
  - destruct (snd mv) as [|e more]; [discriminate|].
    destruct (degree_scan c _ _) as [best| |] eqn:D; cbn [bind].
    + discriminate.
    + discriminate.
    + now apply degree_scan_fuel_free in D.
  - discriminate.
  - now apply select_scan_fuel_free in E.
Qed.

Lemma count_neighbors_fuel_free d value ns counter :
  count_neighbors d value ns counter <> OutOfFuel.
Proof.
  revert counter. induction ns as [|n ns IH]; intro counter; simpl;
    [discriminate|].
  destruct (dict_get d n); [apply IH | discriminate].
Qed.

Lemma order_domain_values_fuel_free c d var a :
  order_domain_values c d var a <> OutOfFuel.
Proof.
  unfold order_domain_values. destruct (dict_get d var) as [values|];
    [|discriminate].
  generalize (@None Z) as counter. generalize (@nil (string * Z)) as reslist.
  induction values as [|value rest IH]; intros reslist counter; simpl;
    [discriminate|].
  rewrite word_is_key_false. simpl.
  destruct (count_neighbors d value (neighbors c var) 0%Z) as [n| |] eqn:K;
    simpl; try discriminate.
  - specialize (IH (reslist ++ [(value, n)]) (Some n)).
    destruct (lcv_scan c d var a rest (Some n) (reslist ++ [(value, n)]));
      simpl in *; congruence.
  - now apply count_neighbors_fuel_free in K.
Qed.

Lemma unassigned_extend d a var value :
  In var (keys d) -> dict_mem a var = false ->
  unassigned d (a ++ [(var, value)]) < unassigned d a.
Proof.
  unfold unassigned. intros Hin Hfresh.
  induction (keys d) as [|k ks IH]; [contradiction|].
  assert (Hle : forall l,
             List.length (filter (fun v => negb (dict_mem (a ++ [(var, value)]) v)) l)
             <= List.length (filter (fun v => negb (dict_mem a v)) l)).
  { induction l as [|z l IHl]; simpl; [lia|].
    rewrite dict_mem_app. destruct (dict_mem a z); simpl; [exact IHl|].
    destruct (dict_mem [(var, value)] z); simpl; lia. }
  simpl. destruct Hin as [-> | Hin].
  - rewrite dict_mem_app, Hfresh. unfold dict_mem at 1. simpl.
    rewrite variable_eqb_refl. simpl. specialize (Hle ks). lia.
  - specialize (IH Hin). rewrite dict_mem_app.
    destruct (dict_mem a k); simpl; [exact IH|].
    destruct (dict_mem [(var, value)] k); simpl; lia.
Qed.

Lemma try_values_terminates c d rec var values a :
  (forall a1, search_ok c d a1 (rec a1)) ->
  (forall value, rec (a ++ [(var, value)]) <> OutOfFuel) ->
  dict_mem a var = false ->
  try_values c rec var values a <> OutOfFuel.
Proof.
  intros Hok Hrec Hfresh.
  induction values as [|value rest IH]; cbn [try_values]; [discriminate|].
  rewrite (keys_update_fresh a var value Hfresh).
  remember (a ++ [(var, value)]) as a1 eqn:Ea1.
  assert (Hmem1 : dict_mem a1 var = true).
  { subst a1. rewrite dict_mem_app. unfold dict_mem at 2. simpl.
    rewrite variable_eqb_refl. apply orb_true_r. }
  assert (Hpop : dict_pop a1 var = a).
  { subst a1. rewrite <- (keys_update_fresh a var value Hfresh).
    now apply dict_pop_update_fresh. }
  assert (Hnext : forall evs,
             (' (r, a3, evs') <- try_values c rec var rest (dict_pop a1 var) ;;
              Ret (r, a3, Assign var value :: evs ++ Unassign var :: evs'))
             <> OutOfFuel).
  { intro evs. rewrite Hpop.
    destruct (try_values c rec var rest a) as [[[r a3] evs']| |]; simpl;
      congruence. }
  destruct (consistent c a1) as [ok| |] eqn:Hc; cbn [bind]; try discriminate.
  - destruct ok; cbn [bind].
    + specialize (Hok a1). specialize (Hrec value). rewrite <- Ea1 in Hrec.
      destruct (rec a1) as [[[found a2] evs]| |]; cbn [bind];
        try discriminate; try congruence.
      destruct Hok as (_ & _ & R3 & _).
      destruct (found && negb (is_empty a2)) eqn:T; [discriminate|].
      destruct found.
      * simpl in T. apply negb_false_iff in T.
        destruct a2; [discriminate | discriminate].
      * rewrite (R3 eq_refl), Hmem1. apply Hnext.
    + rewrite Hmem1. apply Hnext.
  - now apply consistent_fuel_free in Hc.
Qed.

Lemma backtrack_terminates c d fuel a :
  unassigned d a < fuel -> backtrack c d fuel a <> OutOfFuel.
Proof.
  revert a. induction fuel as [|fuel IH]; intros a Hf; [lia|].
  cbn [backtrack]. destruct (assignment_complete d a); [discriminate|].
  destruct (select_unassigned_variable c d a) as [[var|n]| |] eqn:Hsel;
    cbn [bind]; try discriminate.
  - apply select_Selected in Hsel. destruct Hsel as [Hvar Hfresh].
    destruct (order_domain_values c d var a) as [values| |] eqn:Ho;
      cbn [bind]; try discriminate.
    + assert (Ht : try_values c (backtrack c d fuel) var values a <> OutOfFuel).
      { apply (try_values_terminates c d); auto using backtrack_ok.
        intro value. apply IH.
        pose proof (unassigned_extend d a var value Hvar Hfresh). lia. }
      destruct (try_values c (backtrack c d fuel) var values a)
        as [[[r a'] evs]| |]; cbn [bind]; congruence.
    + now apply order_domain_values_fuel_free in Ho.
  - now apply select_fuel_free in Hsel.
Qed.

Lemma solve_terminates c : solve c <> OutOfFuel.
Proof.
  unfold solve.
  destruct (ac3 c _ None) as [[b d']| |] eqn:A; cbn [bind]; try discriminate.
  - assert (B : backtrack c d' (backtrack_fuel d') [] <> OutOfFuel).
    { apply backtrack_terminates. unfold unassigned, backtrack_fuel, keys.
      pose proof (filter_length_le (fun v => negb (dict_mem ([] : Assignment) v))
                                   (map fst d')).
      rewrite length_map in H. lia. }
    destruct (backtrack c d' (backtrack_fuel d') []) as [[[found a] evs]| |];
      cbn [bind]; congruence.
  - now apply ac3_terminates in A.
Qed.

(* ------------------------------------------------------------------ *)
(** * [solve] returns *)

Lemma dict_get_entry {V : Type} (d : dict V) k v :
  dict_get d k = Some v -> In (k, v) d.
Proof.
  induction d as [|[k' v'] d IH]; simpl; [discriminate|].
  eqb_case k' k.
  - intros [= ->]. left. now subst.
  - right. auto.
Qed.

Lemma dict_get_snoc {V : Type} (d : dict V) k v k0 v0 :
  dict_get (d ++ [(k0, v0)]) k = Some v ->
  dict_get d k = Some v \/ (k = k0 /\ v = v0).
Proof.
  induction d as [|[k' v'] d IH]; simpl.
  - eqb_case k0 k; [|discriminate]. intros [= ->]. right. auto.
  - destruct (variable_eqb k' k); [now left | exact IH].
Qed.

Lemma length_ok_get d x xs :
  length_ok d -> dict_get d x = Some xs ->
  Forall (fun w => String.length w = var_length x) xs.
Proof.
  unfold length_ok. rewrite Forall_forall. intros H G.
  apply (H (x, xs)). now apply dict_get_entry.
Qed.

Lemma shrinks_size d' d v s' :
  shrinks d' d -> dict_get d' v = Some s' ->
  exists s, dict_get d v = Some s /\ List.length s' <= List.length s.
Proof.
  induction 1 as [|[k1 s1] [k2 s2] l1 l2 (Hk & _ & Hn) _ IH]; simpl in *;
    [discriminate|].
  subst k2. destruct (variable_eqb k1 v); [|exact IH].
  intros [= <-]. eauto.
Qed.

Lemma shrinks_small d' d : shrinks d' d -> small_domains d -> small_domains d'.
Proof.
  intros Hs Hd v s' G. destruct (shrinks_size _ _ _ _ Hs G) as (s & G' & Hle).
  specialize (Hd v s G'). lia.
Qed.

Lemma revise_returns c d x y :
  overlaps_in_range c -> length_ok d ->
  In x (keys d) -> In y (keys d) ->
  returns (revise c d x y).
Proof.
  intros Hr Hl Hx Hy. unfold returns.
  destruct (overlaps c x y) as [[i j]|] eqn:Ho.
  - destruct (Hr _ _ _ _ Ho) as [Hi Hj].
    destruct (dict_get_In d x Hx) as [xs Gx].
    destruct (dict_get_In d y Hy) as [ys Gy].
    pose proof (length_ok_get _ _ _ Hl Gx) as Lx.
    pose proof (length_ok_get _ _ _ Hl Gy) as Ly.
    assert (Hys : Forall (fun v => j < String.length v) ys).
    { eapply Forall_impl; [|exact Ly]. simpl. intros v Hv. lia. }
    destruct xs as [|w0 xs0].
    + eexists.
      exact (revise_total c d x y i j [] [] Ho Gx eq_refl (Forall_nil _)).
    + eexists. apply (revise_total c d x y i j (w0 :: xs0) ys Ho Gx Gy).
      eapply Forall_impl; [|exact Lx]. simpl. intros w Hw.
      apply has_support_in_range; [lia | exact Hys].
  - unfold revise. rewrite Ho. eauto.
Qed.

Lemma fold_push_in (x y : variable) ns (q : list arc) p :
  In p (fold_left (fun q' z => if negb (variable_eqb z y) then (z, x) :: q' else q')
                  ns q) ->
  In p q \/ exists z, In z ns /\ p = (z, x).
Proof.
  revert q. induction ns as [|z ns IH]; intro q; simpl; [now left|].
  intro H. apply IH in H. destruct H as [H | (z' & Hz' & ->)].
  - destruct (negb (variable_eqb z y)); [|now left].
    destruct H as [<- | H]; [|now left]. right. exists z. auto.
  - right. exists z'. auto.
Qed.

Lemma ac3_loop_no_raise c fuel arcs d e :
  overlaps_in_range c -> length_ok d ->
  incl (variables c) (keys d) ->
  (forall x y, In (x, y) arcs -> In x (keys d) /\ In y (keys d)) ->
  ac3_loop c fuel arcs d <> Raise e.
Proof.
  intros Hr. revert arcs d.
  induction fuel as [|fuel IH]; intros arcs d Hl Hv Harcs;
    destruct arcs as [|[x y] rest]; simpl; try discriminate.
  destruct (Harcs x y (or_introl eq_refl)) as [Hx Hy].
  destruct (revise_returns c d x y Hr Hl Hx Hy) as [[revised d1] R].
  rewrite R. cbn [bind].
  pose proof (revise_shrinks _ _ _ _ _ _ R) as Hs.
  pose proof (shrinks_keys _ _ Hs) as Hk.
  assert (Hl1 : length_ok d1) by eauto using shrinks_length_ok.
  assert (Hrest : forall a b, In (a, b) rest -> In a (keys d1) /\ In b (keys d1)).
  { intros a b Hab. rewrite Hk. apply Harcs. now right. }
  destruct revised.
  - rewrite <- Hk in Hx. destruct (dict_get_In d1 x Hx) as [[|w s] ->];
      [discriminate|].
    apply IH; auto; [now rewrite Hk|].
    intros a b Hab. apply fold_push_in in Hab.
    destruct Hab as [Hab | (z & Hz & [= -> ->])]; [now apply Hrest|].
    split; [|exact Hx]. rewrite Hk. apply Hv.
    apply in_neighbors in Hz. tauto.
  - apply IH; auto. now rewrite Hk.
Qed.

Lemma ac3_returns c d :
  overlaps_in_range c -> length_ok d -> incl (variables c) (keys d) ->
  returns (ac3 c d None).
Proof.
  intros Hr Hl Hv. unfold returns.
  destruct (ac3 c d None) as [r|e|] eqn:A; [eauto | exfalso | exfalso].
  - revert A. unfold ac3. apply ac3_loop_no_raise; auto.
    intros x y Hxy. apply in_rev, in_all_arcs in Hxy.
    destruct Hxy as (Hx & Hy & _). split; [exact Hx|].
    apply Hv. apply in_neighbors in Hy. tauto.
  - now apply ac3_terminates in A.
Qed.

Lemma check_neighbors_returns c a var word ns :
  overlaps_in_range c -> fits a ->
  (forall n, In n ns -> overlaps c var n <> None) ->
  String.length word = var_length var ->
  returns (check_neighbors c a var word ns).
Proof.
  intros Hr Hfit Hov Hlen. unfold returns.
  induction ns as [|n ns IH]; simpl; [eauto|].
  assert (IH' : exists r, check_neighbors c a var word ns = Ret r)
    by (apply IH; intros; apply Hov; now right).
  destruct (dict_get a n) as [nword|] eqn:G; [|exact IH'].
  destruct (overlaps c var n) as [[i j]|] eqn:Ho;
    [|destruct (Hov n (or_introl eq_refl) Ho)].
  destruct (Hr _ _ _ _ Ho) as [Hi Hj].
  rewrite <- Hlen in Hi. rewrite <- (Hfit _ _ G) in Hj.
  destruct (string_get_Some _ _ Hi) as [p ->].
  destruct (string_get_Some _ _ Hj) as [q ->].
  destruct (Ascii.eqb p q); eauto.
Qed.

Lemma consistent_returns c a :
  WfCrossword c -> overlaps_in_range c -> fits a -> returns (consistent c a).
Proof.
  intros Hwf Hr Hfit. unfold returns, consistent.
  assert (H : forall todo seen,
             incl todo (keys a) ->
             exists r, consistent_scan c a todo seen = Ret r).
  { induction todo as [|var rest IH]; intros seen Hk; simpl; [eauto|].
    destruct (dict_get_In a var (Hk var (or_introl eq_refl))) as [word G].
    rewrite G.
    destruct (negb (var_length var =? String.length word) || word_in word seen);
      [eauto|].
    destruct (check_neighbors_returns c a var word (neighbors c var) Hr Hfit)
      as [ok ->].
    - intros n Hn. apply in_neighbors in Hn. destruct Hn as (_ & _ & Hn).
      destruct (overlaps c n var) as [[i j]|] eqn:Ho; [|congruence].
      rewrite (overlaps_sym c Hwf _ _ _ _ Ho). discriminate.
    - exact (Hfit _ _ G).
    - cbn [bind]. destruct ok; [|eauto].
      apply IH. intros z Hz. apply Hk. now right. }
  apply H, incl_refl.
Qed.

Section SearchReturns.
Variable c : Crossword.
Variable d : Domains.
Hypothesis Hwf : WfCrossword c.
Hypothesis Hrange : overlaps_in_range c.
Hypothesis Hlen : length_ok d.
Hypothesis Hvars : incl (variables c) (keys d).
Hypothesis Hsmall : small_domains d.

Lemma try_values_no_raise rec var values a e :
  (forall a1, search_ok c d a1 (rec a1)) ->
  (forall a1, fits a1 -> rec a1 <> Raise e) ->
  Forall (fun value => String.length value = var_length var) values ->
  fits a -> dict_mem a var = false ->
  try_values c rec var values a <> Raise e.
Proof.
  intros Hok Hrec Hvals Hfit Hfresh.
  induction Hvals as [|value rest Hvalue _ IH]; cbn [try_values];
    [discriminate|].
  rewrite (keys_update_fresh a var value Hfresh).
  remember (a ++ [(var, value)]) as a1 eqn:Ea1.
  assert (Hmem1 : dict_mem a1 var = true).
  { subst a1. rewrite dict_mem_app. unfold dict_mem at 2. simpl.
    rewrite variable_eqb_refl. apply orb_true_r. }
  assert (Hpop : dict_pop a1 var = a).
  { subst a1. rewrite <- (keys_update_fresh a var value Hfresh).
    now apply dict_pop_update_fresh. }
  assert (Hfit1 : fits a1).
  { subst a1. intros v w G. apply dict_get_snoc in G.
    destruct G as [G | [-> ->]]; [now apply Hfit | exact Hvalue]. }
  assert (Hnext : forall evs,
             (' (r, a3, evs') <- try_values c rec var rest (dict_pop a1 var) ;;
              Ret (r, a3, Assign var value :: evs ++ Unassign var :: evs'))
             <> Raise e).
  { intro evs. rewrite Hpop.
    destruct (try_values c rec var rest a) as [[[r a3] evs']| |]; simpl;
      congruence. }
  destruct (consistent_returns c a1 Hwf Hrange Hfit1) as [ok ->]. cbn [bind].
  destruct ok; cbn [bind].
  - specialize (Hok a1). specialize (Hrec a1 Hfit1).
    destruct (rec a1) as [[[found a2] evs]| |]; cbn [bind];
      try discriminate; try congruence.
    destruct Hok as (_ & _ & R3 & R4).
    destruct (found && negb (is_empty a2)) eqn:T; [discriminate|].
    destruct found.
    + exfalso. simpl in T. apply negb_false_iff in T.
      destruct a2; [|discriminate].
      destruct (R4 eq_refl) as (K1 & _).
      apply dict_mem_In in Hmem1. destruct (K1 _ Hmem1).
    + rewrite (R3 eq_refl), Hmem1. apply Hnext.
  - rewrite Hmem1. apply Hnext.
Qed.
Lemma backtrack_no_raise fuel a e :
  fits a -> backtrack c d fuel a <> Raise e.
Proof.
  revert a. induction fuel as [|fuel IH]; intros a Hfit; [discriminate|].
  cbn [backtrack]. destruct (assignment_complete d a) eqn:Hc; [discriminate|].
  assert (Hu : exists u, In u (keys d) /\ dict_mem a u = false).
  { unfold assignment_complete in Hc. clear -Hc.
    induction (keys d) as [|k ks IHk]; simpl in Hc; [discriminate|].
    destruct (dict_mem a k) eqn:M.
    - destruct (IHk Hc) as (u & Hu & Hm). exists u. split; [now right | exact Hm].
    - exists k. split; [now left | exact M]. }
  destruct Hu as (u & Hu & Hun).
  destruct (select_mrv_degree c d a u Hu Hun) as (v & -> & Hv & Hvn & _).
  { unfold dom_size. destruct (dict_get d u) as [s|] eqn:G; [|lia].
    exact (Hsmall u s G). }
  cbn [bind].
  destruct (dict_get_In d v Hv) as [values Gv].
  rewrite (order_domain_values_Ret c d v a values Gv).
  2:{ intros n Hn. apply Hvars. apply in_neighbors in Hn. tauto. }
  cbn [bind].
  assert (Ht : try_values c (backtrack c d fuel) v
                 (map fst (sorted snd
                    (map (fun value => (value, lcv_score c d v value)) values)))
                 a <> Raise e).
  { apply try_values_no_raise; auto using backtrack_ok.
    apply Forall_forall. intros value Hvalue.
    apply in_map_iff in Hvalue. destruct Hvalue as (p & <- & Hp).
    apply (Permutation_in _ (sorted_perm snd _)) in Hp.
    apply in_map_iff in Hp. destruct Hp as (w & <- & Hw). simpl.
    pose proof (length_ok_get _ _ _ Hlen Gv) as L.
    rewrite Forall_forall in L. now apply L. }
  destruct (try_values c (backtrack c d fuel) v _ a) as [[[r a'] evs]| |];
    cbn [bind]; congruence.
Qed.
End SearchReturns.

(** On a well-formed grid with fewer than 99999 words [solve] returns: an
    assignment or None, never an exception. *)
Lemma solve_returns c :
  WfCrossword c -> overlaps_in_range c ->
  (Z.of_nat (List.length (words c)) < 99999)%Z ->
  returns (solve c).
Proof.
  intros Hwf Hr Hw. unfold returns, solve.
  set (d := enforce_node_consistency (init_domains c)).
  assert (Hk : keys d = variables c).
  { unfold d. rewrite (shrinks_keys _ _ (enforce_node_consistency_shrinks _)).
    apply keys_init_domains. }
  assert (Hl : length_ok d) by apply enforce_node_consistency_length_ok.
  assert (Hs : small_domains d).
  { apply (shrinks_small _ _ (enforce_node_consistency_shrinks _)).
    intros v s G. apply dict_get_entry in G. unfold init_domains in G.
    apply in_map_iff in G. destruct G as (v' & [= _ <-] & _). exact Hw. }
  destruct (ac3_returns c d Hr Hl) as [[b d'] A].
  { rewrite Hk. apply incl_refl. }
  rewrite A. cbn [bind].
  pose proof (ac3_shrinks _ _ _ _ _ A) as Hsh.
  assert (B : returns (backtrack c d' (backtrack_fuel d') [])).
  { unfold returns.
    destruct (backtrack c d' (backtrack_fuel d') []) as [r|e|] eqn:B;
      [eauto | exfalso | exfalso].
    - revert B. apply backtrack_no_raise; auto.
      + eauto using shrinks_length_ok.
      + rewrite (shrinks_keys _ _ Hsh), Hk. apply incl_refl.
      + eauto using shrinks_small.
      + intros v w G. discriminate.
    - revert B. apply backtrack_terminates. unfold unassigned, backtrack_fuel, keys.
      pose proof (filter_length_le (fun v => negb (dict_mem ([] : Assignment) v))
                                   (map fst d')).
      rewrite length_map in H. lia. }
  destruct B as [[[found a] evs] ->]. cbn [bind]. eauto.
Qed.

(* ------------------------------------------------------------------ *)
(** * Facts about the fixtures *)

Lemma table_get_In t x y ij : table_get t x y = Some ij -> In (x, y, ij) t.
Proof.
  induction t as [|[[x' y'] ij'] t IH]; simpl; [discriminate|].
  destruct (variable_eqb x' x && variable_eqb y' y) eqn:E.
  - apply andb_true_iff in E. destruct E as [E1 E2].
    apply variable_eqb_eq in E1, E2. subst. intros [= ->]. now left.
  - right. auto.
Qed.

Lemma table_wf_ok vars ws t :
  table_wf t = true -> WfCrossword (crossword_of vars ws t).
Proof.
  unfold table_wf. rewrite forallb_forall. intro H. split; simpl.
  - intro x. destruct (table_get t x x) as [[i j]|] eqn:G; [|reflexivity].
    apply table_get_In, H in G. apply andb_true_iff in G.
    rewrite variable_eqb_refl in G. destruct G. discriminate.
  - intros x y i j G. apply table_get_In, H in G.
    apply andb_true_iff in G. destruct G as [_ G].
    destruct (table_get t y x) as [[a b]|]; simpl in G; [|discriminate].
    apply andb_true_iff in G. destruct G as [G1 G2].
    apply Nat.eqb_eq in G1, G2. now subst.
Qed.

(* ------------------------------------------------------------------ *)
(** * The properties of the specification *)

(** C1.  An assignment returned by [solve] binds every Variable of the
    crossword; every word has the length of its Variable, no two Variables
    share a word, and two Variables with a recorded overlap [(i, j)] carry
    the same letter at [i] and [j]. *)
Theorem solve_returns_complete_valid (c : Crossword) (a : Assignment)
        (evs : list event) :
  WfCrossword c ->
  solve c = Ret (Some a, evs) ->
  (forall v, In v (variables c) -> exists w, dict_get a v = Some w)
  /\ valid_assignment c a.
Proof.
  intros Hwf. unfold solve.
  destruct (ac3 c _ None) as [[b d']| |] eqn:A; cbn [bind]; try discriminate.
  pose proof (solve_domains_keys _ _ _ A) as Hkeys.
  pose proof (backtrack_ok c d' (backtrack_fuel d') []) as Hok.
  destruct (backtrack c d' (backtrack_fuel d') []) as [[[found a'] evs']| |];
    cbn [bind]; try discriminate.
  destruct found; [|discriminate]. intros [= <- <-].
  destruct Hok as (_ & Hincl & _ & Hfound).
  destruct (Hfound eq_refl) as (_ & Hcomplete & Hcons).
  simpl in Hincl. rewrite Hkeys in Hincl. split.
  - intros v Hv. unfold assignment_complete in Hcomplete.
    rewrite forallb_forall, Hkeys in Hcomplete.
    apply dict_get_In, dict_mem_In, Hcomplete, Hv.
  - apply consistent_valid; auto.
Qed.

Lemma solve_returns_complete_valid_witness :
  (forall v, In v (variables (scenario_A ["CAT"; "DOG"; "TIP"]%string)) ->
             exists w,
               dict_get [(slot_across, "CAT"%string); (slot_down, "TIP"%string)] v
               = Some w)
  /\ valid_assignment (scenario_A ["CAT"; "DOG"; "TIP"]%string)
       [(slot_across, "CAT"%string); (slot_down, "TIP"%string)].
Proof.
  apply (solve_returns_complete_valid
           (scenario_A ["CAT"; "DOG"; "TIP"]%string)
           [(slot_across, "CAT"%string); (slot_down, "TIP"%string)]
           [Enter; Assign slot_across "CAT"; Enter; Assign slot_down "TIP"; Enter]).
  - apply table_wf_ok. reflexivity.
  - vm_compute. reflexivity.
Defined.

(** C2, as the code has it.  [solve] does not look at what [ac3] returns and
    always calls [backtrack].  When [ac3] returned false, or node consistency
    left some Variable without a word, that call selects a Variable with an
    empty domain and tries no word: [solve] reports no solution after one
    call of [backtrack]. *)
Theorem solve_reports_no_solution (c : Crossword) (b : bool) (d' : Domains) :
  ac3 c (enforce_node_consistency (init_domains c)) None = Ret (b, d') ->
  b = false
  \/ (exists x, dict_get (enforce_node_consistency (init_domains c)) x = Some []) ->
  solve c = Ret (None, [Enter]).
Proof.
  intros A H. unfold solve. rewrite A. cbn [bind].
  assert (Hx : exists x, dict_get d' x = Some []).
  { destruct H as [-> | [x Hx]].
    - unfold ac3 in A. eapply ac3_loop_false; eassumption.
    - exists x. eapply shrinks_empty; [|exact Hx].
      eapply ac3_shrinks; eassumption. }
  destruct Hx as [x Hx]. unfold backtrack_fuel.
  now rewrite (backtrack_empty_domain c d' _ x Hx).
Qed.

Lemma solve_reports_no_solution_witness :
  solve (scenario_A ["CAT"; "DOG"]%string) = Ret (None, [Enter]).
Proof.
  apply (solve_reports_no_solution (scenario_A ["CAT"; "DOG"]%string) false
           [(slot_across, ["CAT"; "DOG"]%string); (slot_down, [])]).
  - vm_compute. reflexivity.
  - left. reflexivity.
Defined.

(** C2, as stated, fails: with no two words that fit the crossing, [ac3]
    returns false and the search is entered all the same; so it is for the
    isolated slot of length 4 and no word of that length. *)
Lemma search_entered_after_failed_ac3 :
  (exists d' evs,
      ac3 (scenario_A ["CAT"; "DOG"]%string)
          (enforce_node_consistency (init_domains (scenario_A ["CAT"; "DOG"]%string)))
          None = Ret (false, d')
      /\ solve (scenario_A ["CAT"; "DOG"]%string) = Ret (None, evs)
      /\ In Enter evs)
  /\ (exists evs,
         enforce_node_consistency (init_domains (scenario_B ["CAT"; "DOG"]%string))
         = [(slot_four, [])]
         /\ solve (scenario_B ["CAT"; "DOG"]%string) = Ret (None, evs)
         /\ In Enter evs).
Proof.
  split.
  - exists [(slot_across, ["CAT"; "DOG"]%string); (slot_down, [])], [Enter].
    repeat split; try (vm_compute; reflexivity). now left.
  - exists [Enter].
    repeat split; try (vm_compute; reflexivity). now left.
Qed.

(** C3.  When [ac3] returns false, no assignment gives every Variable a word
    of its domain (as the domains were when [ac3] was called) and satisfies
    the overlaps. *)
Theorem ac3_false_no_solution (c : Crossword) (d : Domains)
        (arcs : option (list arc)) (d' : Domains) (a : Assignment) :
  ac3 c d arcs = Ret (false, d') -> ~ solution c d a.
Proof. apply ac3_sound. Qed.

Lemma ac3_false_no_solution_witness :
  ~ solution (scenario_A ["CAT"; "DOG"]%string)
      [(slot_across, ["CAT"; "DOG"]%string); (slot_down, ["CAT"; "DOG"]%string)]
      [(slot_across, "CAT"%string); (slot_down, "DOG"%string)].
Proof.
  apply (ac3_false_no_solution (scenario_A ["CAT"; "DOG"]%string) _ None
           [(slot_across, ["CAT"; "DOG"]%string); (slot_down, [])]).
  vm_compute. reflexivity.
Defined.

(** C4, as the code has it.  [order_domain_values] returns the words of the
    domain of [var] in ascending order of the number of neighbors of [var],
    assigned or not, whose domain holds the word. *)
Theorem order_domain_values_ascending (c : Crossword) (d : Domains)
        (var : variable) (a : Assignment) (values : list string) :
  dict_get d var = Some values ->
  incl (neighbors c var) (keys d) ->
  exists l,
    order_domain_values c d var a = Ret l
    /\ Permutation l values
    /\ StronglySorted
         (fun w1 w2 => (lcv_score c d var w1 <= lcv_score c d var w2)%Z) l.
Proof.
  intros Hv Hk. eexists. split; [apply order_domain_values_Ret; eassumption|].
  split.
  - rewrite (Permutation_map fst (sorted_perm snd _)).
    rewrite map_map. simpl. now rewrite map_id.
  - apply StronglySorted_map_fst; [|apply sorted_sorted].
    intros e He. apply (Permutation_in _ (sorted_perm snd _)) in He.
    apply in_map_iff in He. destruct He as (w & <- & _). reflexivity.
Qed.

Lemma order_domain_values_ascending_witness :
  exists l,
    order_domain_values comb comb_domains top comb_assignment = Ret l
    /\ Permutation l ["AAA"; "BBB"]%string
    /\ StronglySorted
         (fun w1 w2 => (lcv_score comb comb_domains top w1
                        <= lcv_score comb comb_domains top w2)%Z) l.
Proof.
  apply (order_domain_values_ascending comb comb_domains top comb_assignment).
  - reflexivity.
  - vm_compute. intros v H. decompose [or] H; subst; tauto.
Defined.

(** C4, as stated, fails: the two assigned neighbors of [top] do count.
    ["AAA"] is in the domain of both and of no unassigned neighbor, ["BBB"] in
    the domain of the one unassigned neighbor; the code returns ["BBB"]
    first, the score over unassigned neighbors puts ["AAA"] first. *)
Lemma assigned_neighbors_are_counted :
  order_domain_values comb comb_domains top comb_assignment
  = Ret ["BBB"; "AAA"]%string
  /\ ~ StronglySorted
         (fun w1 w2 =>
            (lcv_score_unassigned comb comb_domains comb_assignment top w1
             <= lcv_score_unassigned comb comb_domains comb_assignment top w2)%Z)
         ["BBB"; "AAA"]%string.
Proof.
  split; [vm_compute; reflexivity|].
  intro H. inversion H as [|? ? _ HF]; subst.
  inversion HF as [|? ? Hle _]; subst.
  vm_compute in Hle. now apply Hle.
Qed.

(** C5.  With a recorded overlap [(ix, iy)], [revise x y] leaves in the
    domain of [x] exactly the words [w] for which some word [v] of the domain
    of [y] has [w[ix] = v[iy]], changes no other domain, and returns true iff
    a word of [x] is gone; with no recorded overlap it changes nothing and
    returns false.  (The words are long enough for the indices, which the
    length invariant of the store gives.) *)
Theorem revise_removes_unsupported (c : Crossword) (d : Domains) (x y : variable) :
  match overlaps c x y with
  | Some (ix, iy) =>
      forall xs ys,
        x <> y ->
        dict_get d x = Some xs -> dict_get d y = Some ys ->
        Forall (fun w => ix < String.length w) xs ->
        Forall (fun v => iy < String.length v) ys ->
        exists b d' xs',
          revise c d x y = Ret (b, d')
          /\ dict_get d' x = Some xs'
          /\ (forall w, In w xs' <->
                        In w xs /\ exists v, In v ys /\ agree ix iy w v)
          /\ (forall z, z <> x -> dict_get d' z = dict_get d z)
          /\ (b = true <-> exists w, In w xs /\ ~ In w xs')
  | None => revise c d x y = Ret (false, d)
  end.
Proof.
  destruct (overlaps c x y) as [[ix iy]|] eqn:Ho.
  - intros xs ys Hxy Hx Hy Hxs Hys.
    assert (HF : Forall (fun w => has_support ix iy w ys
                                  = Ret (support_b ix iy w ys)) xs).
    { eapply Forall_impl; [|exact Hxs]. simpl. intros w Hw.
      now apply has_support_in_range. }
    assert (Hrev : revise c d x y
                   = Ret (negb (is_empty (unsupported ix iy ys xs)),
                          dict_modify d x
                            (fun s => filter
                               (fun w => negb (word_in w (unsupported ix iy ys xs))) s))).
    { destruct xs as [|w0 xs0].
      - exact (revise_total c d x y ix iy [] [] Ho Hx eq_refl (Forall_nil _)).
      - apply (revise_total c d x y ix iy (w0 :: xs0) ys Ho Hx Hy HF). }
    exists (negb (is_empty (unsupported ix iy ys xs))).
    eexists. exists (filter (fun w => support_b ix iy w ys) xs).
    split; [exact Hrev|]. split; [|split; [|split]].
    + rewrite dict_get_modify, variable_eqb_refl, Hx. simpl.
      now rewrite filter_not_unsupported.
    + intro w. rewrite filter_In, support_b_spec. tauto.
    + intros z Hz. rewrite dict_get_modify.
      apply variable_eqb_neq in Hz. now rewrite Hz.
    + rewrite is_empty_unsupported, negb_true_iff. split.
      * intro Hb. destruct (forallb _ xs) eqn:F; [discriminate|].
        assert (Hex : existsb (fun w => negb (support_b ix iy w ys)) xs = true).
        { clear -F. induction xs as [|w xs IH]; simpl in *; [discriminate|].
          destruct (support_b ix iy w ys); simpl in *; auto. }
        apply existsb_exists in Hex. destruct Hex as (w & Hw & Hs).
        exists w. split; [exact Hw|]. rewrite filter_In.
        apply negb_true_iff in Hs. rewrite Hs. intros [_ K]. discriminate.
      * intros (w & Hw & Hn). destruct (forallb _ xs) eqn:F; [|reflexivity].
        exfalso. apply Hn. apply filter_In. split; [exact Hw|].
        rewrite forallb_forall in F. now apply F.
  - unfold revise. now rewrite Ho.
Qed.

Lemma revise_removes_unsupported_witness :
  exists b d' xs',
    revise (scenario_A ["CAT"; "TIP"]%string)
           [(slot_across, ["CAT"; "TIP"]%string); (slot_down, ["CAT"; "TIP"]%string)]
           slot_across slot_down = Ret (b, d')
    /\ dict_get d' slot_across = Some xs'
    /\ (forall w, In w xs' <->
                  In w ["CAT"; "TIP"]%string
                  /\ exists v, In v ["CAT"; "TIP"]%string /\ agree 2 0 w v)
    /\ (forall z, z <> slot_across ->
                  dict_get d' z
                  = dict_get [(slot_across, ["CAT"; "TIP"]%string);
                              (slot_down, ["CAT"; "TIP"]%string)] z)
    /\ (b = true <-> exists w, In w ["CAT"; "TIP"]%string /\ ~ In w xs').
Proof.
  apply (revise_removes_unsupported
           (scenario_A ["CAT"; "TIP"]%string)
           [(slot_across, ["CAT"; "TIP"]%string); (slot_down, ["CAT"; "TIP"]%string)]
           slot_across slot_down).
  - discriminate.
  - reflexivity.
  - reflexivity.
  - repeat constructor.
  - repeat constructor.
Defined.

(** C6 fails on the code for a large vocabulary.  The only Variable is
    unassigned and its domain has 100000 words; the count is neither below
    nor equal to the 99999 that [minvalues] starts with, so the function
    hands back that integer and no Variable, and [solve] stops on the
    KeyError of [self.domains[99999]]. *)
Theorem select_returns_placeholder_on_big_domain :
  enforce_node_consistency (init_domains big_vocabulary)
  = [(slot_five, all_words 5)]
  /\ dom_size [(slot_five, all_words 5)] slot_five = 100000%Z
  /\ assignment_complete [(slot_five, all_words 5)] [] = false
  /\ select_unassigned_variable big_vocabulary [(slot_five, all_words 5)] []
     = Ret (Placeholder 99999)
  /\ solve big_vocabulary = Raise KeyError.
Proof. repeat split; vm_compute; reflexivity. Qed.

(** C7.  After [ac3()] has returned true, a second [ac3()] removes no word
    and returns true. *)
Theorem ac3_second_run_changes_nothing (c : Crossword) (d d' : Domains) :
  WfCrossword c ->
  incl (keys d) (variables c) ->
  ac3 c d None = Ret (true, d') ->
  ac3 c d' None = Ret (true, d').
Proof. intro Hwf. now apply ac3_idempotent. Qed.

Lemma ac3_second_run_changes_nothing_witness :
  ac3 (scenario_A ["CAT"; "DOG"; "TIP"]%string)
      [(slot_across, ["CAT"]%string); (slot_down, ["TIP"]%string)] None
  = Ret (true, [(slot_across, ["CAT"]%string); (slot_down, ["TIP"]%string)]).
Proof.
  apply (ac3_second_run_changes_nothing
           (scenario_A ["CAT"; "DOG"; "TIP"]%string)
           (enforce_node_consistency
              (init_domains (scenario_A ["CAT"; "DOG"; "TIP"]%string)))).
  - apply table_wf_ok. reflexivity.
  - vm_compute. intros v H. exact H.
  - vm_compute. reflexivity.
Defined.

(** C8.  After [enforce_node_consistency] every word of every domain has the
    length of its Variable; [revise] and [ac3] only remove words, so the
    invariant holds after them, and so for the store that the search of
    [solve] reads (the search itself does not write to the store). *)
Theorem domain_length_invariant (c : Crossword) :
  (forall d, length_ok (enforce_node_consistency d))
  /\ (forall d x y b d',
         length_ok d -> revise c d x y = Ret (b, d') ->
         shrinks d' d /\ length_ok d')
  /\ (forall d arcs b d',
         length_ok d -> ac3 c d arcs = Ret (b, d') ->
         shrinks d' d /\ length_ok d')
  /\ (forall b d',
         ac3 c (enforce_node_consistency (init_domains c)) None = Ret (b, d') ->
         length_ok d').
Proof.
  split; [apply enforce_node_consistency_length_ok|].
  split; [|split].
  - intros d x y b d' Hl R. pose proof (revise_shrinks _ _ _ _ _ _ R).
    eauto using shrinks_length_ok.
  - intros d arcs b d' Hl A. pose proof (ac3_shrinks _ _ _ _ _ A).
    eauto using shrinks_length_ok.
  - intros b d' A. eapply shrinks_length_ok.
    + eapply ac3_shrinks; eassumption.
    + apply enforce_node_consistency_length_ok.
Qed.

Lemma domain_length_invariant_witness :
  length_ok [(slot_across, ["CAT"]%string); (slot_down, ["TIP"]%string)].
Proof.
  apply (proj2 (proj2 (proj2
           (domain_length_invariant (scenario_A ["CAT"; "DOG"; "TIP"; "HOUSE"]%string))))
           true).
  vm_compute. reflexivity.
Defined.

(** C9.  Every [update] and [pop] of a call of [backtrack], replayed in order
    from the assignment the call was given, adds one entry with a new key or
    removes the entry added last ([apply_event], [apply_event_one_entry]),
    and the replay ends in the assignment the call leaves; when the call
    returns None that is the assignment it was given. *)
Theorem backtrack_restores_assignment (c : Crossword) (d : Domains) (fuel : nat)
        (a a' : Assignment) (found : bool) (evs : list event) :
  backtrack c d fuel a = Ret (found, a', evs) ->
  replay a evs = Some a' /\ (found = false -> a' = a).
Proof.
  intro H. pose proof (backtrack_ok c d fuel a) as Hok. rewrite H in Hok.
  destruct Hok as (H1 & _ & H3 & _). auto.
Qed.

Lemma backtrack_restores_assignment_witness :
  replay []
    [Enter; Assign top "CAT"; Enter; Assign down0 "CAT"; Unassign down0;
     Unassign top] = Some []
  /\ (false = false -> @nil (variable * string) = []).
Proof.
  apply (backtrack_restores_assignment
           (corner ["CAT"]%string)
           [(top, ["CAT"]%string); (down0, ["CAT"]%string)] 3).
  vm_compute. reflexivity.
Defined.

(** C10.  With every Variable assigned, [select_unassigned_variable] returns
    the integer 99999 its list starts with; a Variable is returned only when
    one is unassigned.  [backtrack] returns a complete assignment before it
    selects. *)
Theorem select_needs_unassigned_variable (c : Crossword) (d : Domains)
        (a : Assignment) :
  (assignment_complete d a = true ->
   select_unassigned_variable c d a = Ret (Placeholder 99999))
  /\ (forall v, select_unassigned_variable c d a = Ret (Selected v) ->
                assignment_complete d a = false
                /\ In v (keys d) /\ dict_mem a v = false)
  /\ (assignment_complete d a = true ->
      forall fuel, backtrack c d (S fuel) a = Ret (true, a, [Enter])).
Proof.
  split; [apply select_complete|]. split.
  - intros v H. destruct (assignment_complete d a) eqn:C.
    + rewrite (select_complete c d a C) in H. discriminate.
    + split; [reflexivity|]. now apply select_Selected in H.
  - intros C fuel. cbn [backtrack]. now rewrite C.
Qed.

Lemma select_needs_unassigned_variable_witness :
  select_unassigned_variable (scenario_A ["CAT"; "TIP"]%string)
    [(slot_across, ["CAT"]%string); (slot_down, ["TIP"]%string)]
    [(slot_across, "CAT"%string); (slot_down, "TIP"%string)]
  = Ret (Placeholder 99999).
Proof.
  apply (proj1 (select_needs_unassigned_variable
                  (scenario_A ["CAT"; "TIP"]%string)
                  [(slot_across, ["CAT"]%string); (slot_down, ["TIP"]%string)]
                  [(slot_across, "CAT"%string); (slot_down, "TIP"%string)])).
  reflexivity.
Defined.

(* ------------------------------------------------------------------ *)
(** * Further properties of the code *)

Lemma table_in_range_ok vars ws t :
  table_in_range t = true -> overlaps_in_range (crossword_of vars ws t).
Proof.
  unfold table_in_range, overlaps_in_range. rewrite forallb_forall.
  intros H x y i j G. simpl in G. apply table_get_In, H in G.
  apply andb_true_iff in G. destruct G as [G1 G2].
  apply Nat.ltb_lt in G1, G2. auto.
Qed.

Lemma dict_get_map_entries (d : Domains) (f : variable -> list string -> list string) v s :
  dict_get d v = Some s ->
  dict_get (map (fun kv => (fst kv, f (fst kv) (snd kv))) d) v = Some (f v s).
Proof.
  induction d as [|[k t] d IH]; simpl; [discriminate|].
  eqb_case k v.
  - subst k. now intros [= ->].
  - exact IH.
Qed.

Lemma keep_right_length var s :
  fold_left (fun s' word => set_remove word s') (wrong_length var s) s
  = filter (fun w => var_length var =? String.length w) s.
Proof.
  rewrite fold_set_remove. apply filter_ext_in. intros w Hw.
  destruct (var_length var =? String.length w) eqn:E.
  - apply negb_true_iff.
    destruct (word_in w (wrong_length var s)) eqn:W; [|reflexivity].
    apply word_in_In, filter_In in W. destruct W as [_ W].
    rewrite E in W. discriminate.
  - apply negb_false_iff, word_in_In, filter_In.
    split; [exact Hw | now rewrite E].
Qed.

(** X1.  [enforce_node_consistency] leaves in the domain of a Variable exactly
    the words of the Variable's length, in the order they had: it removes no
    word that fits. *)
Theorem node_consistency_keeps_fitting_words (d : Domains) (v : variable)
        (s : list string) :
  dict_get d v = Some s ->
  dict_get (enforce_node_consistency d) v
  = Some (filter (fun w => var_length v =? String.length w) s).
Proof.
  intro G. unfold enforce_node_consistency.
  rewrite (dict_get_map_entries d
             (fun var t => fold_left (fun s' word => set_remove word s')
                                     (wrong_length var t) t) v s G).
  now rewrite keep_right_length.
Qed.

Lemma node_consistency_keeps_fitting_words_witness :
  dict_get (enforce_node_consistency
              [(slot_across, ["CAT"; "HOUSE"; "DOG"; "AT"]%string)]) slot_across
  = Some (filter (fun w => var_length slot_across =? String.length w)
                 ["CAT"; "HOUSE"; "DOG"; "AT"]%string).
Proof.
  apply (node_consistency_keeps_fitting_words
           [(slot_across, ["CAT"; "HOUSE"; "DOG"; "AT"]%string)] slot_across).
  reflexivity.
Defined.

(** X2.  [enforce_node_consistency] is idempotent: a second run changes
    nothing. *)
Theorem node_consistency_idempotent (d : Domains) :
  enforce_node_consistency (enforce_node_consistency d)
  = enforce_node_consistency d.
Proof.
  unfold enforce_node_consistency. rewrite map_map. apply map_ext.
  intros [var s]. cbn [fst snd]. f_equal.
  rewrite !keep_right_length.
  induction s as [|w s IH]; simpl; [reflexivity|].
  destruct (var_length var =? String.length w) eqn:E; simpl.
  - rewrite E. now rewrite IH.
  - exact IH.
Qed.

Lemma revise_other_domains c d x y b d' z :
  revise c d x y = Ret (b, d') -> z <> x -> dict_get d' z = dict_get d z.
Proof.
  intros R Hz. apply revise_Ret in R.
  destruct (overlaps c x y) as [[i j]|].
  - destruct R as (xs & ys & _ & _ & _ & _ & ->).
    rewrite dict_get_modify. apply variable_eqb_neq in Hz. now rewrite Hz.
  - destruct R as [_ ->]. reflexivity.
Qed.

Lemma revise_makes_arc_ok c d x y b d' :
  x <> y -> revise c d x y = Ret (b, d') -> arc_ok c d' x y.
Proof.
  intros Hxy R. pose proof (revise_other_domains _ _ _ _ _ _ y R) as Gy.
  apply revise_Ret in R. unfold arc_ok.
  destruct (overlaps c x y) as [[i j]|]; [|exact I].
  destruct R as (xs & ys & Hx & Hy & HF & _ & ->).
  exists (filter (fun w => support_b i j w ys) xs).
  exists (match filter (fun w => support_b i j w ys) xs with
          | [] => [] | _ => ys end).
  split; [|split].
  - rewrite dict_get_modify, variable_eqb_refl, Hx. simpl.
    now rewrite filter_not_unsupported.
  - unfold ywords_read in *. rewrite Gy by congruence.
    destruct xs as [|w0 xs0]; [reflexivity|].
    now destruct (filter _ (w0 :: xs0)).
  - apply Forall_forall. intros w Hw.
    destruct (filter (fun w => support_b i j w ys) xs) eqn:F; [contradiction|].
    rewrite <- F in Hw. apply filter_In in Hw. destruct Hw as [Hw S].
    rewrite Forall_forall in HF. rewrite (HF w Hw). now rewrite S.
Qed.

(** X3.  [revise] is idempotent: after [revise(x, y)] has returned, for
    distinct [x] and [y], a second [revise(x, y)] removes nothing and returns
    False. *)
Theorem revise_twice_changes_nothing (c : Crossword) (d : Domains)
        (x y : variable) (b : bool) (d' : Domains) :
  x <> y ->
  revise c d x y = Ret (b, d') ->
  revise c d' x y = Ret (false, d').
Proof.
  intros Hxy R. apply arc_ok_revise. eapply revise_makes_arc_ok; eassumption.
Qed.

Lemma revise_twice_changes_nothing_witness :
  revise (scenario_A ["CAT"; "TIP"]%string)
         [(slot_across, ["CAT"]%string); (slot_down, ["CAT"; "TIP"]%string)]
         slot_across slot_down
  = Ret (false,
         [(slot_across, ["CAT"]%string); (slot_down, ["CAT"; "TIP"]%string)]).
Proof.
  apply (revise_twice_changes_nothing
           (scenario_A ["CAT"; "TIP"]%string)
           [(slot_across, ["CAT"; "TIP"]%string); (slot_down, ["CAT"; "TIP"]%string)]
           slot_across slot_down true).
  - discriminate.
  - vm_compute. reflexivity.
Defined.

(** X4.  When [ac3()] returns True the store is arc consistent: for every
    Variable [x] of the store and every neighbor [y], each word left in the
    domain of [x] has a word in the domain of [y] with the same letter at the
    overlap. *)
Theorem ac3_true_arc_consistent (c : Crossword) (d d' : Domains) :
  WfCrossword c ->
  incl (keys d) (variables c) ->
  ac3 c d None = Ret (true, d') ->
  forall x y i j xs w,
    In x (keys d) -> In y (neighbors c x) ->
    overlaps c x y = Some (i, j) ->
    dict_get d' x = Some xs -> In w xs ->
    exists ys v, dict_get d' y = Some ys /\ In v ys /\ agree i j w v.
Proof.
  intros Hwf Hk A x y i j xs w Hx Hy Ho Gx Hw.
  assert (Hne : x <> y).
  { apply in_neighbors in Hy. intros ->. tauto. }
  assert (Hok : arc_ok c d' x y).
  { unfold ac3 in A.
    apply (ac3_loop_arc_consistent c Hwf _ _ _ _ Hk A).
    - intros a b Hab. left. now apply in_rev in Hab.
    - apply in_all_arcs. auto. }
  unfold arc_ok in Hok. rewrite Ho in Hok.
  destruct Hok as (xs' & ys & Gx' & Gy & HF).
  rewrite Gx in Gx'. injection Gx' as <-.
  rewrite Forall_forall in HF. specialize (HF w Hw).
  apply has_support_Ret in HF. symmetry in HF. apply support_b_spec in HF.
  destruct HF as (v & Hv & Hag).
  destruct xs as [|w0 xs0]; [contradiction|]. simpl in Gy.
  exists ys, v. auto.
Qed.

Lemma ac3_true_arc_consistent_witness :
  exists ys v,
    dict_get [(slot_across, ["CAT"]%string); (slot_down, ["TIP"]%string)] slot_down
    = Some ys /\ In v ys /\ agree 2 0 "CAT" v.
Proof.
  apply (ac3_true_arc_consistent
           (scenario_A ["CAT"; "DOG"; "TIP"]%string)
           (enforce_node_consistency
              (init_domains (scenario_A ["CAT"; "DOG"; "TIP"]%string)))
           [(slot_across, ["CAT"]%string); (slot_down, ["TIP"]%string)]
           (table_wf_ok _ _ crossing eq_refl)
           ltac:(vm_compute; intros v H; exact H)
           ltac:(vm_compute; reflexivity)
           slot_across slot_down 2 0 ["CAT"]%string "CAT"%string).
  - vm_compute. now left.
  - vm_compute. now left.
  - reflexivity.
  - reflexivity.
  - now left.
Defined.




(** X6.  The loop of [ac3] stops, on every store and every list of arcs:
    a revision that removes a word shortens the store and adds at most one
    arc per Variable, so [total_size d * (n + 1) + len(arcs)] iterations are
    enough. *)
Theorem ac3_loop_stops (c : Crossword) (d : Domains) (arcs : list arc)
        (fuel : nat) :
  ac3_fuel c d arcs <= fuel ->
  ac3_loop c fuel arcs d = ac3_loop c (ac3_fuel c d arcs) arcs d
  /\ ac3_loop c fuel arcs d <> OutOfFuel.
Proof.
  intro Hf. split; [|now apply ac3_loop_terminates].
  assert (Hmono : forall f1 q e f2,
             f1 <= f2 -> ac3_loop c f1 q e <> OutOfFuel ->
             ac3_loop c f2 q e = ac3_loop c f1 q e).
  { induction f1 as [|f1 IH]; intros q e f2 Hle Hne;
      destruct q as [|[x y] rest]; destruct f2 as [|f2];
      try reflexivity; try lia; try (now destruct Hne).
    simpl in *.
    destruct (revise c e x y) as [[revised e1]| |]; simpl in *; try reflexivity.
    destruct revised.
    - destruct (dict_get e1 x) as [[|w s]|]; try reflexivity.
      apply IH; [lia | exact Hne].
    - apply IH; [lia | exact Hne]. }
  apply Hmono; [exact Hf|]. apply ac3_loop_terminates. apply Nat.le_refl.
Qed.

Lemma ac3_loop_stops_witness :
  ac3_loop (scenario_A ["CAT"; "TIP"]%string) 50
           [(slot_across, slot_down)]
           [(slot_across, ["CAT"; "TIP"]%string); (slot_down, ["CAT"; "TIP"]%string)]
  = ac3_loop (scenario_A ["CAT"; "TIP"]%string)
             (ac3_fuel (scenario_A ["CAT"; "TIP"]%string)
                [(slot_across, ["CAT"; "TIP"]%string);
                 (slot_down, ["CAT"; "TIP"]%string)]
                [(slot_across, slot_down)])
             [(slot_across, slot_down)]
             [(slot_across, ["CAT"; "TIP"]%string); (slot_down, ["CAT"; "TIP"]%string)]
  /\ ac3_loop (scenario_A ["CAT"; "TIP"]%string) 50
              [(slot_across, slot_down)]
              [(slot_across, ["CAT"; "TIP"]%string);
               (slot_down, ["CAT"; "TIP"]%string)]
     <> OutOfFuel.
Proof.
  apply (ac3_loop_stops (scenario_A ["CAT"; "TIP"]%string)).
  vm_compute. repeat constructor.
Defined.

(** X7.  On a grid whose overlap table is symmetric, irreflexive and within
    the slots, with fewer than 99999 words in the vocabulary, [solve] returns
    (an assignment or None): no call raises and both loops stop. *)
Theorem solve_returns_on_wellformed_grid (c : Crossword) :
  WfCrossword c -> overlaps_in_range c ->
  (Z.of_nat (List.length (words c)) < 99999)%Z ->
  exists r evs, solve c = Ret (r, evs).
Proof.
  intros Hwf Hr Hw. destruct (solve_returns c Hwf Hr Hw) as [[r evs] E]. eauto.
Qed.

Lemma solve_returns_on_wellformed_grid_witness :
  exists r evs, solve (scenario_A ["CAT"; "DOG"; "TIP"]%string) = Ret (r, evs).
Proof.
  apply (solve_returns_on_wellformed_grid (scenario_A ["CAT"; "DOG"; "TIP"]%string)).
  - apply table_wf_ok. reflexivity.
  - apply table_in_range_ok. reflexivity.
  - vm_compute. reflexivity.
Defined.

(** X8.  As long as some unassigned Variable has fewer than 99999 words,
    [select_unassigned_variable] returns an unassigned Variable of the store
    with the fewest words among the unassigned ones and, among those with as
    few, the most neighbors. *)
Theorem select_minimum_remaining_values (c : Crossword) (d : Domains)
        (a : Assignment) (u : variable) :
  In u (keys d) -> dict_mem a u = false -> (dom_size d u < 99999)%Z ->
  exists v,
    select_unassigned_variable c d a = Ret (Selected v)
    /\ In v (keys d) /\ dict_mem a v = false
    /\ (forall u', In u' (keys d) -> dict_mem a u' = false ->
                   (dom_size d v <= dom_size d u')%Z)
    /\ (forall u', In u' (keys d) -> dict_mem a u' = false ->
                   dom_size d u' = dom_size d v ->
                   (degree_of c u' <= degree_of c v)%Z).
Proof. apply select_mrv_degree. Qed.

Lemma select_minimum_remaining_values_witness :
  exists v,
    select_unassigned_variable comb comb_domains comb_assignment = Ret (Selected v)
    /\ In v (keys comb_domains) /\ dict_mem comb_assignment v = false
    /\ (forall u', In u' (keys comb_domains) -> dict_mem comb_assignment u' = false ->
                   (dom_size comb_domains v <= dom_size comb_domains u')%Z)
    /\ (forall u', In u' (keys comb_domains) -> dict_mem comb_assignment u' = false ->
                   dom_size comb_domains u' = dom_size comb_domains v ->
                   (degree_of comb u' <= degree_of comb v)%Z).
Proof.
  apply (select_minimum_remaining_values comb comb_domains comb_assignment top).
  - now left.
  - reflexivity.
  - vm_compute. reflexivity.
Defined.

Lemma filter_map_fst_scored {A : Type} (f : A -> Z) (k : Z) (l : list (A * Z)) :
  (forall e, In e l -> snd e = f (fst e)) ->
  filter (fun w => (f w =? k)%Z) (map fst l)
  = map fst (filter (fun e => (snd e =? k)%Z) l).
Proof.
  induction l as [|e l IH]; intro H; simpl; [reflexivity|].
  rewrite <- (H e (or_introl eq_refl)).
  rewrite IH by (intros; apply H; now right).
  now destruct (snd e =? k)%Z.
Qed.

(** X9.  The order of [order_domain_values] is stable, as Python's [sorted]
    is: the words with one and the same score come in the order they have in
    the domain. *)
Theorem order_domain_values_stable (c : Crossword) (d : Domains)
        (var : variable) (a : Assignment) (values : list string) (k : Z) :
  dict_get d var = Some values ->
  incl (neighbors c var) (keys d) ->
  exists l,
    order_domain_values c d var a = Ret l
    /\ filter (fun w => (lcv_score c d var w =? k)%Z) l
       = filter (fun w => (lcv_score c d var w =? k)%Z) values.
Proof.
  intros Hv Hk. eexists. split; [apply order_domain_values_Ret; eassumption|].
  set (scored := map (fun value => (value, lcv_score c d var value)) values).
  assert (Hs : forall e, In e scored -> snd e = lcv_score c d var (fst e)).
  { intros e He. apply in_map_iff in He. now destruct He as (w & <- & _). }
  rewrite (filter_map_fst_scored (lcv_score c d var) k (sorted snd scored)).
  - rewrite sorted_stable.
    rewrite <- (filter_map_fst_scored (lcv_score c d var) k scored Hs).
    unfold scored. rewrite map_map. simpl. now rewrite map_id.
  - intros e He. apply Hs. apply (Permutation_in _ (sorted_perm snd scored) He).
Qed.

Lemma order_domain_values_stable_witness :
  exists l,
    order_domain_values (scenario_A ["CAT"; "TIP"; "TOE"]%string)
      [(slot_across, ["CAT"; "TIP"; "TOE"]%string); (slot_down, ["TIP"]%string)]
      slot_across [] = Ret l
    /\ filter (fun w => (lcv_score (scenario_A ["CAT"; "TIP"; "TOE"]%string)
                           [(slot_across, ["CAT"; "TIP"; "TOE"]%string);
                            (slot_down, ["TIP"]%string)] slot_across w =? 0)%Z) l
       = filter (fun w => (lcv_score (scenario_A ["CAT"; "TIP"; "TOE"]%string)
                             [(slot_across, ["CAT"; "TIP"; "TOE"]%string);
                              (slot_down, ["TIP"]%string)] slot_across w =? 0)%Z)
                ["CAT"; "TIP"; "TOE"]%string.
Proof.
  apply (order_domain_values_stable (scenario_A ["CAT"; "TIP"; "TOE"]%string)
           [(slot_across, ["CAT"; "TIP"; "TOE"]%string); (slot_down, ["TIP"]%string)]
           slot_across []).
  - reflexivity.
  - vm_compute. intros v H. decompose [or] H; subst; tauto.
Defined.



Lemma consistent_scan_valid c a todo seen :
  WfCrossword c -> valid_assignment c a ->
  incl todo (keys a) -> NoDup todo ->
  (forall w, In w seen ->
             exists v, ~ In v todo /\ dict_get a v = Some w) ->
  consistent_scan c a todo seen = Ret true.
Proof.
  intros Hwf [Vl Vd Vo]. revert seen.
  induction todo as [|var rest IH]; intros seen Hk Hnd Hseen; simpl;
    [reflexivity|].
  destruct (dict_get_In a var (Hk var (or_introl eq_refl))) as [word G].
  rewrite G. rewrite (Vl _ _ G), Nat.eqb_refl. simpl.
  inversion Hnd as [|? ? Hnotin Hnd']; subst.
  destruct (word_in word seen) eqn:W.
  { exfalso. apply word_in_In in W. destruct (Hseen _ W) as (v & Hv & Gv).
    apply (Vd v var word word); auto.
    intros ->. apply Hv. now left. }
  assert (K : forall ns, incl ns (neighbors c var) ->
                         check_neighbors c a var word ns = Ret true).
  { induction ns as [|n ns IHn]; intro Hn; simpl; [reflexivity|].
    assert (IHn' : check_neighbors c a var word ns = Ret true)
      by (apply IHn; intros z Hz; apply Hn; now right).
    destruct (dict_get a n) as [nword|] eqn:Gn; [|exact IHn'].
    assert (Hnb : In n (neighbors c var)) by (apply Hn; now left).
    apply in_neighbors in Hnb. destruct Hnb as (_ & _ & Hov).
    destruct (overlaps c n var) as [[j i]|] eqn:Ho; [|congruence].
    rewrite (overlaps_sym c Hwf _ _ _ _ Ho).
    destruct (Vo var n i j word nword (overlaps_sym c Hwf _ _ _ _ Ho) G Gn)
      as (ch & -> & ->).
    now rewrite Ascii.eqb_refl. }
  rewrite (K _ (incl_refl _)). cbn [bind].
  apply IH; auto.
  - intros z Hz. apply Hk. now right.
  - intros w Hw. apply in_app_or in Hw as [Hw | [<- | []]].
    + destruct (Hseen _ Hw) as (v & Hv & Gv). exists v. split; [|exact Gv].
      intro Hin. apply Hv. now right.
    + exists var. auto.
Qed.

(** X11.  [consistent] decides the validity of an assignment: for an
    assignment over Variables of the crossword it returns True exactly when
    every word has the length of its Variable, no two Variables have the same
    word, and the words of two Variables with a recorded overlap have the
    same letter there. *)
Theorem consistent_true_iff_valid (c : Crossword) (a : Assignment) :
  WfCrossword c ->
  incl (keys a) (variables c) ->
  NoDup (keys a) ->
  (consistent c a = Ret true <-> valid_assignment c a).
Proof.
  intros Hwf Hk Hnd. split.
  - now apply consistent_valid.
  - intro Hv. unfold consistent.
    apply consistent_scan_valid; auto using incl_refl.
    intros w [].
Qed.

Lemma consistent_true_iff_valid_witness :
  consistent (scenario_A ["CAT"; "TIP"]%string)
             [(slot_across, "CAT"%string); (slot_down, "TIP"%string)] = Ret true
  <-> valid_assignment (scenario_A ["CAT"; "TIP"]%string)
        [(slot_across, "CAT"%string); (slot_down, "TIP"%string)].
Proof.
  apply (consistent_true_iff_valid (scenario_A ["CAT"; "TIP"]%string)
           [(slot_across, "CAT"%string); (slot_down, "TIP"%string)]).
  - apply table_wf_ok. reflexivity.
  - vm_compute. intros v H. exact H.
  - vm_compute. repeat constructor; simpl; intuition discriminate.
Defined.

Lemma lcv_scan_words c d var a values counter reslist r :
  lcv_scan c d var a values counter reslist = Ret r ->
  map fst r = map fst reslist ++ values.
Proof.
  revert counter reslist.
  induction values as [|value rest IH]; intros counter reslist; simpl.
  - intros [= <-]. now rewrite app_nil_r.
  - rewrite word_is_key_false. simpl.
    destruct (count_neighbors d value (neighbors c var) 0%Z) as [n| |]; simpl;
      try discriminate.
    intro H. apply IH in H. rewrite H, map_app, <- app_assoc. reflexivity.
Qed.

(** The values tried are the words of the domain, in some order. *)
Lemma order_domain_values_perm c d var a l :
  order_domain_values c d var a = Ret l ->
  exists values, dict_get d var = Some values /\ Permutation l values.
Proof.
  unfold order_domain_values. destruct (dict_get d var) as [values|];
    [|discriminate].
  destruct (lcv_scan c d var a values None []) as [r| |] eqn:E; simpl;
    try discriminate.
  intros [= <-]. exists values. split; [reflexivity|].
  apply lcv_scan_words in E. simpl in E. rewrite <- E.
  apply Permutation_map, sorted_perm.
Qed.

Lemma keys_snoc {V : Type} (a : dict V) k v : keys (a ++ [(k, v)]) = keys a ++ [k].
Proof. unfold keys. now rewrite map_app. Qed.

Lemma NoDup_keys_snoc {V : Type} (a : dict V) k v :
  dict_mem a k = false -> NoDup (keys a) -> NoDup (keys (a ++ [(k, v)])).
Proof.
  intros Hm Hnd. rewrite keys_snoc.
  apply NoDup_rev in Hnd. rewrite <- (rev_involutive (keys a ++ [k])).
  apply NoDup_rev. rewrite rev_app_distr. simpl. constructor; [|exact Hnd].
  rewrite <- in_rev. intro Hin. apply dict_mem_In in Hin. congruence.
Qed.

Section SearchGrows.
Variable c : Crossword.
Variable d : Domains.

Lemma try_values_grows rec var values ws a :
  (forall a1, search_ok c d a1 (rec a1)) ->
  (forall a1, search_grows d a1 (rec a1)) ->
  dict_get d var = Some ws -> incl values ws ->
  dict_mem a var = false ->
  search_grows d a (try_values c rec var values a).
Proof.
  intros Hok Hrec Gd Hvals Hfresh.
  induction values as [|value rest IH]; cbn [try_values]; [exact I|].
  assert (IH' : search_grows d a (try_values c rec var rest a))
    by (apply IH; intros z Hz; apply Hvals; now right).
  rewrite (keys_update_fresh a var value Hfresh).
  remember (a ++ [(var, value)]) as a1 eqn:Ea1.
  assert (Hmem1 : dict_mem a1 var = true).
  { subst a1. rewrite dict_mem_app. unfold dict_mem at 2. simpl.
    rewrite variable_eqb_refl. apply orb_true_r. }
  assert (Hpop : dict_pop a1 var = a).
  { subst a1. rewrite <- (keys_update_fresh a var value Hfresh).
    now apply dict_pop_update_fresh. }
  assert (Hnext : forall evs,
             search_grows d a
               (' (r, a3, evs') <- try_values c rec var rest (dict_pop a1 var) ;;
                Ret (r, a3, Assign var value :: evs ++ Unassign var :: evs'))).
  { intro evs. rewrite Hpop.
    destruct (try_values c rec var rest a) as [[[r a3] evs']| |];
      cbn [bind]; auto. }
  destruct (consistent c a1) as [ok| |]; cbn [bind]; try exact I.
  destruct ok; cbn [bind].
  - specialize (Hok a1). specialize (Hrec a1).
    destruct (rec a1) as [[[found a2] evs]| |]; cbn [bind]; try exact I.
    destruct Hok as (_ & _ & R3 & _).
    destruct found.
    + destruct Hrec as (ext & -> & Hext & Hnd).
      assert (Hne : is_empty (a1 ++ ext) = false)
        by (subst a1; now destruct a).
      rewrite Hne. cbn [andb negb search_grows].
      exists ((var, value) :: ext). subst a1. rewrite <- app_assoc.
      split; [reflexivity|]. split.
      * intros v w [[= <- <-] | Hin].
        -- split; [exact Hfresh|]. exists ws. split; [exact Gd|].
           apply Hvals. now left.
        -- destruct (Hext v w Hin) as [Hm Hw]. split; [|exact Hw].
           rewrite dict_mem_app in Hm. now apply orb_false_iff in Hm.
      * intro Hn. rewrite app_assoc. apply Hnd.
        now apply NoDup_keys_snoc.
    + cbn [andb]. rewrite (R3 eq_refl), Hmem1. apply Hnext.
  - rewrite Hmem1. apply Hnext.
Qed.

Lemma backtrack_grows fuel a : search_grows d a (backtrack c d fuel a).
Proof.
  revert a. induction fuel as [|fuel IH]; intro a; cbn [backtrack]; [exact I|].
  destruct (assignment_complete d a).
  - exists []. rewrite app_nil_r.
    split; [reflexivity|]. split; [intros v w [] | auto].
  - destruct (select_unassigned_variable c d a) as [[var|n]| |] eqn:Hsel;
      cbn [bind]; try exact I.
    apply select_Selected in Hsel. destruct Hsel as [Hvar Hfresh].
    destruct (order_domain_values c d var a) as [values| |] eqn:Ho;
      cbn [bind]; try exact I.
    apply order_domain_values_perm in Ho. destruct Ho as (ws & Gd & Hp).
    pose proof (try_values_grows (backtrack c d fuel) var values ws a
                  (backtrack_ok c d fuel) IH Gd) as Hg.
    specialize (Hg ltac:(intros z Hz; apply (Permutation_in _ Hp Hz)) Hfresh).
    destruct (try_values c (backtrack c d fuel) var values a)
      as [[[r a'] evs]| |]; cbn [bind]; auto.
Qed.
End SearchGrows.

(** X12.  A successful call of [backtrack] returns the assignment it was
    given with entries appended: the entries are for Variables the given
    assignment left out, and each binds a word of the Variable's domain. *)
Theorem backtrack_success_appends (c : Crossword) (d : Domains) (fuel : nat)
        (a a' : Assignment) (evs : list event) :
  backtrack c d fuel a = Ret (true, a', evs) ->
  exists ext,
    a' = a ++ ext
    /\ forall v w, In (v, w) ext ->
                   dict_mem a v = false
                   /\ exists ws, dict_get d v = Some ws /\ In w ws.
Proof.
  intro H. pose proof (backtrack_grows c d fuel a) as G. rewrite H in G.
  destruct G as (ext & E & Hext & _). exists ext. auto.
Qed.

Lemma backtrack_success_appends_witness :
  exists ext,
    [(slot_across, "CAT"%string); (slot_down, "TIP"%string)]
    = [(slot_across, "CAT"%string)] ++ ext
    /\ forall v w, In (v, w) ext ->
                   dict_mem [(slot_across, "CAT"%string)] v = false
                   /\ exists ws,
                        dict_get [(slot_across, ["CAT"]%string);
                                  (slot_down, ["TIP"]%string)] v = Some ws
                        /\ In w ws.
Proof.
  apply (backtrack_success_appends (scenario_A ["CAT"; "TIP"]%string)
           [(slot_across, ["CAT"]%string); (slot_down, ["TIP"]%string)] 3
           [(slot_across, "CAT"%string)]
           [(slot_across, "CAT"%string); (slot_down, "TIP"%string)]
           [Enter; Assign slot_down "TIP"; Enter]).
  vm_compute. reflexivity.
Defined.

(** X13.  An assignment returned by [solve] binds Variables of the crossword
    only, each once, and every word in it is a word of the vocabulary. *)
Theorem solve_assigns_vocabulary_words (c : Crossword) (a : Assignment)
        (evs : list event) :
  solve c = Ret (Some a, evs) ->
  NoDup (keys a)
  /\ forall v w, In (v, w) a -> In v (variables c) /\ In w (words c).
Proof.
  unfold solve.
  destruct (ac3 c _ None) as [[b d']| |] eqn:A; cbn [bind]; try discriminate.
  pose proof (backtrack_grows c d' (backtrack_fuel d') []) as G.
  destruct (backtrack c d' (backtrack_fuel d') []) as [[[found a'] evs']| |];
    cbn [bind]; try discriminate.
  destruct found; [|discriminate]. intros [= <- <-].
  destruct G as (ext & -> & Hext & Hnd). simpl. split; [apply Hnd; constructor|].
  intros v w Hin. destruct (Hext v w Hin) as (_ & ws & Gv & Hw).
  split.
  - rewrite <- (solve_domains_keys _ _ _ A). eauto using dict_get_Some_In.
  - pose proof (shrinks_trans _ _ _ (ac3_shrinks _ _ _ _ _ A)
                              (enforce_node_consistency_shrinks _)) as Hs.
    clear -Hs Gv Hw. unfold init_domains in Hs.
    remember (map (fun var => (var, words c)) (variables c)) as d0 eqn:E.
    assert (H0 : forall kv, In kv d0 -> snd kv = words c).
    { subst d0. intros kv Hkv. apply in_map_iff in Hkv.
      now destruct Hkv as (z & <- & _). }
    clear E. induction Hs as [|[k1 s1] [k2 s2] l1 l2 (Hk & Hi & _) _ IH];
      simpl in *; [discriminate|].
    subst k2. destruct (variable_eqb k1 v).
    + injection Gv as ->. rewrite <- (H0 (k1, s2) (or_introl eq_refl)).
      now apply Hi.
    + apply IH; auto.
Qed.

Lemma solve_assigns_vocabulary_words_witness :
  NoDup (keys [(slot_across, "CAT"%string); (slot_down, "TIP"%string)])
  /\ forall v w,
       In (v, w) [(slot_across, "CAT"%string); (slot_down, "TIP"%string)] ->
       In v (variables (scenario_A ["CAT"; "DOG"; "TIP"]%string))
       /\ In w (words (scenario_A ["CAT"; "DOG"; "TIP"]%string)).
Proof.
  apply (solve_assigns_vocabulary_words
           (scenario_A ["CAT"; "DOG"; "TIP"]%string)
           [(slot_across, "CAT"%string); (slot_down, "TIP"%string)]
           [Enter; Assign slot_across "CAT"; Enter; Assign slot_down "TIP"; Enter]).
  vm_compute. reflexivity.
Defined.

Lemma check_neighbors_not_false c a var word ns :
  (forall n nword i j,
      dict_get a n = Some nword -> overlaps c var n = Some (i, j) ->
      agree i j word nword) ->
  check_neighbors c a var word ns <> Ret false.
Proof.
  intro Hag. induction ns as [|n ns IH]; simpl; [discriminate|].
  destruct (dict_get a n) as [nword|] eqn:G; [|exact IH].
  destruct (overlaps c var n) as [[i j]|] eqn:Ho; [|discriminate].
  destruct (Hag n nword i j G Ho) as (ch & -> & ->).
  now rewrite Ascii.eqb_refl.
Qed.

Lemma consistent_scan_not_false c a s todo seen :
  valid_assignment c s -> extends s a ->
  incl todo (keys a) -> NoDup todo ->
  (forall w, In w seen -> exists v, ~ In v todo /\ dict_get a v = Some w) ->
  consistent_scan c a todo seen <> Ret false.
Proof.
  intros [Vl Vd Vo] Hext. revert seen.
  induction todo as [|var rest IH]; intros seen Hk Hnd Hseen; simpl;
    [discriminate|].
  destruct (dict_get_In a var (Hk var (or_introl eq_refl))) as [word G].
  rewrite G. rewrite (Vl _ _ (Hext _ _ G)), Nat.eqb_refl. simpl.
  inversion Hnd as [|? ? Hnotin Hnd']; subst.
  destruct (word_in word seen) eqn:W.
  { exfalso. apply word_in_In in W. destruct (Hseen _ W) as (v & Hv & Gv).
    apply (Vd v var word word); auto.
    intros ->. apply Hv. now left. }
  pose proof (check_neighbors_not_false c a var word (neighbors c var)) as K.
  destruct (check_neighbors c a var word (neighbors c var)) as [[|]| |];
    cbn [bind]; try discriminate.
  - apply IH; auto.
    + intros z Hz. apply Hk. now right.
    + intros w Hw. apply in_app_or in Hw as [Hw | [<- | []]].
      * destruct (Hseen _ Hw) as (v & Hv & Gv). exists v. split; [|exact Gv].
        intro Hin. apply Hv. now right.
      * exists var. auto.
  - exfalso. apply K; [|reflexivity].
    intros n nword i j Gn Ho. apply (Vo var n i j); auto.
Qed.

Lemma consistent_not_false c a s :
  valid_assignment c s -> extends s a -> NoDup (keys a) ->
  consistent c a <> Ret false.
Proof.
  intros Hv Hext Hnd. unfold consistent.
  apply (consistent_scan_not_false c a s); auto using incl_refl.
  intros w [].
Qed.

Section SearchComplete.
Variable c : Crossword.
Variable d : Domains.
Variable s : Assignment.
Hypothesis Hvalid : valid_assignment c s.
Hypothesis Hdom :
  forall v ws, dict_get d v = Some ws ->
               exists w, dict_get s v = Some w /\ In w ws.

Lemma try_values_finds rec var values a w_s :
  (forall a1, search_ok c d a1 (rec a1)) ->
  (forall a' evs, rec (a ++ [(var, w_s)]) <> Ret (false, a', evs)) ->
  dict_get s var = Some w_s -> extends s a -> NoDup (keys a) ->
  dict_mem a var = false -> In w_s values ->
  forall a' evs, try_values c rec var values a <> Ret (false, a', evs).
Proof.
  intros Hok Hrec Gs Hext Hnd Hfresh.
  induction values as [|value rest IH]; intros Hin a' evs0; [destruct Hin|].
  cbn [try_values].
  rewrite (keys_update_fresh a var value Hfresh).
  remember (a ++ [(var, value)]) as a1 eqn:Ea1.
  assert (Hmem1 : dict_mem a1 var = true).
  { subst a1. rewrite dict_mem_app. unfold dict_mem at 2. simpl.
    rewrite variable_eqb_refl. apply orb_true_r. }
  assert (Hpop : dict_pop a1 var = a).
  { subst a1. rewrite <- (keys_update_fresh a var value Hfresh).
    now apply dict_pop_update_fresh. }
  (* the candidate is given up and is not the word of [s] *)
  assert (Hnext : value <> w_s -> forall evs,
             (' (r, a3, evs') <- try_values c rec var rest (dict_pop a1 var) ;;
              Ret (r, a3, Assign var value :: evs ++ Unassign var :: evs'))
             <> Ret (false, a', evs0)).
  { intros Hne evs. rewrite Hpop.
    assert (Hin' : In w_s rest) by (destruct Hin; congruence).
    destruct (try_values c rec var rest a) as [[[r a3] evs']| |] eqn:T;
      cbn [bind]; try discriminate.
    destruct r; [discriminate|]. exfalso. exact (IH Hin' a3 evs' eq_refl). }
  destruct (string_dec value w_s) as [-> | Hne].
  - (* the word of [s]: the extended assignment is consistent and the
       recursive call cannot fail *)
    assert (Hext1 : extends s a1).
    { subst a1. intros v w G. apply dict_get_snoc in G.
      destruct G as [G | [-> ->]]; auto. }
    assert (Hnd1 : NoDup (keys a1)) by (subst a1; now apply NoDup_keys_snoc).
    pose proof (consistent_not_false c a1 s Hvalid Hext1 Hnd1) as Hc.
    destruct (consistent c a1) as [[|]| |]; cbn [bind]; try discriminate;
      [|now destruct Hc].
    specialize (Hok a1). specialize (Hrec).
    rewrite <- Ea1 in Hrec.
    destruct (rec a1) as [[[found a2] evs]| |]; cbn [bind]; try discriminate.
    destruct found; [|exfalso; exact (Hrec a2 evs eq_refl)].
    destruct Hok as (_ & _ & _ & R4). destruct (R4 eq_refl) as (K1 & _).
    assert (Hne : is_empty a2 = false).
    { destruct a2; [|reflexivity].
      apply dict_mem_In in Hmem1. destruct (K1 _ Hmem1). }
    rewrite Hne. discriminate.
  - destruct (consistent c a1) as [[|]| |]; cbn [bind]; try discriminate.
    + specialize (Hok a1).
      destruct (rec a1) as [[[found a2] evs]| |]; cbn [bind]; try discriminate.
      destruct Hok as (_ & _ & R3 & R4).
      destruct found.
      * destruct (R4 eq_refl) as (K1 & _).
        assert (Hne2 : is_empty a2 = false).
        { destruct a2; [|reflexivity].
          apply dict_mem_In in Hmem1. destruct (K1 _ Hmem1). }
        rewrite Hne2. discriminate.
      * cbn [andb]. rewrite (R3 eq_refl), Hmem1. now apply Hnext.
    + rewrite Hmem1. now apply Hnext.
Qed.

Lemma backtrack_finds fuel a :
  extends s a -> NoDup (keys a) ->
  forall a' evs, backtrack c d fuel a <> Ret (false, a', evs).
Proof.
  revert a. induction fuel as [|fuel IH]; intros a Hext Hnd a' evs0;
    [discriminate|].
  cbn [backtrack]. destruct (assignment_complete d a); [discriminate|].
  destruct (select_unassigned_variable c d a) as [[var|n]| |] eqn:Hsel;
    cbn [bind]; try discriminate.
  apply select_Selected in Hsel. destruct Hsel as [Hvar Hfresh].
  destruct (order_domain_values c d var a) as [values| |] eqn:Ho;
    cbn [bind]; try discriminate.
  apply order_domain_values_perm in Ho. destruct Ho as (ws & Gd & Hp).
  destruct (Hdom var ws Gd) as (w_s & Gs & Hw).
  assert (Ht : forall a2 evs,
             try_values c (backtrack c d fuel) var values a
             <> Ret (false, a2, evs)).
  { apply (try_values_finds (backtrack c d fuel) var values a w_s);
      auto using backtrack_ok.
    - intros a2 evs. apply IH.
      + intros v w G. apply dict_get_snoc in G.
        destruct G as [G | [-> ->]]; auto.
      + now apply NoDup_keys_snoc.
    - apply (Permutation_in _ (Permutation_sym Hp) Hw). }
  destruct (try_values c (backtrack c d fuel) var values a)
    as [[[r a2] evs]| |] eqn:T; cbn [bind]; try discriminate.
  destruct r; [discriminate|]. exfalso. exact (Ht a2 evs eq_refl).
Qed.
End SearchComplete.


(** X15.  [solve] reports no solution only when there is none: if it returns
    None, no assignment gives every Variable a word of the vocabulary with
    the right lengths, distinct words and matching letters at the overlaps. *)
Theorem solve_none_no_solution (c : Crossword) (evs : list event)
        (s : Assignment) :
  solve c = Ret (None, evs) -> ~ crossword_solution c s.
Proof.
  unfold solve. intros H [Hwords Hvalid].
  set (d := enforce_node_consistency (init_domains c)) in *.
  assert (Hd : forall v ws, dict_get d v = Some ws ->
                            exists w, dict_get s v = Some w /\ In w ws).
  { intros v ws G.
    assert (Hv : In v (variables c)).
    { rewrite <- keys_init_domains,
        <- (shrinks_keys _ _ (enforce_node_consistency_shrinks (init_domains c))).
      eauto using dict_get_Some_In. }
    destruct (Hwords v Hv) as (w & Gs & Hw). exists w. split; [exact Gs|].
    assert (G0 : dict_get (init_domains c) v = Some (words c)).
    { rewrite <- keys_init_domains in Hv.
      destruct (dict_get_In _ _ Hv) as [ws0 G0]. rewrite G0. f_equal.
      apply dict_get_entry in G0. unfold init_domains in G0.
      apply in_map_iff in G0. now destruct G0 as (z & [= _ <-] & _). }
    unfold d in G. unfold enforce_node_consistency in G.
    rewrite (dict_get_map_entries (init_domains c)
               (fun var t => fold_left (fun s' word => set_remove word s')
                                       (wrong_length var t) t) v _ G0) in G.
    injection G as <-. rewrite keep_right_length. apply filter_In.
    split; [exact Hw|]. apply Nat.eqb_eq. symmetry.
    destruct Hvalid as [Vl _ _]. now apply Vl. }
  destruct (ac3 c d None) as [[b d']| |] eqn:A; cbn [bind] in H;
    try discriminate.
  assert (Hd' : forall v ws, dict_get d' v = Some ws ->
                             exists w, dict_get s v = Some w /\ In w ws).
  { assert (Hsol : solution c d s).
    { split; [exact Hd|]. intros x y i j wx wy _ _ Ho Gx Gy.
      destruct Hvalid as [_ _ Vo].
      destruct (Vo x y i j wx wy Ho Gx Gy) as (ch & -> & ->). reflexivity. }
    unfold ac3 in A. apply (ac3_loop_sound _ _ _ _ _ _ s A) in Hsol.
    now destruct Hsol as [_ [Hdom _]]. }
  destruct (backtrack c d' (backtrack_fuel d') []) as [[[found a] evs']| |] eqn:B;
    cbn [bind] in H; try discriminate.
  destruct found; [discriminate|].
  revert B. apply (backtrack_finds c d' s Hvalid Hd').
  - intros v w G. discriminate.
  - constructor.
Qed.

Lemma solve_none_no_solution_witness :
  ~ crossword_solution (scenario_A ["CAT"; "DOG"]%string)
      [(slot_across, "CAT"%string); (slot_down, "DOG"%string)].
Proof.
  apply (solve_none_no_solution (scenario_A ["CAT"; "DOG"]%string) [Enter]).
  vm_compute. reflexivity.
Defined.


(* ------------------------------------------------------------------ *)
(** * Facts about [letter_grid] *)

Lemma list_set_length {A : Type} (l : list A) n x :
  List.length (list_set l n x) = List.length l.
Proof.
  revert n. induction l as [|h t IH]; intros [|n]; simpl; auto.
Qed.

Lemma nth_error_list_set_same {A : Type} (l : list A) n x :
  n < List.length l -> nth_error (list_set l n x) n = Some x.
Proof.
  revert n. induction l as [|h t IH]; intros [|n] H; simpl in *;
    try lia; [reflexivity | apply IH; lia].
Qed.

Lemma nth_error_list_set_other {A : Type} (l : list A) n m x :
  n <> m -> nth_error (list_set l n x) m = nth_error l m.
Proof.
  revert n m. induction l as [|h t IH]; intros [|n] [|m] H; simpl;
    try reflexivity; try congruence.
  apply IH. congruence.
Qed.

Lemma list_set_Forall {A : Type} (P : A -> Prop) (l : list A) n x :
  Forall P l -> P x -> Forall P (list_set l n x).
Proof.
  intros Hl Hx. revert n. induction Hl as [|h t Hh Ht IH]; intros [|n]; simpl;
    constructor; auto.
Qed.

Lemma cell_eqb_eq p q : cell_eqb p q = true <-> p = q.
Proof.
  unfold cell_eqb. destruct p as [a b], q as [a' b']; simpl.
  rewrite andb_true_iff, !Nat.eqb_eq. split; [intros [-> ->] | intros [= -> ->]]; auto.
Qed.

Lemma shaped_blank h w : shaped h w (blank_grid h w).
Proof.
  unfold shaped, blank_grid. split; [apply repeat_length|].
  apply Forall_forall. intros row Hrow. apply repeat_spec in Hrow. subst.
  apply repeat_length.
Qed.

Lemma grid_get_blank h w i j :
  i < h -> j < w -> grid_get (blank_grid h w) i j = Some None.
Proof.
  intros Hi Hj. unfold grid_get, blank_grid.
  rewrite (nth_error_repeat _ Hi). now apply nth_error_repeat.
Qed.

Lemma grid_get_Some_inside h w g i j v :
  shaped h w g -> grid_get g i j = Some v -> i < h /\ j < w.
Proof.
  intros [Hh Hw] G. unfold grid_get in G.
  destruct (nth_error g i) as [row|] eqn:R; [|discriminate].
  assert (Hi : i < List.length g) by (apply nth_error_Some; congruence).
  assert (Hj : j < List.length row) by (apply nth_error_Some; congruence).
  rewrite Forall_forall in Hw.
  rewrite (Hw row (nth_error_In _ _ R)) in Hj. lia.
Qed.

(** What [letters[i][j] = ch] does to a grid of the given shape. *)
Lemma grid_set_spec h w g i j ch :
  shaped h w g ->
  (i < h /\ j < w ->
   exists g', grid_set g i j ch = Ret g' /\ shaped h w g'
              /\ forall i' j',
                   grid_get g' i' j'
                   = if cell_eqb (i', j') (i, j) then Some (Some ch)
                     else grid_get g i' j')
  /\ (~ (i < h /\ j < w) -> grid_set g i j ch = Raise IndexError).
Proof.
  intros [Hh Hw]. unfold grid_set. split.
  - intros [Hi Hj].
    destruct (nth_error g i) as [row|] eqn:R.
    2:{ apply nth_error_None in R. lia. }
    assert (Hrow : List.length row = w).
    { rewrite Forall_forall in Hw. apply Hw. eapply nth_error_In; eauto. }
    assert (Hlt : (j <? List.length row) = true) by (apply Nat.ltb_lt; lia).
    rewrite Hlt. eexists. split; [reflexivity|]. split.
    + split; [now rewrite list_set_length|].
      apply list_set_Forall; [exact Hw | now rewrite list_set_length].
    + intros i' j'. unfold grid_get, cell_eqb. simpl.
      destruct (Nat.eqb_spec i' i) as [-> | Hne]; simpl.
      * rewrite nth_error_list_set_same by lia.
        destruct (Nat.eqb_spec j' j) as [-> | Hnj].
        -- apply nth_error_list_set_same. lia.
        -- rewrite nth_error_list_set_other by congruence. now rewrite R.
      * rewrite nth_error_list_set_other by congruence. reflexivity.
  - intro Hout. destruct (nth_error g i) as [row|] eqn:R; [|reflexivity].
    assert (Hi : i < List.length g) by (apply nth_error_Some; congruence).
    assert (Hrow : List.length row = w).
    { rewrite Forall_forall in Hw. apply Hw. eapply nth_error_In; eauto. }
    destruct (Nat.ltb_spec j (List.length row)); [|reflexivity].
    exfalso. apply Hout. lia.
Qed.

Lemma string_get_lt k s ch : String.get k s = Some ch -> k < String.length s.
Proof.
  revert k. induction s as [|a s IH]; intros k; simpl; [discriminate|].
  destruct k as [|k]; [lia|]. intro H. apply IH in H. lia.
Qed.

Lemma string_get_None k s : String.get k s = None -> ~ k < String.length s.
Proof.
  intros H Hlt. destruct (string_get_Some _ _ Hlt) as [a Ha]. congruence.
Qed.

Lemma cell_eqb_sym p q : cell_eqb p q = cell_eqb q p.
Proof. unfold cell_eqb. now rewrite (Nat.eqb_sym (fst p)), (Nat.eqb_sym (snd p)). Qed.

Lemma last_written_app prev l1 l2 :
  last_written prev (l1 ++ l2) = last_written (last_written prev l1) l2.
Proof. unfold last_written. apply fold_left_app. Qed.

(** One word written on a grid of the given shape: the new grid and what its
    cells hold, or an IndexError for a letter outside. *)
Lemma write_word_cases h w var word ks g :
  shaped h w g ->
  (exists g',
      write_word var word ks g = Ret g' /\ shaped h w g'
      /\ (forall k, In k ks ->
                    k < String.length word
                    /\ fst (cell var k) < h /\ snd (cell var k) < w)
      /\ forall i j prev,
           grid_get g i j = Some prev ->
           grid_get g' i j
           = Some (last_written prev (word_letters_at var word ks i j)))
  \/ (write_word var word ks g = Raise IndexError
      /\ exists k, In k ks
                   /\ ~ (k < String.length word
                         /\ fst (cell var k) < h /\ snd (cell var k) < w)).
Proof.
  revert g. induction ks as [|k rest IH]; intros g Hs.
  - left. exists g. split; [reflexivity|]. split; [exact Hs|].
    split; [intros k []|]. intros i j prev Gp. exact Gp.
  - cbn [write_word].
    destruct (String.get k word) as [ch|] eqn:Gk.
    2:{ right. split; [reflexivity|]. exists k. split; [now left|].
        intros [Hlt _]. now apply string_get_None in Gk. }
    destruct (grid_set_spec h w g (fst (cell var k)) (snd (cell var k)) ch Hs)
      as [Hin Hout].
    destruct (lt_dec (fst (cell var k)) h) as [Hi|Hi].
    2:{ right. rewrite Hout by tauto. split; [reflexivity|].
        exists k. split; [now left | tauto]. }
    destruct (lt_dec (snd (cell var k)) w) as [Hj|Hj].
    2:{ right. rewrite Hout by tauto. split; [reflexivity|].
        exists k. split; [now left | tauto]. }
    destruct (Hin (conj Hi Hj)) as (g1 & -> & Hs1 & Hget). cbn [bind].
    destruct (IH g1 Hs1) as [(g' & E & Hs' & Hks & Hcont) | (E & k' & Hk' & Hbad)].
    + left. exists g'. split; [exact E|]. split; [exact Hs'|]. split.
      * intros k' [<- | Hk']; [|now apply Hks].
        split; [eapply string_get_lt; eassumption | auto].
      * intros i j prev Gp. unfold word_letters_at. cbn [flat_map].
        fold (word_letters_at var word rest i j).
        rewrite last_written_app, Gk.
        apply Hcont. rewrite Hget. rewrite <- surjective_pairing.
        rewrite (cell_eqb_sym (i, j)).
        destruct (cell_eqb (cell var k) (i, j)); [reflexivity | exact Gp].
    + right. split; [exact E|]. exists k'. split; [now right | exact Hbad].
Qed.

Lemma write_words_cases h w a g :
  shaped h w g ->
  (exists g',
      write_words a g = Ret g' /\ shaped h w g' /\ inside h w a
      /\ forall i j prev,
           grid_get g i j = Some prev ->
           grid_get g' i j = Some (last_written prev (letters_at a i j)))
  \/ (write_words a g = Raise IndexError /\ ~ inside h w a).
Proof.
  revert g. induction a as [|[var word] rest IH]; intros g Hs.
  - left. exists g. split; [reflexivity|]. split; [exact Hs|].
    split; [intros var word k []|]. intros i j prev Gp. exact Gp.
  - cbn [write_words].
    destruct (write_word_cases h w var word (seq 0 (String.length word)) g Hs)
      as [(g1 & -> & Hs1 & Hks & Hcont) | (-> & k & Hk & Hbad)]; cbn [bind].
    + destruct (IH g1 Hs1) as [(g' & E & Hs' & Hin & Hcont') | (E & Hbad)].
      * left. exists g'. split; [exact E|]. split; [exact Hs'|]. split.
        -- intros v wd k [[= <- <-] | Hr] Hk; [|now apply (Hin v wd k)].
           apply Hks. apply in_seq. lia.
        -- intros i j prev Gp. unfold letters_at. cbn [flat_map fst snd].
           fold (letters_at rest i j). rewrite last_written_app.
           apply Hcont'. now apply Hcont.
      * right. split; [exact E|]. intro Hin. apply Hbad.
        intros v wd k Hr. apply Hin. now right.
    + right. split; [reflexivity|]. intro Hin. apply Hbad.
      apply in_seq in Hk. split; [lia|]. apply (Hin var word k); [now left | lia].
Qed.

(** X16.  The grid that [letter_grid] returns has [height] rows of [width]
    cells; a cell holds the letter written to it last, in the order of the
    assignment's entries, and None when no word covers it. *)
Theorem letter_grid_shows_last_letter (height width : nat) (a : Assignment)
        (g : grid) :
  letter_grid height width a = Ret g ->
  shaped height width g
  /\ forall i j, i < height -> j < width ->
                 grid_get g i j = Some (last_written None (letters_at a i j)).
Proof.
  unfold letter_grid. intro H.
  destruct (write_words_cases height width a _ (shaped_blank height width))
    as [(g' & E & Hs & _ & Hcont) | (E & _)]; [|congruence].
  rewrite H in E. injection E as <-. split; [exact Hs|].
  intros i j Hi Hj. apply Hcont. now apply grid_get_blank.
Qed.

Lemma letter_grid_shows_last_letter_witness :
  shaped 3 3 [[Some "C"; Some "A"; Some "T"]%char;
              [None; None; Some "I"]%char;
              [None; None; Some "P"]%char]
  /\ forall i j, i < 3 -> j < 3 ->
       grid_get [[Some "C"; Some "A"; Some "T"]%char;
                 [None; None; Some "I"]%char;
                 [None; None; Some "P"]%char] i j
       = Some (last_written None
                 (letters_at [(slot_across, "CAT"%string); (slot_down, "TIP"%string)]
                             i j)).
Proof.
  apply (letter_grid_shows_last_letter 3 3
           [(slot_across, "CAT"%string); (slot_down, "TIP"%string)]).
  vm_compute. reflexivity.
Defined.

(** X17.  [letter_grid] returns a grid exactly when every letter of every
    word has its cell inside the grid; otherwise it raises IndexError. *)
Theorem letter_grid_raises_outside (height width : nat) (a : Assignment) :
  (inside height width a -> exists g, letter_grid height width a = Ret g)
  /\ (~ inside height width a ->
      letter_grid height width a = Raise IndexError)
  /\ (forall g, letter_grid height width a = Ret g -> inside height width a).
Proof.
  unfold letter_grid.
  destruct (write_words_cases height width a _ (shaped_blank height width))
    as [(g' & E & _ & Hin & _) | (E & Hout)]; rewrite E.
  - split; [eauto|]. split; [tauto | auto].
  - split; [tauto|]. split; [auto | discriminate].
Qed.

Lemma letter_grid_raises_outside_witness :
  letter_grid 2 3 [(slot_across, "CAT"%string); (slot_down, "TIP"%string)]
  = Raise IndexError.
Proof.
  apply (proj1 (proj2 (letter_grid_raises_outside 2 3
           [(slot_across, "CAT"%string); (slot_down, "TIP"%string)]))).
  intro H. destruct (H slot_down "TIP"%string 2) as [Hi _].
  - right. now left.
  - simpl. lia.
  - simpl in Hi. lia.
Defined.

Lemma in_word_letters_at var word ks i j x :
  In x (word_letters_at var word ks i j) ->
  exists k, cell var k = (i, j) /\ String.get k word = Some x.
Proof.
  unfold word_letters_at. rewrite in_flat_map. intros (k & _ & Hx).
  destruct (cell_eqb (cell var k) (i, j)) eqn:E; [|destruct Hx].
  apply cell_eqb_eq in E.
  destruct (String.get k word) as [ch|] eqn:G; [|destruct Hx].
  destruct Hx as [<- | []]. eauto.
Qed.

Lemma last_written_all prev l ch :
  l <> [] -> (forall x, In x l -> x = ch) -> last_written prev l = Some ch.
Proof.
  unfold last_written. revert prev.
  induction l as [|x l IH]; intros prev Hne Hall; [congruence|].
  simpl. destruct l as [|y l'].
  - simpl. f_equal. apply Hall. now left.
  - apply IH; [discriminate|]. intros z Hz. apply Hall. now right.
Qed.

(** X18.  When the words of the assignment have the same letter wherever two
    of them meet on a cell, every word can be read off the grid that
    [letter_grid] returns: the cell of letter [k] of a Variable holds letter
    [k] of its word. *)
Theorem letter_grid_shows_every_word (height width : nat) (a : Assignment)
        (g : grid) :
  letter_grid height width a = Ret g ->
  agree_on_cells a ->
  forall var word k ch,
    In (var, word) a -> String.get k word = Some ch ->
    grid_get g (fst (cell var k)) (snd (cell var k)) = Some (Some ch).
Proof.
  unfold letter_grid. intros H Hag var word k ch Hin Gk.
  destruct (write_words_cases height width a _ (shaped_blank height width))
    as [(g' & E & _ & Hins & Hcont) | (E & _)]; [|congruence].
  rewrite H in E. injection E as <-.
  pose proof (string_get_lt _ _ _ Gk) as Hk.
  destruct (Hins var word k Hin Hk) as [Hi Hj].
  rewrite (Hcont _ _ None (grid_get_blank _ _ _ _ Hi Hj)). f_equal.
  apply last_written_all.
  - intro Hnil.
    assert (Hx : In ch (letters_at a (fst (cell var k)) (snd (cell var k)))).
    { unfold letters_at. apply in_flat_map. exists (var, word).
      split; [exact Hin|]. unfold word_letters_at. apply in_flat_map.
      exists k. split; [apply in_seq; simpl; lia|]. cbn [fst snd].
      rewrite <- surjective_pairing.
      assert (E : cell_eqb (cell var k) (cell var k) = true)
        by now apply cell_eqb_eq.
      rewrite E, Gk. now left. }
    rewrite Hnil in Hx. destruct Hx.
  - intros x Hx. unfold letters_at in Hx. apply in_flat_map in Hx.
    destruct Hx as ([y wy] & Hy & Hx). cbn [fst snd] in Hx.
    apply in_word_letters_at in Hx. destruct Hx as (ky & Hc & Gy).
    rewrite <- surjective_pairing in Hc.
    apply (Hag y wy var word ky k x ch); auto.
Qed.

Lemma letter_grid_shows_every_word_witness :
  grid_get [[Some "C"; Some "A"; Some "T"]%char;
            [None; None; Some "I"]%char;
            [None; None; Some "P"]%char]
           (fst (cell slot_down 2)) (snd (cell slot_down 2))
  = Some (Some "P"%char).
Proof.
  apply (letter_grid_shows_every_word 3 3
           [(slot_across, "CAT"%string); (slot_down, "TIP"%string)] _
           ltac:(vm_compute; reflexivity)) with (word := "TIP"%string).
  - intros x wx y wy kx ky chx chy Hx Hy Gx Gy Hc.
    destruct Hx as [[= <- <-] | [[= <- <-] | []]];
      destruct Hy as [[= <- <-] | [[= <- <-] | []]];
      destruct kx as [|[|[|kx]]]; try discriminate;
      destruct ky as [|[|[|ky]]]; try discriminate;
      simpl in Gx, Gy; congruence.
  - right. now left.
  - reflexivity.
Defined.

Lemma dict_get_of_entry {V : Type} (a : dict V) k v :
  NoDup (keys a) -> In (k, v) a -> dict_get a k = Some v.
Proof.
  induction a as [|[k' v'] a IH]; simpl; [contradiction|].
  intros Hnd Hin. inversion Hnd as [|? ? Hnotin Hnd']; subst.
  destruct Hin as [[= -> ->] | Hin].
  - now rewrite variable_eqb_refl.
  - eqb_case k' k.
    + subst k'. exfalso. apply Hnotin. apply in_map_iff. now exists (k, v).
    + now apply IH.
Qed.

Lemma cell_injective var k k' : cell var k = cell var k' -> k = k'.
Proof.
  unfold cell. destruct (var_direction var); intro H; injection H; lia.
Qed.

Lemma valid_agree_on_cells c a :
  records_shared_cells c -> incl (keys a) (variables c) -> NoDup (keys a) ->
  valid_assignment c a -> agree_on_cells a.
Proof.
  intros Hgeo Hk Hnd [Vl _ Vo] x wx y wy kx ky chx chy Hx Hy Gx Gy Hc.
  pose proof (dict_get_of_entry a x wx Hnd Hx) as Dx.
  pose proof (dict_get_of_entry a y wy Hnd Hy) as Dy.
  destruct (variable_eq_dec x y) as [-> | Hne].
  - rewrite Dx in Dy. injection Dy as <-.
    apply cell_injective in Hc. subst ky. congruence.
  - assert (Hkx : kx < var_length x)
      by (rewrite <- (Vl _ _ Dx); eapply string_get_lt; eassumption).
    assert (Hky : ky < var_length y)
      by (rewrite <- (Vl _ _ Dy); eapply string_get_lt; eassumption).
    assert (Ho : overlaps c x y = Some (kx, ky)).
    { apply Hgeo; auto; apply Hk; eauto using dict_get_Some_In. }
    destruct (Vo x y kx ky wx wy Ho Dx Dy) as (ch & E1 & E2). congruence.
Qed.

(** X19.  [consistent] and [letter_grid] fit together: on a crossword whose
    overlap table records every cell two Variables share, an assignment that
    [consistent] accepts is shown letter for letter by the grid
    [letter_grid] returns for it. *)
Theorem consistent_assignment_is_shown (c : Crossword) (height width : nat)
        (a : Assignment) (g : grid) :
  WfCrossword c -> records_shared_cells c ->
  incl (keys a) (variables c) -> NoDup (keys a) ->
  consistent c a = Ret true ->
  letter_grid height width a = Ret g ->
  forall var word k ch,
    dict_get a var = Some word -> String.get k word = Some ch ->
    grid_get g (fst (cell var k)) (snd (cell var k)) = Some (Some ch).
Proof.
  intros Hwf Hgeo Hk Hnd Hc Hg var word k ch G Gk.
  assert (Hag : agree_on_cells a).
  { apply (valid_agree_on_cells c); auto. now apply consistent_valid. }
  unfold letter_grid in Hg.
  destruct (write_words_cases height width a _ (shaped_blank height width))
    as [(g' & E & _ & Hins & Hcont) | (E & _)]; [|congruence].
  rewrite Hg in E. injection E as <-.
  pose proof (dict_get_entry _ _ _ G) as Hin.
  pose proof (string_get_lt _ _ _ Gk) as Hlt.
  destruct (Hins var word k Hin Hlt) as [Hi Hj].
  rewrite (Hcont _ _ None (grid_get_blank _ _ _ _ Hi Hj)). f_equal.
  apply last_written_all.
  - intro Hnil.
    assert (Hx : In ch (letters_at a (fst (cell var k)) (snd (cell var k)))).
    { unfold letters_at. apply in_flat_map. exists (var, word).
      split; [exact Hin|]. unfold word_letters_at. apply in_flat_map.
      exists k. split; [apply in_seq; simpl; lia|]. cbn [fst snd].
      rewrite <- surjective_pairing.
      assert (E : cell_eqb (cell var k) (cell var k) = true)
        by now apply cell_eqb_eq.
      rewrite E, Gk. now left. }
    rewrite Hnil in Hx. destruct Hx.
  - intros x Hx. unfold letters_at in Hx. apply in_flat_map in Hx.
    destruct Hx as ([y wy] & Hy & Hx). cbn [fst snd] in Hx.
    apply in_word_letters_at in Hx. destruct Hx as (ky & Hcell & Gy).
    rewrite <- surjective_pairing in Hcell.
    apply (Hag y wy var word ky k x ch); auto.
Qed.

Lemma scenario_A_records_shared_cells ws :
  records_shared_cells (scenario_A ws).
Proof.
  intros x y kx ky Hx Hy Hne Hkx Hky Hc. simpl in Hx, Hy.
  destruct Hx as [<- | [<- | []]]; destruct Hy as [<- | [<- | []]];
    try congruence; simpl in Hkx, Hky;
    destruct kx as [|[|[|kx]]]; try lia;
    destruct ky as [|[|[|ky]]]; try lia;
    try discriminate Hc; reflexivity.
Qed.

Lemma consistent_assignment_is_shown_witness :
  grid_get [[Some "C"; Some "A"; Some "T"]%char;
            [None; None; Some "I"]%char;
            [None; None; Some "P"]%char]
           (fst (cell slot_down 1)) (snd (cell slot_down 1))
  = Some (Some "I"%char).
Proof.
  apply (consistent_assignment_is_shown
           (scenario_A ["CAT"; "TIP"]%string) 3 3
           [(slot_across, "CAT"%string); (slot_down, "TIP"%string)])
    with (word := "TIP"%string).
  - apply table_wf_ok. reflexivity.
  - apply scenario_A_records_shared_cells.
  - vm_compute. intros v H. exact H.
  - vm_compute. repeat constructor; simpl; intuition discriminate.
  - vm_compute. reflexivity.
  - vm_compute. reflexivity.
  - reflexivity.
  - reflexivity.
Defined.

(** X20.  On a crossword with no Variable [solve] returns the empty
    assignment, not None: the empty assignment is complete, and [backtrack]
    returns it at once. *)
Theorem solve_without_variables (c : Crossword) :
  variables c = [] -> solve c = Ret (Some [], [Enter]).
Proof.
  destruct c as [vars ws ov]. simpl. intros ->. reflexivity.
Qed.

Lemma solve_without_variables_witness :
  solve (crossword_of [] ["CAT"; "DOG"]%string []) = Ret (Some [], [Enter]).
Proof.
  apply (solve_without_variables (crossword_of [] ["CAT"; "DOG"]%string [])).
  reflexivity.
Defined.

Lemma shrinks_get_sub d' d x s :
  shrinks d' d -> dict_get d x = Some s ->
  exists s', dict_get d' x = Some s' /\ incl s' s.
Proof.
  induction 1 as [|[k1 s1] [k2 s2] l1 l2 (Hk & Hi & _) _ IH]; simpl in *;
    [discriminate|].
  subst k2. destruct (variable_eqb k1 x); [|exact IH].
  intros [= <-]. eauto.
Qed.

(** X21.  [ac3] prunes without changing the solutions: whatever it returns,
    the assignments that give every Variable a word of its domain and match
    at the overlaps are the same for the store it leaves as for the store it
    was given. *)
Theorem ac3_keeps_the_solutions (c : Crossword) (d : Domains)
        (arcs : option (list arc)) (b : bool) (d' : Domains) (a : Assignment) :
  ac3 c d arcs = Ret (b, d') ->
  (solution c d a <-> solution c d' a).
Proof.
  intro A. pose proof (ac3_shrinks _ _ _ _ _ A) as Hs. split.
  - intro Hsol. unfold ac3 in A.
    now destruct (ac3_loop_sound _ _ _ _ _ _ a A Hsol).
  - intros [Hdom Hov]. split.
    + intros x s G. destruct (shrinks_get_sub _ _ _ _ Hs G) as (s' & G' & Hi).
      destruct (Hdom x s' G') as (w & Gw & Hw). exists w. auto.
    + rewrite <- (shrinks_keys _ _ Hs). exact Hov.
Qed.

Lemma ac3_keeps_the_solutions_witness :
  solution (scenario_A ["CAT"; "DOG"; "TIP"]%string)
    [(slot_across, ["CAT"; "DOG"; "TIP"]%string);
     (slot_down, ["CAT"; "DOG"; "TIP"]%string)]
    [(slot_across, "CAT"%string); (slot_down, "TIP"%string)]
  <-> solution (scenario_A ["CAT"; "DOG"; "TIP"]%string)
        [(slot_across, ["CAT"]%string); (slot_down, ["TIP"]%string)]
        [(slot_across, "CAT"%string); (slot_down, "TIP"%string)].
Proof.
  apply (ac3_keeps_the_solutions (scenario_A ["CAT"; "DOG"; "TIP"]%string)
           _ None true).
  vm_compute. reflexivity.
Defined.
